(** * Masked normalized cross-correlation (skimage/feature/_mnxc.py)

    A shallow embedding of [mnxc] and of its two helpers [_flip] and
    [_centered], together with the part of Python and numpy they rely on:
    negative indexing, slice objects, n-dimensional arrays stored in row-major
    order, basic indexing by a tuple of slices, reductions with [keepdims] and
    the discrete Fourier transform restricted to a set of axes.

    Numbers: numpy's float64 is idealised by the exact rationals [Q]; the
    only operation that leaves the rationals, [np.sqrt], is rounded down to a
    multiple of 2^-52.  The complex128 results of [np.fft.ifftn] have a zero
    imaginary part in exact arithmetic: [mnxc] identifies them with their
    real part, [mnxc_complex] keeps numpy's dtypes and numpy's operations on
    complex numbers, and the result of the second is shown to be the result
    of the first with imaginary parts 0. *)

From Stdlib Require Import String Bool Arith ZArith QArith Qround Qabs Lia List.
Import ListNotations.

Close Scope Q_scope.
Set Implicit Arguments.

(** ** Python exceptions *)

Inductive exn : Type :=
| ValueError_mode    (* raise ValueError("Correlation mode {} is not valid.") *)
| ValueError_shape   (* raise ValueError('Array shapes along non-transformation axes ...') *)
| IndexError         (* index out of range, too many indices, mask of another shape *)
| NumpyValueError    (* ValueError raised inside numpy: transform length < 1,
                        duplicate reduction axis, reduction over an empty axis,
                        slice step of zero *)
| OutsideModel.      (* an inverse transform that would resize a spectrum: not
                        covered by the representation of spectra below, and
                        never requested by mnxc *)

Inductive result (A : Type) : Type :=
| Ok (a : A)
| Raise (e : exn).

Arguments Ok {A} a.
Arguments Raise {A} e.

Definition bind {A B} (c : result A) (f : A -> result B) : result B :=
  match c with
  | Ok a => f a
  | Raise e => Raise e
  end.

Notation "'do' x <- c1 ;; c2" := (bind c1 (fun x => c2))
  (at level 10, x name, c1 at level 100, c2 at level 200).

Fixpoint mapM {A B} (f : A -> result B) (l : list A) : result (list B) :=
  match l with
  | [] => Ok []
  | x :: l' => do y <- f x ;; do ys <- mapM f l' ;; Ok (y :: ys)
  end.

Fixpoint foldM {A B} (f : B -> A -> result B) (l : list A) (b : B) : result B :=
  match l with
  | [] => Ok b
  | x :: l' => do b' <- f b x ;; foldM f l' b'
  end.

(** ** Python sequences: indexing with negative indices *)

Definition norm_index (n : nat) (i : Z) : result nat :=
  let j := if (i <? 0)%Z then (i + Z.of_nat n)%Z else i in
  if ((0 <=? j) && (j <? Z.of_nat n))%Z then Ok (Z.to_nat j) else Raise IndexError.

Fixpoint list_set {A} (l : list A) (k : nat) (v : A) : list A :=
  match l, k with
  | [], _ => []
  | _ :: l', O => v :: l'
  | x :: l', S k' => x :: list_set l' k' v
  end.

(** [l[i]] *)
Definition py_getitem {A} (l : list A) (i : Z) : result A :=
  do k <- norm_index (length l) i ;;
  match nth_error l k with
  | Some v => Ok v
  | None => Raise IndexError
  end.

(** [l[i] = v] *)
Definition py_setitem {A} (l : list A) (i : Z) (v : A) : result (list A) :=
  do k <- norm_index (length l) i ;; Ok (list_set l k v).

(** ** Slice objects *)

Record slice : Type := Slice
  { sl_start : option Z; sl_stop : option Z; sl_step : option Z }.

(** A slice resolved against a length: first source index, stride, number of
    elements ([slice.indices] followed by the length of the range). *)
Record span : Type := Span { sp_start : Z; sp_step : Z; sp_len : nat }.

Definition adjust_index (n step v : Z) : Z :=
  if (v <? 0)%Z then
    let v' := (v + n)%Z in
    if (v' <? 0)%Z then (if (step <? 0)%Z then (-1)%Z else 0%Z) else v'
  else if (n <=? v)%Z then (if (step <? 0)%Z then (n - 1)%Z else n)
  else v.

Definition slice_resolve (s : slice) (len : nat) : result span :=
  let n := Z.of_nat len in
  let step := match sl_step s with Some k => k | None => 1%Z end in
  if (step =? 0)%Z then Raise NumpyValueError else
  let start := match sl_start s with
               | Some v => adjust_index n step v
               | None => if (step <? 0)%Z then (n - 1)%Z else 0%Z
               end in
  let stop := match sl_stop s with
              | Some v => adjust_index n step v
              | None => if (step <? 0)%Z then (-1)%Z else n
              end in
  let count :=
    if (step <? 0)%Z
    then (if (stop <? start)%Z then ((start - stop - 1) / (- step) + 1)%Z else 0%Z)
    else (if (start <? stop)%Z then ((stop - start - 1) / step + 1)%Z else 0%Z) in
  Ok (Span start step (Z.to_nat count)).

Definition span_all (len : nat) : span := Span 0 1 len.

Definition span_src (sp : span) (i : nat) : nat :=
  Z.to_nat (sp_start sp + Z.of_nat i * sp_step sp).

(** ** n-dimensional arrays: a shape and a row-major buffer *)

Record ndarray (T : Type) : Type := mk_ndarray
  { shape : list nat; data : list T }.

Definition ndim {T} (a : ndarray T) : nat := length (shape a).

Definition size (sh : list nat) : nat := fold_right Nat.mul 1 sh.

Definition wf {T} (a : ndarray T) : Prop := length (data a) = size (shape a).

(** All multi-indices of a shape, in row-major order. *)
Fixpoint indices (sh : list nat) : list (list nat) :=
  match sh with
  | [] => [[]]
  | n :: sh' => flat_map (fun i => map (cons i) (indices sh')) (seq 0 n)
  end.

Fixpoint ravel (sh idx : list nat) : nat :=
  match sh, idx with
  | n :: sh', i :: idx' => i * size sh' + ravel sh' idx'
  | _, _ => 0
  end.

Fixpoint in_boundsb (sh idx : list nat) : bool :=
  match sh, idx with
  | [], [] => true
  | n :: sh', i :: idx' => (i <? n) && in_boundsb sh' idx'
  | _, _ => false
  end.

Definition get {T} (a : ndarray T) (idx : list nat) : option T :=
  if in_boundsb (shape a) idx then nth_error (data a) (ravel (shape a) idx) else None.

Class Default (T : Type) : Type := default : T.
#[export] Instance Default_Q : Default Q := 0%Q.
#[export] Instance Default_bool : Default bool := false.

Definition item {T} `{Default T} (a : ndarray T) (idx : list nat) : T :=
  match get a idx with
  | Some v => v
  | None => default
  end.

Definition build {T} (sh : list nat) (f : list nat -> T) : ndarray T :=
  mk_ndarray sh (map f (indices sh)).

Definition nd_map {A B} (f : A -> B) (a : ndarray A) : ndarray B :=
  mk_ndarray (shape a) (map f (data a)).

(** Element-wise binary operation on two arrays of one shape. *)
Definition nd_map2 {A B C} (f : A -> B -> C) (a : ndarray A) (b : ndarray B) : ndarray C :=
  mk_ndarray (shape a) (map (fun p => f (fst p) (snd p)) (combine (data a) (data b))).

(** Basic indexing [arr[tuple(slices)]]: missing trailing slices select the
    whole axis, more slices than axes raise IndexError. *)
Fixpoint resolve (sl : list slice) (sh : list nat) : result (list span) :=
  match sl, sh with
  | [], _ => Ok (map span_all sh)
  | _ :: _, [] => Raise IndexError
  | s :: sl', n :: sh' =>
      do sp <- slice_resolve s n ;; do sps <- resolve sl' sh' ;; Ok (sp :: sps)
  end.

Fixpoint src_index (sps : list span) (idx : list nat) : list nat :=
  match sps, idx with
  | sp :: sps', i :: idx' => span_src sp i :: src_index sps' idx'
  | _, _ => []
  end.

Definition getitem {T} `{Default T} (a : ndarray T) (sl : list slice) : result (ndarray T) :=
  do sps <- resolve sl (shape a) ;;
  Ok (build (map sp_len sps) (fun idx => item a (src_index sps idx))).

(** ** The helpers of _mnxc.py *)

(** [_flip(arr, axes)]: [axes = None] is [None], a tuple of ints is [Some].
    [arr[reverse]] indexes with the list of slices as with the tuple of the
    same slices. *)
Definition _flip {T} `{Default T} (arr : ndarray T) (axes : option (list Z)) : result (ndarray T) :=
  do reverse <-
    match axes with
    | None => Ok (repeat (Slice None None (Some (-1)%Z)) (ndim arr))
    | Some axes =>
        foldM (fun reverse axis => py_setitem reverse axis (Slice None None (Some (-1)%Z)))
              axes (repeat (Slice None None None) (ndim arr))
    end ;;
  getitem arr reverse.

(** [_centered(arr, newshape, axes)] *)
Definition _centered {T} `{Default T} (arr : ndarray T) (newshape : list nat) (axes : list Z)
  : result (ndarray T) :=
  let newshape := map Z.of_nat newshape in
  let currshape := map Z.of_nat (shape arr) in
  do slices <-
    foldM (fun slices ax =>
             do c <- py_getitem currshape ax ;;
             do n <- py_getitem newshape ax ;;
             let startind := ((c - n) / 2)%Z in
             let endind := (startind + n)%Z in
             py_setitem slices ax (Slice (Some startind) (Some endind) None))
          axes (repeat (Slice None None None) (ndim arr)) ;;
  getitem arr slices.


(** ** Axis sets as masks, and multi-indices restricted to them *)

Definition axis_mask (nd : nat) (ks : list nat) : list bool :=
  map (fun k => existsb (Nat.eqb k) ks) (seq 0 nd).

(** Coordinates of [j] on the axes of the mask, of [idx] elsewhere. *)
Fixpoint select (m : list bool) (j idx : list nat) : list nat :=
  match m, j, idx with
  | b :: m', jk :: j', ik :: idx' => (if b then jk else ik) :: select m' j' idx'
  | _, _, _ => []
  end.

(** The extents on the axes of the mask, 1 elsewhere. *)
Fixpoint axes_shape (m : list bool) (sh : list nat) : list nat :=
  match m, sh with
  | b :: m', n :: sh' => (if b then n else 1) :: axes_shape m' sh'
  | _, _ => []
  end.

(** The shape of a reduction over the axes of the mask with [keepdims=True]. *)
Fixpoint keep_shape (m : list bool) (sh : list nat) : list nat :=
  match m, sh with
  | b :: m', n :: sh' => (if b then 1 else n) :: keep_shape m' sh'
  | _, _ => []
  end.

(** The index [idx - j] modulo the extents, on the axes of the mask. *)
Fixpoint conv_partner (m : list bool) (sh idx j : list nat) : list nat :=
  match m, sh, idx, j with
  | b :: m', n :: sh', ik :: idx', jk :: j' =>
      (if b then (ik + n - jk) mod n else ik) :: conv_partner m' sh' idx' j'
  | _, _, _, _ => []
  end.

(** numpy broadcasting of an array of shape [sh] against one of the same
    rank: an axis of extent 1 is read at 0. *)
Fixpoint bcast_index (sh idx : list nat) : list nat :=
  match sh, idx with
  | n :: sh', i :: idx' => (if n =? 1 then 0 else i) :: bcast_index sh' idx'
  | _, _ => []
  end.

Fixpoint shape_eqb (s1 s2 : list nat) : bool :=
  match s1, s2 with
  | [], [] => true
  | a :: s1', b :: s2' => (a =? b) && shape_eqb s1' s2'
  | _, _ => false
  end.

Fixpoint nodupb (l : list nat) : bool :=
  match l with
  | [] => true
  | x :: l' => negb (existsb (Nat.eqb x) l') && nodupb l'
  end.

(** ** Scalars *)

Definition Qltb (x y : Q) : bool := negb (Qle_bool y x).

(** [np.finfo(np.float).eps] *)
Definition eps : Q := 1 # (2 ^ 52).

(** [np.round]: to the nearest integer, ties to the even one. *)
Definition Qrint (x : Q) : Q :=
  let f := Qfloor x in
  match (x - inject_Z f ?= 1 # 2)%Q with
  | Lt => inject_Z f
  | Gt => inject_Z (f + 1)
  | Eq => inject_Z (if Z.even f then f else f + 1)
  end.

(** [np.fmax] *)
Definition fmax (x y : Q) : Q := if Qltb x y then y else x.

(** [np.sqrt], rounded down to a multiple of 2^-52. *)
Definition Qsqrt (x : Q) : Q :=
  Z.sqrt (Qnum x * 2 ^ 104 / Z.pos (Qden x)) # (2 ^ 52).

(** [np.clip] of one value: [minimum(maximum(x, a_min), a_max)]. *)
Definition clip1 (a_min a_max x : Q) : Q :=
  let y := if Qltb x a_min then a_min else x in
  if Qltb a_max y then a_max else y.

Definition Qsum (l : list Q) : Q := fold_right Qplus 0%Q l.

Definition Qmax_list (l : list Q) : Q :=
  match l with
  | [] => 0%Q
  | x :: l' => fold_left fmax l' x
  end.

(** ** numpy functions on arrays *)

Definition astype_float (a : ndarray bool) : ndarray Q :=
  nd_map (fun b : bool => if b then 1%Q else 0%Q) a.

Definition logical_not (a : ndarray bool) : ndarray bool := nd_map negb a.

Definition zeros_like (a : ndarray Q) : ndarray Q := nd_map (fun _ => 0%Q) a.

(** [np.real]: the results of the inverse transform are identified with their
    real part. *)
Definition np_real (a : ndarray Q) : ndarray Q := a.

(** Element-wise operation on two arrays, the second broadcast against the
    first. *)
Definition nd_zip {A B C} `{Default A} `{Default B}
  (f : A -> B -> C) (a : ndarray A) (b : ndarray B) : ndarray C :=
  build (shape a) (fun idx => f (item a idx) (item b (bcast_index (shape b) idx))).

(** [a[mask] = v] *)
Definition setitem_mask {T} `{Default T} (a : ndarray T) (mask : ndarray bool) (v : T)
  : result (ndarray T) :=
  if shape_eqb (shape a) (shape mask)
  then Ok (nd_zip (fun x (b : bool) => if b then v else x) a mask)
  else Raise IndexError.

(** [a[mask] = b[mask]] for [b] of the shape of [a] *)
Definition setitem_mask_from {T} `{Default T} (a : ndarray T) (mask : ndarray bool) (b : ndarray T)
  : result (ndarray T) :=
  if shape_eqb (shape a) (shape mask)
  then Ok (build (shape a) (fun idx => if item mask idx then item b idx else item a idx))
  else Raise IndexError.

(** [np.max(a, axis=axes, keepdims=True)] *)
Definition amax_keepdims (a : ndarray Q) (axes : list Z) : result (ndarray Q) :=
  do ks <- mapM (norm_index (ndim a)) axes ;;
  if negb (nodupb ks) then Raise NumpyValueError else
  let m := axis_mask (ndim a) ks in
  if existsb (Nat.eqb 0) (axes_shape m (shape a)) then Raise NumpyValueError else
  Ok (build (keep_shape m (shape a))
        (fun idx => Qmax_list (map (fun j => item a (select m j idx))
                                   (indices (axes_shape m (shape a)))))).

(** ** The Fourier transform

    A spectrum is represented by the signal it is the transform of, together
    with the axes it was transformed along.  By the convolution theorem the
    element-wise product of two spectra of one shape is the transform of the
    circular convolution of their signals, so the product of spectra is the
    circular convolution of the representatives. *)

Record spectrum : Type := Spectrum
  { transform_axes : list bool; signal : ndarray Q }.

(** Zero-pad or truncate along one axis. *)
Definition resize_axis (a : ndarray Q) (k n : nat) : ndarray Q :=
  build (list_set (shape a) k n) (fun idx => item a idx).

(** One step of [np.fft.fftn]: [fft(a, n, axis)]. *)
Definition fft1 (a : ndarray Q) (axis n : Z) : result (ndarray Q) :=
  if (n <? 1)%Z then Raise NumpyValueError else
  do k <- norm_index (ndim a) axis ;;
  Ok (resize_axis a k (Z.to_nat n)).

(** [np.fft.fftn(a, s, axes)]: the axes are processed from the last one. *)
Definition fftn (s : list Z) (axes : list Z) (a : ndarray Q) : result spectrum :=
  if negb (length s =? length axes) then Raise NumpyValueError else
  do a' <- foldM (fun a p => fft1 a (fst p) (snd p)) (rev (combine axes s)) a ;;
  do ks <- mapM (norm_index (ndim a)) axes ;;
  Ok (Spectrum (axis_mask (ndim a) ks) a').

Definition circ_conv (m : list bool) (a b : ndarray Q) : ndarray Q :=
  build (shape a)
    (fun idx => Qsum (map (fun j => (item a (select m j idx)
                                     * item b (conv_partner m (shape a) idx j))%Q)
                          (indices (axes_shape m (shape a))))).

(** [X * Y] on spectra of one shape. *)
Definition spec_mul (X Y : spectrum) : spectrum :=
  Spectrum (transform_axes X) (circ_conv (transform_axes X) (signal X) (signal Y)).

(** [np.fft.ifftn(X, s, axes)] for a spectrum that already has the extents
    [s] along [axes]. *)
Definition ifftn (s : list Z) (axes : list Z) (X : spectrum) : result (ndarray Q) :=
  do ext <- mapM (py_getitem (map Z.of_nat (shape (signal X)))) axes ;;
  if forallb (fun p => (fst p =? snd p)%Z) (combine ext s) && (length s =? length axes)
  then Ok (signal X)
  else Raise OutsideModel.

(** [scipy.fftpack.next_fast_len]: targets up to 6 are returned as they are,
    otherwise the smallest integer not below the target whose only prime
    factors are 2, 3 and 5. *)
Fixpoint strip (fuel p n : nat) : nat :=
  match fuel with
  | O => n
  | S fuel' => if (1 <? p) && (0 <? n) && (n mod p =? 0) then strip fuel' p (n / p) else n
  end.

Definition regular (n : nat) : bool := strip n 5 (strip n 3 (strip n 2 n)) =? 1.

Fixpoint next_regular (fuel n : nat) : nat :=
  match fuel with
  | O => n
  | S fuel' => if regular n then n else next_regular fuel' (S n)
  end.

Definition next_fast_len (target : Z) : Z :=
  if (target <=? 6)%Z then target
  else Z.of_nat (next_regular (Z.to_nat target) (Z.to_nat target)).

(** ** mnxc *)

(** The local variables of [mnxc] when it returns, and the overlap count as
    it is between lines 111 and 133, on the padded grid: the value lines 116,
    120 and 125 divide by. *)
Record locals : Type := Locals
  { number_overlap_padded : ndarray Q;
    number_overlap_masked_px : ndarray Q;
    denom : ndarray Q;
    numerator : ndarray Q;
    out : ndarray Q }.

Definition mnxc_body (arr1 arr2 : ndarray Q) (m1 m2 : ndarray bool)
  (mode : string) (axes : list Z) (overlap_ratio : Q) : result locals :=
  if negb (existsb (String.eqb mode) ["full"; "same"]%string)
  then Raise ValueError_mode else
  let fixed_image := arr1 in
  let fixed_mask := m1 in
  let moving_image := arr2 in
  let moving_mask := m2 in
  (* Array dimensions along non-transformation axes should be equal. *)
  let all_axes := seq 0 (ndim fixed_image) in
  do _ <- foldM (fun (_ : unit) axis =>
                do a <- py_getitem (shape fixed_image) (Z.of_nat axis) ;;
                do b <- py_getitem (shape moving_image) (Z.of_nat axis) ;;
                if negb (a =? b) then Raise ValueError_shape else Ok tt)
             (filter (fun ax => negb (existsb (Z.eqb (Z.of_nat ax)) axes)) all_axes) tt ;;
  (* Determine final size along transformation axes *)
  do final_shape <-
    foldM (fun final_shape axis =>
             do a <- py_getitem (shape fixed_image) axis ;;
             do b <- py_getitem (shape moving_image) axis ;;
             py_setitem final_shape axis (Z.of_nat a + Z.of_nat b - 1)%Z)
          axes (map Z.of_nat (shape arr1)) ;;
  let final_slice := map (fun sz => Slice (Some 0%Z) (Some sz) None) final_shape in
  do fast_shape <- mapM (fun ax => do sz <- py_getitem final_shape ax ;; Ok (next_fast_len sz)) axes ;;
  let fft := fftn fast_shape axes in
  let ifft := ifftn fast_shape axes in
  do fixed_image <- setitem_mask fixed_image (logical_not fixed_mask) 0%Q ;;
  do moving_image <- setitem_mask moving_image (logical_not moving_mask) 0%Q ;;
  do rotated_moving_image <- _flip moving_image (Some axes) ;;
  do rotated_moving_mask <- _flip moving_mask (Some axes) ;;
  do fixed_fft <- fft fixed_image ;;
  do rotated_moving_fft <- fft rotated_moving_image ;;
  do fixed_mask_fft <- fft (astype_float fixed_mask) ;;
  do rotated_moving_mask_fft <- fft (astype_float rotated_moving_mask) ;;
  (* Calculate overlap of masks at every point in the convolution *)
  do number_overlap_masked_px <- ifft (spec_mul rotated_moving_mask_fft fixed_mask_fft) ;;
  let number_overlap_masked_px := np_real number_overlap_masked_px in
  let number_overlap_masked_px := nd_map Qrint number_overlap_masked_px in
  let number_overlap_masked_px := nd_map (fun x => fmax x eps) number_overlap_masked_px in
  do masked_correlated_fixed_fft <- ifft (spec_mul rotated_moving_mask_fft fixed_fft) ;;
  do masked_correlated_rotated_moving_fft <- ifft (spec_mul fixed_mask_fft rotated_moving_fft) ;;
  do numerator <- ifft (spec_mul rotated_moving_fft fixed_fft) ;;
  let numerator :=
    nd_zip Qminus numerator
      (nd_zip Qdiv (nd_zip Qmult masked_correlated_fixed_fft masked_correlated_rotated_moving_fft)
         number_overlap_masked_px) in
  do fixed_squared_fft <- fft (nd_map (fun x => x * x)%Q fixed_image) ;;
  do fixed_denom <- ifft (spec_mul rotated_moving_mask_fft fixed_squared_fft) ;;
  let fixed_denom :=
    nd_zip Qminus fixed_denom
      (nd_zip Qdiv (nd_map (fun x => x * x)%Q masked_correlated_fixed_fft)
         number_overlap_masked_px) in
  let fixed_denom := nd_map (fun x => fmax x 0%Q) fixed_denom in
  do rotated_moving_squared_fft <- fft (nd_map (fun x => x * x)%Q rotated_moving_image) ;;
  do moving_denom <- ifft (spec_mul fixed_mask_fft rotated_moving_squared_fft) ;;
  let moving_denom :=
    nd_zip Qminus moving_denom
      (nd_zip Qdiv (nd_map (fun x => x * x)%Q masked_correlated_rotated_moving_fft)
         number_overlap_masked_px) in
  let moving_denom := nd_map (fun x => fmax x 0%Q) moving_denom in
  let denom := nd_map Qsqrt (nd_zip Qmult fixed_denom moving_denom) in
  let number_overlap_padded := number_overlap_masked_px in
  (* Slice back to expected convolution shape *)
  do numerator <- getitem numerator final_slice ;;
  do denom <- getitem denom final_slice ;;
  do number_overlap_masked_px <- getitem number_overlap_masked_px final_slice ;;
  do cropped <-
    (if String.eqb mode "same" then
       do denom <- _centered denom (shape fixed_image) axes ;;
       do numerator <- _centered numerator (shape fixed_image) axes ;;
       do number_overlap_masked_px <- _centered number_overlap_masked_px (shape fixed_image) axes ;;
       Ok (denom, numerator, number_overlap_masked_px)
     else Ok (denom, numerator, number_overlap_masked_px)) ;;
  let '(denom, numerator, number_overlap_masked_px) := cropped in
  (* Pixels where `denom` is very small will introduce large numbers after division *)
  do max_denom <- amax_keepdims (nd_map Qabs denom) axes ;;
  let tol := nd_map (fun x => (1000 * eps * x)%Q) max_denom in
  let nonzero_indices := nd_zip (fun d t => Qltb t d) denom tol in
  let out := zeros_like denom in
  do out <- setitem_mask_from out nonzero_indices (nd_zip Qdiv numerator denom) ;;
  let out := nd_map (clip1 (-1) 1) out in
  (* Apply overlap ratio threshold *)
  do max_overlap <- amax_keepdims number_overlap_masked_px axes ;;
  let number_px_threshold := nd_map (fun x => (overlap_ratio * x)%Q) max_overlap in
  do out <- setitem_mask out (nd_zip Qltb number_overlap_masked_px number_px_threshold) 0%Q ;;
  Ok (Locals number_overlap_padded number_overlap_masked_px denom numerator out).

(** [mnxc(arr1, arr2, m1, m2, mode, axes, overlap_ratio)]; the defaults are
    [default_mode], [default_axes] and [default_overlap_ratio]. *)
Definition mnxc (arr1 arr2 : ndarray Q) (m1 m2 : ndarray bool)
  (mode : string) (axes : list Z) (overlap_ratio : Q) : result (ndarray Q) :=
  do l <- mnxc_body arr1 arr2 m1 m2 mode axes overlap_ratio ;; Ok (out l).

(** ** mnxc with numpy's dtypes

    [np.fft.ifftn] returns complex128, and of its results only the overlap
    count goes through [np.real] (line 109): [numerator], [denom] and [out]
    are complex128 arrays.  The inverse transform of a product of spectra of
    real arrays has a zero imaginary part in exact arithmetic; the operations
    that follow are numpy's operations on complex numbers, with the
    lexicographic order numpy gives them.  [mnxc] above is this function with
    every complex array replaced by its real part. *)

Inductive dtype : Type := float64 | complex128 | bool_.

Definition complex : Type := (Q * Q)%type.
Definition creal (z : complex) : Q := fst z.
Definition cimag (z : complex) : Q := snd z.

(** The conversion of a float64 to complex128. *)
Definition of_real (x : Q) : complex := (x, 0%Q).

#[export] Instance Default_complex : Default complex := (0%Q, 0%Q).

(** The dtype of the elements of an array. *)
Class Scalar (T : Type) : Type := dtype_of : dtype.
#[export] Instance Scalar_Q : Scalar Q := float64.
#[export] Instance Scalar_complex : Scalar complex := complex128.
#[export] Instance Scalar_bool : Scalar bool := bool_.

(** [a.dtype] *)
Definition get_dtype {T} `{Scalar T} (a : ndarray T) : dtype := dtype_of.

Definition Csub (z w : complex) : complex :=
  (creal z - creal w, cimag z - cimag w)%Q.

Definition Cmul (z w : complex) : complex :=
  (creal z * creal w - cimag z * cimag w, creal z * cimag w + cimag z * creal w)%Q.

Definition Cdiv (z w : complex) : complex :=
  let d := (creal w * creal w + cimag w * cimag w)%Q in
  ((creal z * creal w + cimag z * cimag w) / d,
   (cimag z * creal w - creal z * cimag w) / d)%Q.

(** numpy's order on complex numbers: by the real part, then by the
    imaginary part. *)
Definition Cltb (z w : complex) : bool :=
  Qltb (creal z) (creal w) || (Qeq_bool (creal z) (creal w) && Qltb (cimag z) (cimag w)).

(** [np.fmax] on complex numbers *)
Definition Cfmax (z w : complex) : complex := if Cltb z w then w else z.

(** [hypot]: exact when one argument is 0 *)
Definition Qhypot (x y : Q) : Q :=
  if Qeq_bool y 0 then Qabs x
  else if Qeq_bool x 0 then Qabs y
  else Qsqrt (x * x + y * y).

(** [np.abs] of a complex number *)
Definition Cabs (z : complex) : Q := Qhypot (creal z) (cimag z).

(** [np.sqrt] of a complex number: the principal root. *)
Definition Csqrt (z : complex) : complex :=
  let a := creal z in
  let b := cimag z in
  if Qeq_bool a 0 && Qeq_bool b 0 then (0%Q, b)
  else if Qle_bool 0 a then
    let t := Qsqrt ((a + Qhypot a b) * (1 # 2)) in
    (t, b / (2 * t))%Q
  else
    let t := Qsqrt ((- a + Qhypot a b) * (1 # 2)) in
    (Qabs b / (2 * t), if Qltb b 0 then - t else t)%Q.

(** [np.clip] of one complex value *)
Definition Cclip (a_min a_max z : complex) : complex :=
  let y := if Cltb z a_min then a_min else z in
  if Cltb a_max y then a_max else y.

Record complex_locals : Type := ComplexLocals
  { c_number_overlap_padded : ndarray Q;
    c_number_overlap_masked_px : ndarray Q;
    c_denom : ndarray complex;
    c_numerator : ndarray complex;
    c_out : ndarray complex }.

(** [np.fft.ifftn(x, s, axes)] as numpy returns it *)
Definition ifftn_complex (s : list Z) (axes : list Z) (x : spectrum) : result (ndarray complex) :=
  do a <- ifftn s axes x ;; Ok (nd_map of_real a).

Definition mnxc_complex_body (arr1 arr2 : ndarray Q) (m1 m2 : ndarray bool)
  (mode : string) (axes : list Z) (overlap_ratio : Q) : result complex_locals :=
  if negb (existsb (String.eqb mode) ["full"; "same"]%string)
  then Raise ValueError_mode else
  let fixed_image := arr1 in
  let fixed_mask := m1 in
  let moving_image := arr2 in
  let moving_mask := m2 in
  (* Array dimensions along non-transformation axes should be equal. *)
  let all_axes := seq 0 (ndim fixed_image) in
  do _ <- foldM (fun (_ : unit) axis =>
                do a <- py_getitem (shape fixed_image) (Z.of_nat axis) ;;
                do b <- py_getitem (shape moving_image) (Z.of_nat axis) ;;
                if negb (a =? b) then Raise ValueError_shape else Ok tt)
             (filter (fun ax => negb (existsb (Z.eqb (Z.of_nat ax)) axes)) all_axes) tt ;;
  (* Determine final size along transformation axes *)
  do final_shape <-
    foldM (fun final_shape axis =>
             do a <- py_getitem (shape fixed_image) axis ;;
             do b <- py_getitem (shape moving_image) axis ;;
             py_setitem final_shape axis (Z.of_nat a + Z.of_nat b - 1)%Z)
          axes (map Z.of_nat (shape arr1)) ;;
  let final_slice := map (fun sz => Slice (Some 0%Z) (Some sz) None) final_shape in
  do fast_shape <- mapM (fun ax => do sz <- py_getitem final_shape ax ;; Ok (next_fast_len sz)) axes ;;
  let fft := fftn fast_shape axes in
  let ifft := ifftn_complex fast_shape axes in
  do fixed_image <- setitem_mask fixed_image (logical_not fixed_mask) 0%Q ;;
  do moving_image <- setitem_mask moving_image (logical_not moving_mask) 0%Q ;;
  do rotated_moving_image <- _flip moving_image (Some axes) ;;
  do rotated_moving_mask <- _flip moving_mask (Some axes) ;;
  do fixed_fft <- fft fixed_image ;;
  do rotated_moving_fft <- fft rotated_moving_image ;;
  do fixed_mask_fft <- fft (astype_float fixed_mask) ;;
  do rotated_moving_mask_fft <- fft (astype_float rotated_moving_mask) ;;
  (* Calculate overlap of masks at every point in the convolution *)
  do number_overlap_masked_px <- ifft (spec_mul rotated_moving_mask_fft fixed_mask_fft) ;;
  let number_overlap_masked_px := nd_map creal number_overlap_masked_px in
  let number_overlap_masked_px := nd_map Qrint number_overlap_masked_px in
  let number_overlap_masked_px := nd_map (fun x => fmax x eps) number_overlap_masked_px in
  do masked_correlated_fixed_fft <- ifft (spec_mul rotated_moving_mask_fft fixed_fft) ;;
  do masked_correlated_rotated_moving_fft <- ifft (spec_mul fixed_mask_fft rotated_moving_fft) ;;
  do numerator <- ifft (spec_mul rotated_moving_fft fixed_fft) ;;
  let numerator :=
    nd_zip Csub numerator
      (nd_zip (fun z n => Cdiv z (of_real n))
         (nd_zip Cmul masked_correlated_fixed_fft masked_correlated_rotated_moving_fft)
         number_overlap_masked_px) in
  do fixed_squared_fft <- fft (nd_map (fun x => x * x)%Q fixed_image) ;;
  do fixed_denom <- ifft (spec_mul rotated_moving_mask_fft fixed_squared_fft) ;;
  let fixed_denom :=
    nd_zip Csub fixed_denom
      (nd_zip (fun z n => Cdiv z (of_real n))
         (nd_map (fun z => Cmul z z) masked_correlated_fixed_fft)
         number_overlap_masked_px) in
  let fixed_denom := nd_map (fun z => Cfmax z (of_real 0)) fixed_denom in
  do rotated_moving_squared_fft <- fft (nd_map (fun x => x * x)%Q rotated_moving_image) ;;
  do moving_denom <- ifft (spec_mul fixed_mask_fft rotated_moving_squared_fft) ;;
  let moving_denom :=
    nd_zip Csub moving_denom
      (nd_zip (fun z n => Cdiv z (of_real n))
         (nd_map (fun z => Cmul z z) masked_correlated_rotated_moving_fft)
         number_overlap_masked_px) in
  let moving_denom := nd_map (fun z => Cfmax z (of_real 0)) moving_denom in
  let denom := nd_map Csqrt (nd_zip Cmul fixed_denom moving_denom) in
  let number_overlap_padded := number_overlap_masked_px in
  (* Slice back to expected convolution shape *)
  do numerator <- getitem numerator final_slice ;;
  do denom <- getitem denom final_slice ;;
  do number_overlap_masked_px <- getitem number_overlap_masked_px final_slice ;;
  do cropped <-
    (if String.eqb mode "same" then
       do denom <- _centered denom (shape fixed_image) axes ;;
       do numerator <- _centered numerator (shape fixed_image) axes ;;
       do number_overlap_masked_px <- _centered number_overlap_masked_px (shape fixed_image) axes ;;
       Ok (denom, numerator, number_overlap_masked_px)
     else Ok (denom, numerator, number_overlap_masked_px)) ;;
  let '(denom, numerator, number_overlap_masked_px) := cropped in
  (* Pixels where `denom` is very small will introduce large numbers after division *)
  do max_denom <- amax_keepdims (nd_map Cabs denom) axes ;;
  let tol := nd_map (fun x => (1000 * eps * x)%Q) max_denom in
  let nonzero_indices := nd_zip (fun d t => Cltb (of_real t) d) denom tol in
  let out := nd_map (fun _ => of_real 0) denom in
  do out <- setitem_mask_from out nonzero_indices (nd_zip Cdiv numerator denom) ;;
  let out := nd_map (Cclip (of_real (-1)) (of_real 1)) out in
  (* Apply overlap ratio threshold *)
  do max_overlap <- amax_keepdims number_overlap_masked_px axes ;;
  let number_px_threshold := nd_map (fun x => (overlap_ratio * x)%Q) max_overlap in
  do out <- setitem_mask out (nd_zip Qltb number_overlap_masked_px number_px_threshold)
              (of_real 0) ;;
  Ok (ComplexLocals number_overlap_padded number_overlap_masked_px denom numerator out).

(** [mnxc] as numpy types it: the array returned is complex128. *)
Definition mnxc_complex (arr1 arr2 : ndarray Q) (m1 m2 : ndarray bool)
  (mode : string) (axes : list Z) (overlap_ratio : Q) : result (ndarray complex) :=
  do l <- mnxc_complex_body arr1 arr2 m1 m2 mode axes overlap_ratio ;; Ok (c_out l).

Definition default_mode : string := "full".
Definition default_axes : list Z := [(-2)%Z; (-1)%Z].
Definition default_overlap_ratio : Q := 3 # 10.


(** ** Vocabulary of the statements *)

Definition mem (k : nat) (ks : list nat) : bool := existsb (Nat.eqb k) ks.

Definition tab {A} (n : nat) (f : nat -> A) : list A := map f (seq 0 n).

Definition in_bounds (sh idx : list nat) : Prop := in_boundsb sh idx = true.

(** [ks] are the axes [axes] of an array of rank [nd], counted from 0. *)
Definition axes_of (nd : nat) (axes : list Z) (ks : list nat) : Prop :=
  mapM (norm_index nd) axes = Ok ks.

(** The list obtained from [init] by the assignments [l[k] = h k], [k] in [ks]. *)
Definition set_axes {A} (h : nat -> A) (ks : list nat) (init : list A) : list A :=
  fold_left (fun l k => list_set l k (h k)) ks init.

(** The axes [_flip] reverses: all of them when [axes] is [None]. *)
Definition flipped_axes (nd : nat) (axes : option (list Z)) (ks : list nat) : Prop :=
  match axes with
  | None => ks = seq 0 nd
  | Some axes => axes_of nd axes ks
  end.

(** The source index of the element that [_flip] puts at [idx]. *)
Definition flip_index (ks sh idx : list nat) : list nat :=
  tab (length sh) (fun k => if mem k ks then nth k sh 0 - 1 - nth k idx 0 else nth k idx 0).

(** The source index of the element that [_centered] puts at [idx]. *)
Definition center_index (ks cur new idx : list nat) : list nat :=
  tab (length cur)
    (fun k => if mem k ks then nth k idx 0 + (nth k cur 0 - nth k new 0) / 2 else nth k idx 0).

(** The number of elements [_centered] leaves on an axis of length [c] for a
    target length [n], and the position of the first of them.  A target above
    the current length makes [startind] negative, and the slice then counts
    it from the end of the axis. *)
Definition centered_len (c n : nat) : nat :=
  if n <=? c then n else Nat.min c ((n - c + 1) / 2).

Definition centered_start (c n : nat) : nat :=
  if n <=? c then (c - n) / 2 else c - centered_len c n.

(** A 2x3 array used to exercise the helpers. *)
Definition arr23 : ndarray Q := mk_ndarray [2; 3] [1; 2; 3; 4; 5; 6]%Q.

(** The shape [sh] of rank [nd] after the axes selected by [inset] have been
    resized to the lengths [g]. *)
Definition resized (nd : nat) (g : nat -> Z) (sh : list nat) (inset : nat -> bool) : list nat :=
  tab nd (fun k => if inset k then Z.to_nat (g k) else nth k sh 0).

(** The pair (axis, length) [p] of a transform designates the axis [j]. *)
Definition hits (nd : nat) (j : nat) (p : Z * Z) : bool :=
  match norm_index nd (fst p) with
  | Ok k => k =? j
  | Raise _ => false
  end.

(** ** The values [mnxc] computes on an input it accepts

    [ks] are the transform axes counted from 0.  Each definition is the value
    of the local variable of the same name (without the prefix). *)

Section Run.
Variables (arr1 arr2 : ndarray Q) (m1 m2 : ndarray bool).
Variable mode : string.
Variable overlap_ratio : Q.
Variable ks : list nat.

Definition run_mask : list bool := axis_mask (ndim arr1) ks.

Definition full_len (k : nat) : Z :=
  (Z.of_nat (nth k (shape arr1) 0%nat) + Z.of_nat (nth k (shape arr2) 0%nat) - 1)%Z.

Definition fast_len (k : nat) : Z := next_fast_len (full_len k).

Definition run_final_shape : list nat :=
  tab (ndim arr1) (fun k => if mem k ks then Z.to_nat (full_len k) else nth k (shape arr1) 0).

Definition run_fast_shape : list nat :=
  resized (ndim arr1) fast_len (shape arr1) (fun k => mem k ks).

Definition run_fft (a : ndarray Q) : spectrum :=
  Spectrum run_mask (build run_fast_shape (item a)).

Definition zero_unmasked (a : ndarray Q) (mask : ndarray bool) : ndarray Q :=
  nd_zip (fun x (b : bool) => if b then 0%Q else x) a (logical_not mask).

Definition rotate {T} `{Default T} (a : ndarray T) : ndarray T :=
  build (shape a) (fun idx => item a (flip_index ks (shape a) idx)).

Definition square (a : ndarray Q) : ndarray Q := nd_map (fun x => x * x)%Q a.

Definition run_fixed_image : ndarray Q := zero_unmasked arr1 m1.
Definition run_moving_image : ndarray Q := zero_unmasked arr2 m2.
Definition run_rotated_moving_image : ndarray Q := rotate run_moving_image.
Definition run_rotated_moving_mask : ndarray bool := rotate m2.
Definition run_fixed_fft : spectrum := run_fft run_fixed_image.
Definition run_rotated_moving_fft : spectrum := run_fft run_rotated_moving_image.
Definition run_fixed_mask_fft : spectrum := run_fft (astype_float m1).
Definition run_rotated_moving_mask_fft : spectrum :=
  run_fft (astype_float run_rotated_moving_mask).

(** The overlap count on the padded grid (lines 109 to 111). *)
Definition run_overlap_padded : ndarray Q :=
  nd_map (fun x => fmax x eps)
    (nd_map Qrint (signal (spec_mul run_rotated_moving_mask_fft run_fixed_mask_fft))).

Definition run_masked_correlated_fixed_fft : ndarray Q :=
  signal (spec_mul run_rotated_moving_mask_fft run_fixed_fft).

Definition run_masked_correlated_rotated_moving_fft : ndarray Q :=
  signal (spec_mul run_fixed_mask_fft run_rotated_moving_fft).

Definition run_numerator_padded : ndarray Q :=
  nd_zip Qminus (signal (spec_mul run_rotated_moving_fft run_fixed_fft))
    (nd_zip Qdiv
       (nd_zip Qmult run_masked_correlated_fixed_fft run_masked_correlated_rotated_moving_fft)
       run_overlap_padded).

Definition run_fixed_denom : ndarray Q :=
  nd_map (fun x => fmax x 0%Q)
    (nd_zip Qminus
       (signal (spec_mul run_rotated_moving_mask_fft (run_fft (square run_fixed_image))))
       (nd_zip Qdiv (square run_masked_correlated_fixed_fft) run_overlap_padded)).

Definition run_moving_denom : ndarray Q :=
  nd_map (fun x => fmax x 0%Q)
    (nd_zip Qminus
       (signal (spec_mul run_fixed_mask_fft (run_fft (square run_rotated_moving_image))))
       (nd_zip Qdiv (square run_masked_correlated_rotated_moving_fft) run_overlap_padded)).

Definition run_denom_padded : ndarray Q :=
  nd_map Qsqrt (nd_zip Qmult run_fixed_denom run_moving_denom).

(** Lines 131 to 138: the crop to [final_shape], then the centring. *)
Definition run_crop (a : ndarray Q) : ndarray Q :=
  let full := build run_final_shape (item a) in
  if String.eqb mode "same"
  then build (shape arr1)
         (fun idx => item full (center_index ks run_final_shape (shape arr1) idx))
  else full.

Definition run_numerator : ndarray Q := run_crop run_numerator_padded.
Definition run_denom : ndarray Q := run_crop run_denom_padded.
Definition run_overlap : ndarray Q := run_crop run_overlap_padded.

(** [np.max(a, axis=axes, keepdims=True)] *)
Definition batch_max (a : ndarray Q) : ndarray Q :=
  build (keep_shape run_mask (shape a))
    (fun idx => Qmax_list (map (fun j => item a (select run_mask j idx))
                               (indices (axes_shape run_mask (shape a))))).

Definition run_tol : ndarray Q :=
  nd_map (fun x => (1000 * eps * x)%Q) (batch_max (nd_map Qabs run_denom)).

Definition run_nonzero_indices : ndarray bool :=
  nd_zip (fun d t => Qltb t d) run_denom run_tol.

Definition run_quotient : ndarray Q :=
  build (shape run_denom)
    (fun idx => if item run_nonzero_indices idx
                then item (nd_zip Qdiv run_numerator run_denom) idx
                else item (zeros_like run_denom) idx).

Definition run_number_px_threshold : ndarray Q :=
  nd_map (fun x => (overlap_ratio * x)%Q) (batch_max run_overlap).

Definition run_out : ndarray Q :=
  nd_zip (fun x (b : bool) => if b then 0%Q else x)
    (nd_map (clip1 (-1) 1) run_quotient)
    (nd_zip Qltb run_overlap run_number_px_threshold).

Definition run_locals : locals :=
  Locals run_overlap_padded run_overlap run_denom run_numerator run_out.
End Run.

(** The complex arrays of a run of [mnxc_complex]. *)
Section ComplexRun.
Variables (arr1 arr2 : ndarray Q) (m1 m2 : ndarray bool).
Variable mode : string.
Variable overlap_ratio : Q.
Variable ks : list nat.

Definition run_ifft (X : spectrum) : ndarray complex := nd_map of_real (signal X).

Definition crun_masked_correlated_fixed_fft : ndarray complex :=
  run_ifft (spec_mul (run_rotated_moving_mask_fft arr1 arr2 m2 ks) (run_fixed_fft arr1 arr2 m1 ks)).

Definition crun_masked_correlated_rotated_moving_fft : ndarray complex :=
  run_ifft (spec_mul (run_fixed_mask_fft arr1 arr2 m1 ks)
              (run_rotated_moving_fft arr1 arr2 m2 ks)).

Definition crun_overlap_padded : ndarray Q :=
  nd_map (fun x => fmax x eps)
    (nd_map Qrint
       (nd_map creal
          (run_ifft (spec_mul (run_rotated_moving_mask_fft arr1 arr2 m2 ks)
                       (run_fixed_mask_fft arr1 arr2 m1 ks))))).

Definition crun_numerator_padded : ndarray complex :=
  nd_zip Csub
    (run_ifft (spec_mul (run_rotated_moving_fft arr1 arr2 m2 ks) (run_fixed_fft arr1 arr2 m1 ks)))
    (nd_zip (fun z n => Cdiv z (of_real n))
       (nd_zip Cmul crun_masked_correlated_fixed_fft crun_masked_correlated_rotated_moving_fft)
       crun_overlap_padded).

Definition crun_fixed_denom : ndarray complex :=
  nd_map (fun z => Cfmax z (of_real 0))
    (nd_zip Csub
       (run_ifft (spec_mul (run_rotated_moving_mask_fft arr1 arr2 m2 ks)
                    (run_fft arr1 arr2 ks (square (run_fixed_image arr1 m1)))))
       (nd_zip (fun z n => Cdiv z (of_real n))
          (nd_map (fun z => Cmul z z) crun_masked_correlated_fixed_fft)
          crun_overlap_padded)).

Definition crun_moving_denom : ndarray complex :=
  nd_map (fun z => Cfmax z (of_real 0))
    (nd_zip Csub
       (run_ifft (spec_mul (run_fixed_mask_fft arr1 arr2 m1 ks)
                    (run_fft arr1 arr2 ks (square (run_rotated_moving_image arr2 m2 ks)))))
       (nd_zip (fun z n => Cdiv z (of_real n))
          (nd_map (fun z => Cmul z z) crun_masked_correlated_rotated_moving_fft)
          crun_overlap_padded)).

Definition crun_denom_padded : ndarray complex :=
  nd_map Csqrt (nd_zip Cmul crun_fixed_denom crun_moving_denom).

(** Lines 131 to 138 on an array of any dtype. *)
Definition crun_crop {T} `{Default T} (a : ndarray T) : ndarray T :=
  let full := build (run_final_shape arr1 arr2 ks) (item a) in
  if String.eqb mode "same"
  then build (shape arr1)
         (fun idx => item full
                       (center_index ks (run_final_shape arr1 arr2 ks) (shape arr1) idx))
  else full.

Definition crun_numerator : ndarray complex := crun_crop crun_numerator_padded.
Definition crun_denom : ndarray complex := crun_crop crun_denom_padded.
Definition crun_overlap : ndarray Q := crun_crop crun_overlap_padded.

Definition crun_tol : ndarray Q :=
  nd_map (fun x => (1000 * eps * x)%Q) (batch_max arr1 ks (nd_map Cabs crun_denom)).

Definition crun_nonzero_indices : ndarray bool :=
  nd_zip (fun d t => Cltb (of_real t) d) crun_denom crun_tol.

Definition crun_quotient : ndarray complex :=
  build (shape crun_denom)
    (fun idx => if item crun_nonzero_indices idx
                then item (nd_zip Cdiv crun_numerator crun_denom) idx
                else item (nd_map (fun _ => of_real 0) crun_denom) idx).

Definition crun_out : ndarray complex :=
  nd_zip (fun z (b : bool) => if b then of_real 0 else z)
    (nd_map (Cclip (of_real (-1)) (of_real 1)) crun_quotient)
    (nd_zip Qltb crun_overlap
       (nd_map (fun x => (overlap_ratio * x)%Q) (batch_max arr1 ks crun_overlap))).

Definition crun_locals : complex_locals :=
  ComplexLocals crun_overlap_padded crun_overlap crun_denom crun_numerator crun_out.
End ComplexRun.

(** The inputs [mnxc] accepts: well-formed arrays of one rank, masks of the
    shape of their image, a mode among 'full' and 'same', distinct axes in
    range, equal sizes along the axes the check of lines 69 to 73 visits and
    non-empty transform axes. *)
Record valid_input (arr1 arr2 : ndarray Q) (m1 m2 : ndarray bool)
  (mode : string) (axes : list Z) (ks : list nat) : Prop := Valid
  { v_wf1 : wf arr1;
    v_wf2 : wf arr2;
    v_wfm1 : wf m1;
    v_wfm2 : wf m2;
    v_rank : ndim arr2 = ndim arr1;
    v_mask1 : shape m1 = shape arr1;
    v_mask2 : shape m2 = shape arr2;
    v_mode : mode = "full"%string \/ mode = "same"%string;
    v_axes : axes_of (ndim arr1) axes ks;
    v_nodup : NoDup ks;
    v_off : forall k, k < ndim arr1 -> ~ In (Z.of_nat k) axes ->
            nth k (shape arr1) 0 = nth k (shape arr2) 0;
    v_pos : forall k, In k ks -> 1 <= nth k (shape arr1) 0 /\ 1 <= nth k (shape arr2) 0 }.

(** [idx'] lies in the batch of [idx]: the two indices differ on the
    transform axes only. *)
Definition agree_off (nd : nat) (ks idx idx' : list nat) : Prop :=
  forall k, k < nd -> mem k ks = false -> nth k idx' 0 = nth k idx 0.

(** [M] is the maximum of [a] over the batch of [idx]. *)
Definition is_batch_max (a : ndarray Q) (ks idx : list nat) (M : Q) : Prop :=
  (exists idx', in_bounds (shape a) idx' /\ agree_off (ndim a) ks idx idx' /\ (item a idx' == M)%Q) /\
  (forall idx', in_bounds (shape a) idx' -> agree_off (ndim a) ks idx idx' -> (item a idx' <= M)%Q).

(** The shape of the arrays after lines 131 to 138. *)
Definition run_out_shape (arr1 arr2 : ndarray Q) (mode : string) (ks : list nat) : list nat :=
  if String.eqb mode "same" then shape arr1 else run_final_shape arr1 arr2 ks.

(** The maximum of [a] over the batch of [idx], as line 151 computes it. *)
Definition batch_max_at (nd : nat) (ks : list nat) (a : ndarray Q) (idx : list nat) : Q :=
  Qmax_list (map (fun j => item a (select (axis_mask nd ks) j idx))
                 (indices (axes_shape (axis_mask nd ks) (shape a)))).

(** Two complex numbers with equal parts. *)
Definition ceq (z w : complex) : Prop :=
  (creal z == creal w)%Q /\ (cimag z == cimag w)%Q.

(** The complex array [c] is the real array [r]: the same shape, the same
    positions filled, imaginary parts 0 and real parts equal. *)
Definition lifts (c : ndarray complex) (r : ndarray Q) : Prop :=
  shape c = shape r /\
  forall idx,
    match get c idx, get r idx with
    | Some z, Some x => ceq z (of_real x)
    | None, None => True
    | _, _ => False
    end.

(** ** Example inputs *)

(** The 4x4 image with every sample equal to 10, and its all-true mask. *)
Definition const44 : ndarray Q := mk_ndarray [4; 4] (repeat 10%Q 16).
Definition mask44 : ndarray bool := mk_ndarray [4; 4] (repeat true 16).

(** A 3x3 image and its all-true mask. *)
Definition img33 : ndarray Q := mk_ndarray [3; 3] [1; 2; 3; 4; 5; 6; 7; 8; 10]%Q.
Definition mask33 : ndarray bool := mk_ndarray [3; 3] (repeat true 9).

(** The two masks are disjoint: whatever the offset along the transform axes,
    no position is valid in both, that is, no valid position of the fixed
    mask and valid position of the moving mask lie in one batch. *)
Definition disjoint_masks (m1 m2 : ndarray bool) (ks : list nat) : Prop :=
  forall p q,
    in_bounds (shape m1) p -> in_bounds (shape m2) q ->
    agree_off (ndim m1) ks p q ->
    ~ (item m1 p = true /\ item m2 q = true).

(** [Y] vanishes wherever the mask is false or absent. *)
Definition supported (Y : ndarray Q) (mask : ndarray bool) : Prop :=
  forall q, item mask q = false -> (item Y q == 0)%Q.

(** The 3x3 mask with no valid sample. *)
Definition mask33_none : ndarray bool := mk_ndarray [3; 3] (repeat false 9).

(** The masks of the first row and of the second row of a 2x3 image. *)
Definition rows23_first : ndarray bool :=
  mk_ndarray [2; 3] [true; true; true; false; false; false].
Definition rows23_second : ndarray bool :=
  mk_ndarray [2; 3] [false; false; false; true; true; true].

(** Two signals of 8 samples: the fixed one is valid on its last four
    samples, the moving one on its first four. *)
Definition seq8 : ndarray Q := mk_ndarray [8] [0; 0; 0; 0; 1; 2; 3; 5]%Q.
Definition tail8 : ndarray bool :=
  mk_ndarray [8] [false; false; false; false; true; true; true; true].
Definition ramp8 : ndarray Q := mk_ndarray [8] [4; 1; 2; 3; 0; 0; 0; 0]%Q.
Definition head8 : ndarray bool :=
  mk_ndarray [8] [true; true; true; true; false; false; false; false].


(** * skimage/_shared/_warnings.py

    [expected_warnings(matching)] is a context manager: the statements before
    its [yield] run when the context is entered, the check that follows the
    [yield] runs when the body of the [with] statement has returned.  The
    warnings recorded meanwhile are represented by the list [w] of their
    messages, [str(warn.message)], in the order they were raised. *)

Inductive warn_exn : Type :=
| ValueError_matching_str                  (* line 109 *)
| ValueError_int                           (* [int] refuses the variable, line 118 *)
| ReError                                  (* [re.search] refuses a pattern *)
| ValueError_unexpected (msg : string)     (* line 136 *)
| ValueError_no_warning (remaining : list string).  (* line 139 *)

(** A call returns a value or raises one of the exceptions [E]. *)
Inductive outcome (E A : Type) : Type :=
| Returns (a : A)
| Raises (e : E).

Arguments Returns {E A} a.
Arguments Raises {E A} e.

Definition wresult : Type -> Type := outcome warn_exn.

(** The argument [matching]: a string, or a list of strings and [None]. *)
Inductive matching_arg : Type :=
| MatchingStr (s : string)
| MatchingList (l : list (option string)).

Section Strings.
Import Ascii.

(** [str.lower] on the ASCII letters, which decide the comparisons with
    ['true'] and ['false']. *)
Definition ascii_lower (c : ascii) : ascii :=
  let n := nat_of_ascii c in
  if (65 <=? n) && (n <=? 90) then ascii_of_nat (n + 32) else c.

Fixpoint lower (s : string) : string :=
  match s with
  | EmptyString => EmptyString
  | String c s' => String (ascii_lower c) (lower s')
  end.

(** [s.split(sep)] for a separator of one character *)
Fixpoint split (sep : ascii) (s : string) : list string :=
  match s with
  | EmptyString => [EmptyString]
  | String c s' =>
      if Ascii.eqb c sep then EmptyString :: split sep s'
      else match split sep s' with
           | [] => [String c EmptyString]
           | piece :: pieces => String c piece :: pieces
           end
  end.

(** [r'\A\Z' not in m.split('|')] is false: the pattern is optional. *)
Definition is_optional (m : string) : bool :=
  existsb (String.eqb "\A\Z") (split "|"%char m).
End Strings.

(** [x in l] and [l.remove(x)] on a list of strings *)
Definition str_in (x : string) (l : list string) : bool := existsb (String.eqb x) l.

Fixpoint str_remove (x : string) (l : list string) : list string :=
  match l with
  | [] => []
  | y :: l' => if String.eqb y x then l' else y :: str_remove x l'
  end.

Definition is_None {A} (o : option A) : bool :=
  match o with None => true | Some _ => false end.

(** [matching.remove(None)] *)
Fixpoint remove_None {A} (l : list (option A)) : list (option A) :=
  match l with
  | [] => []
  | None :: l' => l'
  | Some x :: l' => Some x :: remove_None l'
  end.

(** [while None in matching: matching.remove(None)], at most [fuel] times *)
Fixpoint remove_Nones {A} (fuel : nat) (matching : list (option A)) : list (option A) :=
  match fuel with
  | O => matching
  | S fuel' =>
      if existsb is_None matching then remove_Nones fuel' (remove_None matching)
      else matching
  end.

(** The strings of a list that holds no [None] any more. *)
Definition strings (matching : list (option string)) : list string :=
  flat_map (fun o => match o with Some m => [m] | None => [] end) matching.

Section ExpectedWarnings.
(** [re.search(match, text) is not None], or [None] when the pattern does not
    compile. *)
Variable re_search : string -> string -> option bool.
(** [int(s)], or [None] when it raises ValueError. *)
Variable py_int : string -> option Z.

(** Lines 112 to 118; [environ] is the value of SKIMAGE_TEST_STRICT_WARNINGS
    when it is set. *)
Definition strict_flag (environ : option string) : wresult bool :=
  let strict_warnings := match environ with Some v => v | None => "1"%string end in
  if String.eqb (lower strict_warnings) "true" then Returns true
  else if String.eqb (lower strict_warnings) "false" then Returns false
  else match py_int strict_warnings with
       | Some n => Returns (negb (n =? 0)%Z)
       | None => Raises ValueError_int
       end.

(** [re.search(m, msg) is not None] *)
Definition matches (m msg : string) : bool :=
  match re_search m msg with Some true => true | _ => false end.

(** Lines 129 to 134: the loop over [matching] for one warning. *)
Fixpoint scan_matching (msg : string) (matching : list string) (found : bool)
  (remaining : list string) : wresult (bool * list string) :=
  match matching with
  | [] => Returns (found, remaining)
  | m :: matching' =>
      match re_search m msg with
      | None => Raises ReError
      | Some true =>
          scan_matching msg matching' true
            (if str_in m remaining then str_remove m remaining else remaining)
      | Some false => scan_matching msg matching' found remaining
      end
  end.

(** Lines 128 to 136: the loop over the recorded warnings. *)
Fixpoint scan_warnings (strict_warnings : bool) (matching : list string) (w : list string)
  (remaining : list string) : wresult (list string) :=
  match w with
  | [] => Returns remaining
  | msg :: w' =>
      match scan_matching msg matching false remaining with
      | Raises e => Raises e
      | Returns (found, remaining') =>
          if strict_warnings && negb found then Raises (ValueError_unexpected msg)
          else scan_warnings strict_warnings matching w' remaining'
      end
  end.

(** Lines 125 to 139, the check made when the context exits: the content of
    the caller's list [matching] afterwards, and the outcome. *)
Definition exit_check (strict_warnings : bool) (matching : list (option string))
  (w : list string) : list (option string) * wresult unit :=
  let matching := remove_Nones (length matching) matching in
  let patterns := strings matching in
  let remaining := filter (fun m => negb (is_optional m)) patterns in
  (matching,
   match scan_warnings strict_warnings patterns w remaining with
   | Raises e => Raises e
   | Returns remaining =>
       if strict_warnings && (0 <? length remaining) then Raises (ValueError_no_warning remaining)
       else Returns tt
   end).

(** [with expected_warnings(matching): body], for a body that returns after
    the warnings [w] were recorded. *)
Definition expected_warnings (environ : option string) (matching : matching_arg)
  (w : list string) : wresult unit :=
  match matching with
  | MatchingStr _ => Raises ValueError_matching_str
  | MatchingList l =>
      match strict_flag environ with
      | Raises e => Raises e
      | Returns strict_warnings => snd (exit_check strict_warnings l w)
      end
  end.
End ExpectedWarnings.

(** A pattern without metacharacters is found where it occurs as a substring:
    [re.search] on such patterns. *)
Definition literal_search (pattern text : string) : option bool :=
  Some (match String.index 0 pattern text with Some _ => true | None => false end).

(** [int] on the non-empty strings of ASCII digits. *)
Fixpoint digits_value (acc : Z) (s : string) : option Z :=
  match s with
  | EmptyString => Some acc
  | String c s' =>
      let n := Ascii.nat_of_ascii c in
      if (48 <=? n) && (n <=? 57) then digits_value (10 * acc + Z.of_nat (n - 48)) s'
      else None
  end.

Definition int_digits (s : string) : option Z :=
  match s with
  | EmptyString => None
  | _ => digits_value 0 s
  end.

(** * skimage/future/manual_segmentation.py

    The two functions open a window, let the user draw while
    [plt.show(block=True)] runs the event loop, and compute the labels once
    the window is closed.  The callbacks share the lists of the enclosing
    call; they are functions on the record [session] of these lists, and the
    event loop applies them to the events in the order they occur.  Of the
    image only the shape matters.  An artist on the axes is represented by a
    number, the axes by the artists they show. *)

Inductive seg_exn : Type :=
| ValueError_ndim     (* 'Only 2D grayscale or RGB images are supported.' *)
| IndexError_pop      (* pop from an empty list *)
| ValueError_artist   (* [remove] on an artist that the axes do not show *)
| IndexError_mask     (* [mask[rr, cc] = label] with a pixel outside the mask *)
| ValueError_stack.   (* [np.stack] of no array, or of arrays of several shapes *)

Definition obind {E A B} (c : outcome E A) (f : A -> outcome E B) : outcome E B :=
  match c with
  | Returns a => f a
  | Raises e => Raises e
  end.

Notation "'run' x <- c1 ;; c2" := (obind c1 (fun x => c2))
  (at level 10, x name, c1 at level 100, c2 at level 200).

Fixpoint ofoldM {E A B} (f : B -> A -> outcome E B) (l : list A) (b : B) : outcome E B :=
  match l with
  | [] => Returns b
  | x :: l' => run b' <- f b x ;; ofoldM f l' b'
  end.

Fixpoint omapM {E A B} (f : A -> outcome E B) (l : list A) : outcome E (list B) :=
  match l with
  | [] => Returns []
  | x :: l' => run y <- f x ;; run ys <- omapM f l' ;; Returns (y :: ys)
  end.

#[export] Instance Default_Z : Default Z := 0%Z.

Definition LEFT_CLICK : nat := 1.
Definition RIGHT_CLICK : nat := 3.

(** A vertex [[x, y]] in data coordinates. *)
Definition vertex : Type := (Q * Q)%type.

(** [l.pop()]: the list that is left and the element that was last. *)
Definition list_pop {A} (l : list A) : outcome seg_exn (list A * A) :=
  match rev l with
  | [] => Raises IndexError_pop
  | x :: r => Returns (rev r, x)
  end.

(** The axes: the artists they show, and the number of the next artist. *)
Record mpl_axes : Type := mk_axes { artists : list nat; next_artist : nat }.

(** [artist.remove()] *)
Definition artist_remove (ax : mpl_axes) (artist : nat) : outcome seg_exn mpl_axes :=
  if existsb (Nat.eqb artist) (artists ax)
  then Returns (mk_axes (filter (fun a => negb (a =? artist)) (artists ax)) (next_artist ax))
  else Raises ValueError_artist.

(** [_draw_polygon(ax, vertices, alpha)]: the axes afterwards and the
    collection that was added. *)
Definition _draw_polygon (ax : mpl_axes) : mpl_axes * nat :=
  (mk_axes (artists ax ++ [next_artist ax]) (S (next_artist ax)), next_artist ax).

Record session : Type := mk_session
  { list_of_vertex_lists : list (list vertex);
    polygons_drawn : list nat;
    temp_list : list vertex;
    preview_polygon_drawn : list nat;
    ax : mpl_axes }.

(** The state before the window is shown: the axes show the image. *)
Definition session_start : session := mk_session [] [] [] [] (mk_axes [] 0).

Inductive axes_id : Type := Image_axes | Undo_pos.

(** A 'button_press_event'; [toolbar_active] is
    [fig.canvas.manager.toolbar._active is not None]. *)
Record mouse_event : Type := mk_mouse_event
  { inaxes : option axes_id;
    toolbar_active : bool;
    button : nat;
    xdata : Q;
    ydata : Q }.

Inductive gui_event : Type :=
| Undo_clicked                                (* the undo button *)
| Button_press (event : mouse_event)          (* a mouse button on the figure *)
| Lasso_selected (vertices : list vertex).    (* the lasso selector has a selection *)

(** Lines 81 to 87 and 188 to 194 *)
Definition _undo (s : session) : outcome seg_exn session :=
  match list_of_vertex_lists s with
  | [] => Returns s
  | _ :: _ =>
      run popped <- list_pop (list_of_vertex_lists s) ;;
      run drawn <- list_pop (polygons_drawn s) ;;
      let last_poly := snd drawn in
      run ax' <- artist_remove (ax s) last_poly ;;
      Returns (mk_session (fst popped) (fst drawn) (temp_list s) (preview_polygon_drawn s) ax')
  end.

(** Lines 93 to 128 *)
Definition _extend_polygon (s : session) (event : mouse_event) : outcome seg_exn session :=
  match inaxes event with
  | None => Returns s
  | Some Undo_pos => Returns s
  | Some Image_axes =>
      if toolbar_active event then Returns s
      else if button event =? LEFT_CLICK then
        let temp_list' := temp_list s ++ [(xdata event, ydata event)] in
        run cleared <-
          match preview_polygon_drawn s with
          | [] => Returns ([], ax s)
          | _ :: _ =>
              run popped <- list_pop (preview_polygon_drawn s) ;;
              run ax' <- artist_remove (ax s) (snd popped) ;;
              Returns (fst popped, ax')
          end ;;
        let drawn := _draw_polygon (snd cleared) in
        Returns (mk_session (list_of_vertex_lists s) (polygons_drawn s) temp_list'
                   (fst cleared ++ [snd drawn]) (fst drawn))
      else if button event =? RIGHT_CLICK then
        match temp_list s with
        | [] => Returns s
        | _ :: _ =>
            let vertex_lists := list_of_vertex_lists s ++ [temp_list s] in
            let drawn := _draw_polygon (ax s) in
            let polygons := polygons_drawn s ++ [snd drawn] in
            run popped <- list_pop (preview_polygon_drawn s) ;;
            run ax' <- artist_remove (fst drawn) (snd popped) ;;
            Returns (mk_session vertex_lists polygons [] (fst popped) ax')
        end
      else Returns s
  end.

(** Lines 199 to 205 *)
Definition _on_lasso_selection (s : session) (vertices : list vertex) : outcome seg_exn session :=
  if length vertices <? 3 then Returns s
  else
    let drawn := _draw_polygon (ax s) in
    Returns (mk_session (list_of_vertex_lists s ++ [vertices]) (polygons_drawn s ++ [snd drawn])
               (temp_list s) (preview_polygon_drawn s) (fst drawn)).

(** What holds between two events: a drawn polygon for every confirmed
    vertex list, one preview exactly while vertices are being selected, no
    confirmed vertex list that is empty, and axes that show the confirmed
    polygons and the preview, each once, and nothing else. *)
Record session_ok (s : session) : Prop := mk_session_ok
  { ok_drawn : length (polygons_drawn s) = length (list_of_vertex_lists s);
    ok_preview : length (preview_polygon_drawn s)
                 = match temp_list s with [] => 0 | _ :: _ => 1 end;
    ok_vertices : forall vertices, In vertices (list_of_vertex_lists s) -> vertices <> [];
    ok_shown : forall a, In a (artists (ax s))
                         <-> In a (polygons_drawn s) \/ In a (preview_polygon_drawn s);
    ok_once : NoDup (polygons_drawn s ++ preview_polygon_drawn s);
    ok_fresh : forall a, In a (artists (ax s)) -> a < next_artist (ax s) }.

(** The session after three left clicks on the image, a right click and a
    fourth left click: one confirmed triangle, drawn as artist 3, and one
    vertex being selected, with its preview, artist 4. *)
Definition session_triangle : session :=
  mk_session [[(0, 0); (4, 0); (0, 3)]%Q] [3] [(5, 5)%Q] [4] (mk_axes [3; 4] 5).

(** The callbacks connected by [manual_polygon_segmentation]. *)
Definition polygon_callbacks (s : session) (e : gui_event) : outcome seg_exn session :=
  match e with
  | Undo_clicked => _undo s
  | Button_press event => _extend_polygon s event
  | Lasso_selected _ => Returns s
  end.

(** The callbacks connected by [manual_lasso_segmentation]. *)
Definition lasso_callbacks (s : session) (e : gui_event) : outcome seg_exn session :=
  match e with
  | Undo_clicked => _undo s
  | Button_press _ => Returns s
  | Lasso_selected vertices => _on_lasso_selection s vertices
  end.

(** [mask[rr, cc] = label] for the pixels [(rr[k], cc[k])] *)
Definition setitem_pixels (mask : ndarray Z) (pixels : list (nat * nat)) (label : Z)
  : outcome seg_exn (ndarray Z) :=
  if forallb (fun p => in_boundsb (shape mask) [fst p; snd p]) pixels
  then Returns (build (shape mask)
                  (fun idx => if existsb (fun p => shape_eqb idx [fst p; snd p]) pixels
                              then label else item mask idx))
  else Raises IndexError_mask.

(** [np.stack(arrays)], the generator read as the list of its arrays *)
Definition np_stack (arrays : list (ndarray Z)) : outcome seg_exn (ndarray Z) :=
  match arrays with
  | [] => Raises ValueError_stack
  | a :: _ =>
      if forallb (fun b => shape_eqb (shape b) (shape a)) arrays
      then Returns (mk_ndarray (length arrays :: shape a) (concat (map (@data Z) arrays)))
      else Raises ValueError_stack
  end.

(** [enumerate(l, start)] *)
Fixpoint enumerate {A} (l : list A) (start : nat) : list (nat * A) :=
  match l with
  | [] => []
  | x :: l' => (start, x) :: enumerate l' (S start)
  end.

Section Labels.
(** [polygon(pr, pc, shape)] of skimage.draw: the pixels [(rr[k], cc[k])]
    inside the polygon of vertex rows [pr] and vertex columns [pc]. *)
Variable polygon : list Q -> list Q -> list nat -> list (nat * nat).

(** Lines 14 to 20 *)
Definition _mask_from_vertices (vertices : list vertex) (shape : list nat) (label : Z)
  : outcome seg_exn (ndarray Z) :=
  let mask := build shape (fun _ => 0%Z) in
  let pr := map snd vertices in
  let pc := map fst vertices in
  setitem_pixels mask (polygon pr pc shape) label.

(** Lines 134 to 139 and 211 to 216 *)
Definition labels_of (image_shape : list nat) (return_all : bool)
  (vertex_lists : list (list vertex)) : outcome seg_exn (ndarray Z) :=
  run labels <-
    omapM (fun iv => _mask_from_vertices (snd iv) (firstn 2 image_shape) (Z.of_nat (fst iv)))
      (enumerate vertex_lists 1) ;;
  if return_all then np_stack labels
  else Returns (fold_left (nd_zip Z.max) labels (build (firstn 2 image_shape) (fun _ => 0%Z))).

(** [manual_polygon_segmentation(image, alpha, return_all)] for an image of
    shape [image_shape] and a user who causes [events] before closing the
    window. *)
Definition manual_polygon_segmentation (image_shape : list nat) (return_all : bool)
  (events : list gui_event) : outcome seg_exn (ndarray Z) :=
  if negb (existsb (Nat.eqb (length image_shape)) [2; 3]) then Raises ValueError_ndim
  else
    run s <- ofoldM polygon_callbacks events session_start ;;
    labels_of image_shape return_all (list_of_vertex_lists s).

(** [manual_lasso_segmentation(image, alpha, return_all)] *)
Definition manual_lasso_segmentation (image_shape : list nat) (return_all : bool)
  (events : list gui_event) : outcome seg_exn (ndarray Z) :=
  if negb (existsb (Nat.eqb (length image_shape)) [2; 3]) then Raises ValueError_ndim
  else
    run s <- ofoldM lasso_callbacks events session_start ;;
    labels_of image_shape return_all (list_of_vertex_lists s).
End Labels.

(** A coarse rasteriser of the type of [polygon]: the pixels of the bounding
    box of the vertices, clipped to the shape. *)
Definition bounding_box (pr pc : list Q) (shape : list nat) : list (nat * nat) :=
  filter (fun p =>
            existsb (fun y => Qle_bool y (inject_Z (Z.of_nat (fst p)))) pr
            && existsb (fun y => Qle_bool (inject_Z (Z.of_nat (fst p))) y) pr
            && existsb (fun x => Qle_bool x (inject_Z (Z.of_nat (snd p)))) pc
            && existsb (fun x => Qle_bool (inject_Z (Z.of_nat (snd p))) x) pc)
    (list_prod (seq 0 (nth 0 shape 0)) (seq 0 (nth 1 shape 0))).
(** * Properties *)

Unset Implicit Arguments.

(** ** Multi-indices and the row-major buffer *)

Lemma in_boundsb_length (sh idx : list nat) :
  in_boundsb sh idx = true -> length idx = length sh.
Proof.
  revert idx. induction sh as [|n sh IH]; intros [|i idx]; simpl; try discriminate; auto.
  intros H. apply andb_prop in H as [_ H]. f_equal. auto.
Qed.

Lemma in_boundsb_nth (sh idx : list nat) :
  in_boundsb sh idx = true <->
  length idx = length sh /\ forall k, k < length sh -> nth k idx 0 < nth k sh 0.
Proof.
  revert idx. induction sh as [|n sh IH]; intros [|i idx]; simpl.
  - split; auto. intros _. split; auto. intros k Hk. lia.
  - split; [discriminate|]. intros [H _]. discriminate.
  - split; [discriminate|]. intros [H _]. discriminate.
  - rewrite andb_true_iff, Nat.ltb_lt, IH. split.
    + intros [Hi [Hl Hk]]. split; [congruence|].
      intros [|k] Hlt; [assumption|]. apply Hk. lia.
    + intros [Hl Hk]. split; [apply (Hk 0); lia|]. split; [congruence|].
      intros k Hlt. apply (Hk (S k)). lia.
Qed.

Lemma ravel_lt (sh idx : list nat) :
  in_boundsb sh idx = true -> ravel sh idx < size sh.
Proof.
  revert idx. induction sh as [|n sh IH]; intros [|i idx]; simpl; try discriminate.
  - intros _. lia.
  - intros H. apply andb_prop in H as [Hi H]. apply Nat.ltb_lt in Hi.
    specialize (IH _ H). fold (size sh). nia.
Qed.

Lemma In_indices (sh idx : list nat) :
  In idx (indices sh) <-> in_boundsb sh idx = true.
Proof.
  revert idx. induction sh as [|n sh IH]; intros idx; simpl.
  - destruct idx; split; intros H; auto; try discriminate.
    destruct H as [H|[]]. discriminate.
  - rewrite in_flat_map. split.
    + intros [i [Hi H]]. apply in_map_iff in H as [idx' [<- H]].
      apply in_seq in Hi. apply IH in H. rewrite H.
      assert (Hlt : (i <? n) = true) by (apply Nat.ltb_lt; lia). now rewrite Hlt.
    + destruct idx as [|i idx]; [discriminate|]. intros H.
      apply andb_prop in H as [Hi H]. apply Nat.ltb_lt in Hi.
      exists i. split; [apply in_seq; lia|]. apply in_map. now apply IH.
Qed.

Lemma length_flat_map_const {A B} (f : A -> list B) (c : nat) (l : list A) :
  (forall x, length (f x) = c) -> length (flat_map f l) = length l * c.
Proof.
  intros Hf. induction l as [|x l IH]; simpl; auto.
  rewrite length_app, Hf, IH. reflexivity.
Qed.

Lemma length_indices (sh : list nat) : length (indices sh) = size sh.
Proof.
  induction sh as [|n sh IH]; simpl; auto.
  rewrite (length_flat_map_const _ (size sh)).
  - now rewrite length_seq.
  - intros i. now rewrite length_map.
Qed.

Lemma nth_error_flat_map_const {A B} (f : A -> list B) (c : nat) (l : list A)
  (i r : nat) (d : A) :
  (forall x, length (f x) = c) -> r < c -> i < length l ->
  nth_error (flat_map f l) (i * c + r) = nth_error (f (nth i l d)) r.
Proof.
  intros Hf Hr. revert i. induction l as [|x l IH]; intros i Hi; simpl in *; [lia|].
  destruct i as [|i]; simpl.
  - apply nth_error_app1. now rewrite Hf.
  - rewrite nth_error_app2 by (rewrite Hf; lia).
    rewrite Hf. replace (c + i * c + r - c) with (i * c + r) by lia.
    apply IH. lia.
Qed.

Lemma nth_error_indices (sh idx : list nat) :
  in_boundsb sh idx = true -> nth_error (indices sh) (ravel sh idx) = Some idx.
Proof.
  revert idx. induction sh as [|n sh IH]; intros [|i idx]; simpl; try discriminate; auto.
  intros H. apply andb_prop in H as [Hi H]. apply Nat.ltb_lt in Hi.
  rewrite (nth_error_flat_map_const _ (size sh) _ _ _ 0).
  - rewrite seq_nth by assumption. simpl.
    rewrite nth_error_map, (IH _ H). reflexivity.
  - intros x. now rewrite length_map, length_indices.
  - now apply ravel_lt.
  - now rewrite length_seq.
Qed.

Lemma map_add_seq (k n : nat) : map (Nat.add k) (seq 0 n) = seq k n.
Proof.
  revert k. induction n as [|n IH]; intros k; simpl; auto.
  rewrite Nat.add_0_r. f_equal. rewrite <- seq_shift, map_map.
  rewrite <- (IH (S k)). apply map_ext. intros a. lia.
Qed.

Lemma map_ravel_indices (sh : list nat) :
  map (ravel sh) (indices sh) = seq 0 (size sh).
Proof.
  induction sh as [|n sh IH]; simpl; auto.
  fold (size sh).
  assert (H : forall m s,
             map (ravel (n :: sh)) (flat_map (fun i => map (cons i) (indices sh)) (seq s m))
             = seq (s * size sh) (m * size sh)).
  { induction m as [|m IHm]; intros s; simpl; auto.
    rewrite map_app, IHm, map_map. simpl.
    rewrite seq_app. f_equal.
    - rewrite <- map_add_seq, <- IH, map_map. reflexivity.
    - f_equal. lia. }
  apply (H n 0).
Qed.

(** ** Reading arrays *)

Lemma shape_build {T} (sh : list nat) (f : list nat -> T) : shape (build sh f) = sh.
Proof. reflexivity. Qed.

Lemma wf_build {T} (sh : list nat) (f : list nat -> T) : wf (build sh f).
Proof. unfold wf, build. simpl. now rewrite length_map, length_indices. Qed.

Lemma get_build {T} (sh : list nat) (f : list nat -> T) (idx : list nat) :
  in_boundsb sh idx = true -> get (build sh f) idx = Some (f idx).
Proof.
  intros H. unfold get, build. simpl. rewrite H.
  now rewrite nth_error_map, nth_error_indices.
Qed.

Lemma get_out_of_bounds {T} (a : ndarray T) (idx : list nat) :
  in_boundsb (shape a) idx = false -> get a idx = None.
Proof. intros H. unfold get. now rewrite H. Qed.

Lemma item_build {T} `{Default T} (sh : list nat) (f : list nat -> T) (idx : list nat) :
  in_boundsb sh idx = true -> item (build sh f) idx = f idx.
Proof. intros Hb. unfold item. now rewrite get_build. Qed.

Lemma get_Some_item {T} `{Default T} (a : ndarray T) (idx : list nat) :
  wf a -> in_boundsb (shape a) idx = true -> get a idx = Some (item a idx).
Proof.
  intros Hwf Hb. unfold item. destruct (get a idx) eqn:E; auto.
  unfold get in E. rewrite Hb in E. apply nth_error_None in E.
  apply ravel_lt in Hb. unfold wf in Hwf. lia.
Qed.

Lemma build_ext {T} (sh : list nat) (f g : list nat -> T) :
  (forall idx, in_boundsb sh idx = true -> f idx = g idx) -> build sh f = build sh g.
Proof.
  intros H. unfold build. f_equal. apply map_ext_in.
  intros idx Hin. apply H. now apply In_indices.
Qed.

(** A well-formed array is the table of its items. *)
Lemma build_item {T} `{Default T} (a : ndarray T) :
  wf a -> build (shape a) (item a) = a.
Proof.
  intros Hwf. destruct a as [sh dat]. unfold wf in Hwf. simpl in Hwf.
  unfold build. simpl. f_equal.
  transitivity (map (fun i => nth i dat default) (map (ravel sh) (indices sh))).
  - rewrite map_map. apply map_ext_in. intros idx Hin. apply In_indices in Hin.
    unfold item, get. simpl. rewrite Hin.
    destruct (nth_error dat (ravel sh idx)) eqn:E.
    + symmetry. now apply nth_error_nth.
    + apply nth_error_None in E. apply ravel_lt in Hin. lia.
  - rewrite map_ravel_indices, <- Hwf. clear Hwf.
    induction dat as [|x dat IH]; simpl; auto.
    f_equal. rewrite <- seq_shift, map_map. exact IH.
Qed.

Lemma get_nd_map {A B} (f : A -> B) (a : ndarray A) (idx : list nat) :
  get (nd_map f a) idx = option_map f (get a idx).
Proof.
  unfold get, nd_map. simpl. destruct (in_boundsb (shape a) idx); auto.
  apply nth_error_map.
Qed.

Lemma item_nd_map {A B} `{Default A} `{Default B} (f : A -> B) (a : ndarray A)
  (idx : list nat) :
  wf a -> in_boundsb (shape a) idx = true -> item (nd_map f a) idx = f (item a idx).
Proof.
  intros Hwf Hb. unfold item at 1. rewrite get_nd_map, (get_Some_item a idx Hwf Hb).
  reflexivity.
Qed.

Lemma wf_nd_map {A B} (f : A -> B) (a : ndarray A) : wf a -> wf (nd_map f a).
Proof. unfold wf, nd_map. simpl. now rewrite length_map. Qed.

(** ** Tables *)

Lemma length_tab {A} (n : nat) (f : nat -> A) : length (tab n f) = n.
Proof. unfold tab. now rewrite length_map, length_seq. Qed.

Lemma nth_tab {A} (n : nat) (f : nat -> A) (k : nat) (d : A) :
  k < n -> nth k (tab n f) d = f k.
Proof.
  intros Hk. unfold tab.
  rewrite (nth_indep _ d (f 0)) by (now rewrite length_map, length_seq).
  rewrite (map_nth f (seq 0 n) 0 k), seq_nth by assumption. reflexivity.
Qed.

Lemma tab_S {A} (n : nat) (f : nat -> A) :
  tab (S n) f = f 0 :: tab n (fun k => f (S k)).
Proof. unfold tab. simpl. f_equal. now rewrite <- seq_shift, map_map. Qed.

Lemma tab_ext {A} (n : nat) (f g : nat -> A) :
  (forall k, k < n -> f k = g k) -> tab n f = tab n g.
Proof.
  intros H. unfold tab. apply map_ext_in. intros k Hk. apply in_seq in Hk. apply H. lia.
Qed.

Lemma list_eq_tab {A} (l : list A) (d : A) : l = tab (length l) (fun k => nth k l d).
Proof.
  apply (nth_ext _ _ d d).
  - now rewrite length_tab.
  - intros k Hk. now rewrite nth_tab.
Qed.

Lemma map_tab {A B} (g : A -> B) (n : nat) (f : nat -> A) :
  map g (tab n f) = tab n (fun k => g (f k)).
Proof. unfold tab. now rewrite map_map. Qed.

Lemma tab_eq_iff {A} (l : list A) (n : nat) (f : nat -> A) (d : A) :
  length l = n -> (forall k, k < n -> nth k l d = f k) -> l = tab n f.
Proof.
  intros Hl H. rewrite (list_eq_tab l d), Hl. now apply tab_ext.
Qed.

(** ** Python indexing *)

Lemma norm_index_lt (n : nat) (i : Z) (k : nat) : norm_index n i = Ok k -> k < n.
Proof.
  unfold norm_index. destruct (i <? 0)%Z eqn:E.
  - destruct ((0 <=? i + Z.of_nat n)%Z && (i + Z.of_nat n <? Z.of_nat n)%Z) eqn:E2; [|discriminate].
    intros H. injection H as <-. apply andb_prop in E2 as [H1 H2]. lia.
  - destruct ((0 <=? i)%Z && (i <? Z.of_nat n)%Z) eqn:E2; [|discriminate].
    intros H. injection H as <-. apply andb_prop in E2 as [H1 H2]. lia.
Qed.

Lemma norm_index_nonneg (n k : nat) : k < n -> norm_index n (Z.of_nat k) = Ok k.
Proof.
  intros Hk. unfold norm_index.
  assert (H1 : (Z.of_nat k <? 0)%Z = false) by lia. rewrite H1.
  assert (H2 : ((0 <=? Z.of_nat k)%Z && (Z.of_nat k <? Z.of_nat n)%Z) = true).
  { apply andb_true_intro. split; lia. }
  rewrite H2. now rewrite Nat2Z.id.
Qed.

Lemma norm_index_negative (n : nat) (i : Z) :
  (- Z.of_nat n <= i < 0)%Z -> norm_index n i = Ok (Z.to_nat (i + Z.of_nat n)).
Proof.
  intros Hi. unfold norm_index.
  assert (H1 : (i <? 0)%Z = true) by lia. rewrite H1.
  assert (H2 : ((0 <=? i + Z.of_nat n)%Z && (i + Z.of_nat n <? Z.of_nat n)%Z) = true).
  { apply andb_true_intro. split; lia. }
  now rewrite H2.
Qed.

Lemma norm_index_in_list (n : nat) (i : Z) (k : nat) :
  norm_index n i = Ok k -> (0 <= i)%Z -> i = Z.of_nat k.
Proof.
  unfold norm_index. intros H Hi.
  assert (H1 : (i <? 0)%Z = false) by lia. rewrite H1 in H.
  destruct ((0 <=? i)%Z && (i <? Z.of_nat n)%Z); [|discriminate].
  injection H as <-. lia.
Qed.

Lemma py_getitem_norm {A} (l : list A) (i : Z) (k : nat) (d : A) :
  norm_index (length l) i = Ok k -> py_getitem l i = Ok (nth k l d).
Proof.
  intros H. unfold py_getitem. rewrite H. simpl.
  apply norm_index_lt in H.
  destruct (nth_error l k) eqn:E.
  - f_equal. symmetry. now apply nth_error_nth.
  - apply nth_error_None in E. lia.
Qed.

Lemma py_setitem_norm {A} (l : list A) (i : Z) (k : nat) (v : A) :
  norm_index (length l) i = Ok k -> py_setitem l i v = Ok (list_set l k v).
Proof. intros H. unfold py_setitem. now rewrite H. Qed.

Lemma length_list_set {A} (l : list A) (k : nat) (v : A) :
  length (list_set l k v) = length l.
Proof.
  revert k. induction l as [|x l IH]; intros [|k]; simpl; auto.
Qed.

Lemma nth_list_set {A} (l : list A) (k j : nat) (v d : A) :
  k < length l -> nth j (list_set l k v) d = if j =? k then v else nth j l d.
Proof.
  revert k j. induction l as [|x l IH]; intros k j Hk; simpl in Hk; [lia|].
  destruct k as [|k]; destruct j as [|j]; simpl; auto.
  apply IH. lia.
Qed.

Lemma length_set_axes {A} (h : nat -> A) (ks : list nat) (init : list A) :
  length (set_axes h ks init) = length init.
Proof.
  unfold set_axes. revert init. induction ks as [|k ks IH]; intros init; simpl; auto.
  now rewrite IH, length_list_set.
Qed.

Lemma nth_set_axes {A} (h : nat -> A) (ks : list nat) (init : list A) (j : nat) (d : A) :
  (forall k, In k ks -> k < length init) ->
  nth j (set_axes h ks init) d = if mem j ks then h j else nth j init d.
Proof.
  unfold set_axes, mem. revert init. induction ks as [|k ks IH]; intros init Hks; simpl; auto.
  rewrite IH.
  - rewrite nth_list_set by (apply Hks; now left).
    rewrite (Nat.eqb_sym j k).
    destruct (k =? j) eqn:E; simpl.
    + apply Nat.eqb_eq in E. subst. now destruct (existsb (Nat.eqb j) ks).
    + reflexivity.
  - intros k' Hk'. rewrite length_list_set. apply Hks. now right.
Qed.

Lemma axes_of_lt (nd : nat) (axes : list Z) (ks : list nat) :
  axes_of nd axes ks -> forall k, In k ks -> k < nd.
Proof.
  unfold axes_of. revert ks. induction axes as [|ax axes IH]; intros ks H k Hk; simpl in H.
  - injection H as <-. destruct Hk.
  - destruct (norm_index nd ax) as [k0|] eqn:E; simpl in H; [|discriminate].
    destruct (mapM (norm_index nd) axes) as [ks0|] eqn:E2; simpl in H; [|discriminate].
    injection H as <-. destruct Hk as [<-|Hk].
    + now apply norm_index_lt in E.
    + now apply (IH ks0).
Qed.

Lemma axes_of_cons_inv (nd : nat) (ax : Z) (axes : list Z) (ks : list nat) :
  axes_of nd (ax :: axes) ks ->
  exists k ks', ks = k :: ks' /\ norm_index nd ax = Ok k /\ axes_of nd axes ks'.
Proof.
  unfold axes_of. simpl. intros H.
  destruct (norm_index nd ax) as [k0|] eqn:E; simpl in H; [|discriminate].
  destruct (mapM (norm_index nd) axes) as [ks0|] eqn:E2; simpl in H; [|discriminate].
  injection H as <-. now exists k0, ks0.
Qed.

Lemma axes_of_nil_inv (nd : nat) (ks : list nat) : axes_of nd [] ks -> ks = [].
Proof. unfold axes_of. simpl. intros H. now injection H. Qed.

Lemma axes_of_In (nd : nat) (axes : list Z) (ks : list nat) (k : nat) :
  axes_of nd axes ks -> In (Z.of_nat k) axes -> In k ks.
Proof.
  revert ks. induction axes as [|ax axes IH]; intros ks H Hin; [destruct Hin|].
  apply axes_of_cons_inv in H as [k0 [ks' [-> [Hn Hks]]]].
  destruct Hin as [->|Hin].
  - left. apply norm_index_in_list in Hn; lia.
  - right. now apply IH.
Qed.

(** A loop that assigns, for each axis, a value that depends on the position
    of the axis only. *)
Lemma foldM_set_axes {A} (F : list A -> Z -> result (list A)) (h : nat -> A) (n : nat) :
  (forall l ax k, length l = n -> norm_index n ax = Ok k -> F l ax = Ok (list_set l k (h k))) ->
  forall axes ks init, length init = n -> axes_of n axes ks ->
  foldM F axes init = Ok (set_axes h ks init).
Proof.
  intros HF. induction axes as [|ax axes IH]; intros ks init Hl Hax.
  - apply axes_of_nil_inv in Hax. subst. reflexivity.
  - apply axes_of_cons_inv in Hax as [k [ks' [-> [Hn Hks]]]].
    simpl. rewrite (HF _ _ _ Hl Hn). simpl.
    apply IH; auto. now rewrite length_list_set.
Qed.

Lemma mapM_axes {B} (G : Z -> result B) (g : nat -> B) (n : nat) :
  (forall ax k, norm_index n ax = Ok k -> G ax = Ok (g k)) ->
  forall axes ks, axes_of n axes ks -> mapM G axes = Ok (map g ks).
Proof.
  intros HG. induction axes as [|ax axes IH]; intros ks Hax.
  - apply axes_of_nil_inv in Hax. subst. reflexivity.
  - apply axes_of_cons_inv in Hax as [k [ks' [-> [Hn Hks]]]].
    simpl. rewrite (HG _ _ Hn). simpl. rewrite (IH _ Hks). reflexivity.
Qed.

(** ** Slices *)

Lemma slice_resolve_all (n : nat) :
  slice_resolve (Slice None None None) n = Ok (Span 0 1 n).
Proof.
  unfold slice_resolve. simpl.
  destruct (0 <? Z.of_nat n)%Z eqn:E.
  - do 2 f_equal. rewrite Z.div_1_r. lia.
  - do 2 f_equal. lia.
Qed.

Lemma slice_resolve_reverse (n : nat) :
  slice_resolve (Slice None None (Some (-1)%Z)) n = Ok (Span (Z.of_nat n - 1) (-1) n).
Proof.
  unfold slice_resolve. simpl.
  destruct (-1 <? Z.of_nat n - 1)%Z eqn:E.
  - do 2 f_equal. change (- -1)%Z with 1%Z. rewrite Z.div_1_r. lia.
  - do 2 f_equal. lia.
Qed.

Lemma slice_resolve_range (n : nat) (s e : Z) :
  (0 <= s <= e)%Z -> (e <= Z.of_nat n)%Z ->
  slice_resolve (Slice (Some s) (Some e) None) n = Ok (Span s 1 (Z.to_nat (e - s))).
Proof.
  intros Hs He. unfold slice_resolve. simpl.
  assert (Hadj : forall v, (0 <= v <= Z.of_nat n)%Z -> adjust_index (Z.of_nat n) 1 v = v).
  { intros v Hv. unfold adjust_index.
    assert (H1 : (v <? 0)%Z = false) by lia. rewrite H1.
    destruct (Z.of_nat n <=? v)%Z eqn:E; simpl; lia. }
  rewrite !Hadj by lia.
  destruct (s <? e)%Z eqn:E.
  - do 2 f_equal. rewrite Z.div_1_r. lia.
  - do 2 f_equal. lia.
Qed.

Lemma resolve_nth (sl : list slice) (sh : list nat) (spf : nat -> span) :
  length sl = length sh ->
  (forall k, k < length sh ->
     slice_resolve (nth k sl (Slice None None None)) (nth k sh 0) = Ok (spf k)) ->
  resolve sl sh = Ok (tab (length sh) spf).
Proof.
  revert sh spf. induction sl as [|s sl IH]; intros [|n sh] spf Hl H; simpl in Hl; try discriminate.
  - reflexivity.
  - assert (H0 := H 0 ltac:(simpl; lia)). simpl in H0.
    simpl. rewrite H0. simpl.
    rewrite (IH sh (fun k => spf (S k))).
    + simpl. now rewrite tab_S.
    + lia.
    + intros k Hk. apply (H (S k)). simpl. lia.
Qed.

Lemma src_index_tab (n : nat) (spf : nat -> span) (idx : list nat) :
  length idx = n ->
  src_index (tab n spf) idx = tab n (fun k => span_src (spf k) (nth k idx 0)).
Proof.
  revert spf idx. induction n as [|n IH]; intros spf [|i idx] Hl; simpl in Hl; try discriminate.
  - reflexivity.
  - rewrite !tab_S. simpl. f_equal. apply IH. lia.
Qed.

Lemma getitem_resolved {T} `{Default T} (a : ndarray T) (sl : list slice) (sps : list span) :
  resolve sl (shape a) = Ok sps ->
  getitem a sl = Ok (build (map sp_len sps) (fun idx => item a (src_index sps idx))).
Proof. intros Hr. unfold getitem. now rewrite Hr. Qed.

(** ** _flip *)

Lemma nth_repeat_lt {A} (x d : A) (n k : nat) : k < n -> nth k (repeat x n) d = x.
Proof.
  revert k. induction n as [|n IH]; intros [|k] Hk; simpl; auto; try lia. apply IH. lia.
Qed.

Lemma mem_seq (k n : nat) : k < n -> mem k (seq 0 n) = true.
Proof.
  intros Hk. unfold mem. apply existsb_exists. exists k. split.
  - apply in_seq. lia.
  - apply Nat.eqb_refl.
Qed.

Lemma mem_In (k : nat) (ks : list nat) : mem k ks = true <-> In k ks.
Proof.
  unfold mem. rewrite existsb_exists. split.
  - intros [x [Hx E]]. apply Nat.eqb_eq in E. now subst.
  - intros Hk. exists k. split; auto. apply Nat.eqb_refl.
Qed.

Lemma flip_index_in_bounds (ks sh idx : list nat) :
  in_boundsb sh idx = true -> in_boundsb sh (flip_index ks sh idx) = true.
Proof.
  intros Hb. apply in_boundsb_nth in Hb as [Hl Hb]. apply in_boundsb_nth.
  unfold flip_index. rewrite length_tab. split; auto.
  intros k Hk. rewrite nth_tab by assumption. specialize (Hb k Hk).
  destruct (mem k ks); lia.
Qed.

Lemma flip_index_involutive (ks sh idx : list nat) :
  in_boundsb sh idx = true -> flip_index ks sh (flip_index ks sh idx) = idx.
Proof.
  intros Hb. apply in_boundsb_nth in Hb as [Hl Hb].
  symmetry. unfold flip_index at 1. apply (tab_eq_iff _ _ _ 0); auto.
  intros k Hk. unfold flip_index. rewrite nth_tab by assumption.
  specialize (Hb k Hk). destruct (mem k ks); lia.
Qed.

(** The slices [_flip] builds, resolved against the shape. *)
Lemma resolve_flip (ks sh : list nat) (sl : list slice) :
  length sl = length sh ->
  (forall k, k < length sh ->
     nth k sl (Slice None None None)
     = if mem k ks then Slice None None (Some (-1)%Z) else Slice None None None) ->
  resolve sl sh
  = Ok (tab (length sh)
          (fun k => if mem k ks then Span (Z.of_nat (nth k sh 0) - 1) (-1) (nth k sh 0)
                    else Span 0 1 (nth k sh 0))).
Proof.
  intros Hl Hn. apply resolve_nth; auto.
  intros k Hk. rewrite (Hn k Hk). destruct (mem k ks).
  - apply slice_resolve_reverse.
  - apply slice_resolve_all.
Qed.

Lemma getitem_flip {T} `{Default T} (arr : ndarray T) (ks : list nat) (sl : list slice) :
  length sl = ndim arr ->
  (forall k, k < ndim arr ->
     nth k sl (Slice None None None)
     = if mem k ks then Slice None None (Some (-1)%Z) else Slice None None None) ->
  getitem arr sl
  = Ok (build (shape arr) (fun idx => item arr (flip_index ks (shape arr) idx))).
Proof.
  intros Hl Hn. rewrite (getitem_resolved _ _ _ (resolve_flip ks (shape arr) sl Hl Hn)).
  f_equal. rewrite map_tab.
  replace (tab _ _) with (shape arr).
  - apply build_ext. intros idx Hb. f_equal.
    apply in_boundsb_nth in Hb as [Hlen Hb].
    rewrite src_index_tab by assumption. unfold flip_index. apply tab_ext.
    intros k Hk. specialize (Hb k Hk). destruct (mem k ks); unfold span_src; simpl; lia.
  - apply (tab_eq_iff _ _ _ 0); auto. intros k Hk. now destruct (mem k ks).
Qed.

Lemma flip_ok {T} `{Default T} (arr : ndarray T) (axes : option (list Z)) (ks : list nat) :
  flipped_axes (ndim arr) axes ks ->
  _flip arr axes
  = Ok (build (shape arr) (fun idx => item arr (flip_index ks (shape arr) idx))).
Proof.
  intros Hax. unfold _flip. destruct axes as [axes|]; simpl in Hax.
  - rewrite (foldM_set_axes _ (fun _ => Slice None None (Some (-1)%Z)) (ndim arr))
      with (ks := ks); auto.
    + simpl. apply getitem_flip.
      * now rewrite length_set_axes, repeat_length.
      * intros k Hk. rewrite nth_set_axes.
        -- destruct (mem k ks); auto. now apply nth_repeat_lt.
        -- intros k' Hk'. rewrite repeat_length. now apply (axes_of_lt _ _ _ Hax).
    + intros l ax k Hl Hn. apply py_setitem_norm. now rewrite Hl.
    + apply repeat_length.
  - subst ks. simpl. apply getitem_flip.
    + apply repeat_length.
    + intros k Hk. rewrite mem_seq by assumption. now apply nth_repeat_lt.
Qed.

(** ** _centered *)

Lemma nth_map_of_nat (sh : list nat) (k : nat) :
  nth k (map Z.of_nat sh) 0%Z = Z.of_nat (nth k sh 0).
Proof. apply (map_nth Z.of_nat sh 0 k). Qed.

Lemma Zdiv2_le (x : Z) : (0 <= x -> x / 2 <= x)%Z.
Proof. intros Hx. apply Z.div_le_upper_bound; lia. Qed.

Lemma centered_ok {T} `{Default T} (arr : ndarray T) (newshape : list nat) (axes : list Z)
  (ks : list nat) :
  length newshape = ndim arr ->
  axes_of (ndim arr) axes ks ->
  (forall k, In k ks -> nth k newshape 0 <= nth k (shape arr) 0) ->
  _centered arr newshape axes
  = Ok (build (tab (ndim arr)
                 (fun k => if mem k ks then nth k newshape 0 else nth k (shape arr) 0))
          (fun idx => item arr (center_index ks (shape arr) newshape idx))).
Proof.
  intros Hl Hax Hle. unfold _centered.
  set (h := fun k : nat =>
              let c := Z.of_nat (nth k (shape arr) 0) in
              let n := Z.of_nat (nth k newshape 0) in
              Slice (Some ((c - n) / 2)%Z) (Some ((c - n) / 2 + n)%Z) None).
  rewrite (foldM_set_axes _ h (ndim arr)) with (ks := ks); auto.
  - simpl.
    set (spf := fun k : nat =>
                  if mem k ks
                  then Span ((Z.of_nat (nth k (shape arr) 0) - Z.of_nat (nth k newshape 0)) / 2) 1
                         (nth k newshape 0)
                  else Span 0 1 (nth k (shape arr) 0)).
    assert (Hr : resolve (set_axes h ks (repeat (Slice None None None) (ndim arr))) (shape arr)
                 = Ok (tab (length (shape arr)) spf)).
    { apply resolve_nth.
      - now rewrite length_set_axes, repeat_length.
      - intros k Hk. rewrite nth_set_axes.
        + unfold spf. destruct (mem k ks) eqn:E.
          * apply mem_In in E. specialize (Hle k E). unfold h. simpl.
            rewrite slice_resolve_range.
            -- do 2 f_equal. lia.
            -- split; [apply Z.div_pos; lia|]. lia.
            -- pose proof (Zdiv2_le (Z.of_nat (nth k (shape arr) 0) - Z.of_nat (nth k newshape 0))).
               lia.
          * rewrite nth_repeat_lt by assumption. apply slice_resolve_all.
        + intros k' Hk'. rewrite repeat_length. now apply (axes_of_lt _ _ _ Hax). }
    rewrite (getitem_resolved _ _ _ Hr). f_equal. rewrite map_tab.
    replace (tab (length (shape arr)) (fun k => sp_len (spf k)))
      with (tab (ndim arr)
              (fun k => if mem k ks then nth k newshape 0 else nth k (shape arr) 0)).
    + apply build_ext. intros idx Hb. f_equal.
      apply in_boundsb_length in Hb. rewrite length_tab in Hb.
      rewrite src_index_tab by assumption. unfold center_index. apply tab_ext.
      intros k Hk. unfold spf. destruct (mem k ks) eqn:E; unfold span_src;
        cbn [sp_start sp_step].
      * apply mem_In in E. specialize (Hle k E).
        rewrite <- Nat2Z.inj_sub by assumption.
        change 2%Z with (Z.of_nat 2). rewrite <- Nat2Z.inj_div.
        generalize ((nth k (shape arr) 0 - nth k newshape 0) / 2). intros q. lia.
      * lia.
    + apply tab_ext. intros k Hk. unfold spf. now destruct (mem k ks).
  - intros l ax k Hlen Hn.
    rewrite (py_getitem_norm _ _ k 0%Z) by (now rewrite length_map).
    rewrite (py_getitem_norm _ _ k 0%Z) by (now rewrite length_map, Hl).
    simpl. rewrite !nth_map_of_nat.
    apply py_setitem_norm. now rewrite Hlen.
  - apply repeat_length.
Qed.

(** ** Shapes *)

Lemma shape_eqb_refl (sh : list nat) : shape_eqb sh sh = true.
Proof. induction sh as [|n sh IH]; simpl; auto. now rewrite Nat.eqb_refl. Qed.

Lemma in_boundsb_mono (sh sh' idx : list nat) :
  length sh = length sh' ->
  (forall k, k < length sh -> nth k sh 0 <= nth k sh' 0) ->
  in_boundsb sh idx = true -> in_boundsb sh' idx = true.
Proof.
  intros Hl Hle Hb. apply in_boundsb_nth in Hb as [Hlen Hb]. apply in_boundsb_nth.
  split; [congruence|]. intros k Hk. rewrite <- Hl in Hk.
  specialize (Hb k Hk). specialize (Hle k Hk). lia.
Qed.

Lemma item_out_of_bounds {T} `{Default T} (a : ndarray T) (idx : list nat) :
  in_boundsb (shape a) idx = false -> item a idx = default.
Proof. intros Hb. unfold item. now rewrite get_out_of_bounds. Qed.

(** Reading a zero-padded copy is reading the array. *)
Lemma item_padded {T} `{Default T} (a : ndarray T) (sh idx : list nat) :
  length (shape a) = length sh ->
  (forall k, k < length sh -> nth k (shape a) 0 <= nth k sh 0) ->
  item (build sh (item a)) idx = item a idx.
Proof.
  intros Hl Hle. destruct (in_boundsb sh idx) eqn:E.
  - now apply item_build.
  - rewrite item_out_of_bounds by exact E.
    destruct (in_boundsb (shape a) idx) eqn:E2.
    + apply (in_boundsb_mono _ sh) in E2; auto; [congruence|].
      intros k Hk. apply Hle. congruence.
    + now rewrite item_out_of_bounds.
Qed.

Lemma setitem_mask_ok {T} `{Default T} (a : ndarray T) (mask : ndarray bool) (v : T) :
  shape mask = shape a ->
  setitem_mask a mask v = Ok (nd_zip (fun x (b : bool) => if b then v else x) a mask).
Proof. intros Hs. unfold setitem_mask. now rewrite Hs, shape_eqb_refl. Qed.

Lemma setitem_mask_from_ok {T} `{Default T} (a b : ndarray T) (mask : ndarray bool) :
  shape mask = shape a ->
  setitem_mask_from a mask b
  = Ok (build (shape a) (fun idx => if item mask idx then item b idx else item a idx)).
Proof. intros Hs. unfold setitem_mask_from. now rewrite Hs, shape_eqb_refl. Qed.

(** ** next_fast_len *)

Lemma next_regular_ge (fuel n : nat) : n <= next_regular fuel n.
Proof.
  revert n. induction fuel as [|fuel IH]; intros n; simpl; auto.
  destruct (regular n); auto. specialize (IH (S n)). lia.
Qed.

Lemma next_fast_len_ge (target : Z) : (target <= next_fast_len target)%Z.
Proof.
  unfold next_fast_len. destruct (target <=? 6)%Z eqn:E; [lia|].
  pose proof (next_regular_ge (Z.to_nat target) (Z.to_nat target)). lia.
Qed.

(** ** fftn and ifftn *)

Section Transform.
Variable nd : nat.
Variable ks : list nat.
Variable g : nat -> Z.

Local Abbreviation rsz := (resized nd g).
Local Abbreviation hit := (hits nd).

Lemma resized_ext (sh : list nat) (f f' : nat -> bool) :
  (forall k, k < nd -> f k = f' k) -> rsz sh f = rsz sh f'.
Proof. intros Hf. apply tab_ext. intros k Hk. now rewrite Hf. Qed.

Lemma foldM_fft1 (a : ndarray Q) (ps : list (Z * Z)) :
  length (shape a) = nd ->
  (forall k, In k ks -> (1 <= g k)%Z /\ nth k (shape a) 0 <= Z.to_nat (g k)) ->
  (forall p, In p ps ->
     exists k, norm_index nd (fst p) = Ok k /\ snd p = g k /\ In k ks) ->
  forall inset,
    (forall k, inset k = true -> In k ks) ->
    foldM (fun a p => fft1 a (fst p) (snd p)) ps (build (rsz (shape a) inset) (item a))
    = Ok (build (rsz (shape a) (fun j => existsb (hit j) ps || inset j)) (item a)).
Proof.
  intros Hnd Hg. induction ps as [|p ps IH]; intros Hps inset Hin.
  - reflexivity.
  - destruct (Hps p (or_introl eq_refl)) as [k [Hn [Hs Hk]]].
    destruct (Hg k Hk) as [Hg1 Hg2].
    simpl. unfold fft1.
    assert (E : (snd p <? 1)%Z = false) by lia. rewrite E.
    unfold ndim. rewrite shape_build. unfold resized at 1. rewrite length_tab, Hn. simpl.
    assert (Hlt : k < nd) by (now apply norm_index_lt in Hn).
    assert (Hr : resize_axis (build (rsz (shape a) inset) (item a)) k (Z.to_nat (snd p))
                 = build (rsz (shape a) (fun j => (j =? k) || inset j)) (item a)).
    { unfold resize_axis. rewrite shape_build.
      replace (list_set (rsz (shape a) inset) k (Z.to_nat (snd p)))
        with (rsz (shape a) (fun j => (j =? k) || inset j)).
      - apply build_ext. intros idx Hb. apply item_padded.
        + unfold resized. now rewrite length_tab.
        + unfold resized. rewrite length_tab. intros j Hj. rewrite nth_tab by assumption.
          destruct (inset j) eqn:Ej; auto. apply Hg. now apply Hin.
      - symmetry. apply (tab_eq_iff _ _ _ 0).
        + unfold resized. now rewrite length_list_set, length_tab.
        + intros j Hj. rewrite nth_list_set by (unfold resized; now rewrite length_tab).
          unfold resized. rewrite nth_tab by assumption.
          destruct (j =? k) eqn:Ej; simpl; auto.
          apply Nat.eqb_eq in Ej. subst j. now rewrite Hs. }
    rewrite Hr. rewrite IH.
    + f_equal. f_equal. apply resized_ext. intros j Hj.
      unfold hits at 2. rewrite Hn. rewrite (Nat.eqb_sym k j).
      destruct (j =? k), (existsb (hit j) ps), (inset j); reflexivity.
    + intros p' Hp'. apply Hps. now right.
    + intros j Hj. apply orb_prop in Hj as [Hj|Hj]; auto.
      apply Nat.eqb_eq in Hj. now subst.
Qed.

Lemma hits_combine (axes : list Z) (s : nat -> Z) (j : nat) :
  axes_of nd axes ks -> existsb (hit j) (combine axes (map s ks)) = mem j ks.
Proof.
  revert ks. induction axes as [|ax axes IH]; intros ks0 Hax.
  - apply axes_of_nil_inv in Hax. now subst.
  - apply axes_of_cons_inv in Hax as [k [ks' [-> [Hn Hks]]]].
    simpl. unfold hits at 1. simpl. rewrite Hn, (IH _ Hks).
    unfold mem. simpl. now rewrite (Nat.eqb_sym k j).
Qed.

Lemma In_combine_axes (axes : list Z) (p : Z * Z) :
  axes_of nd axes ks -> In p (combine axes (map g ks)) ->
  exists k, norm_index nd (fst p) = Ok k /\ snd p = g k /\ In k ks.
Proof.
  revert ks. induction axes as [|ax axes IH]; intros ks0 Hax Hp.
  - destruct Hp.
  - apply axes_of_cons_inv in Hax as [k [ks' [-> [Hn Hks]]]].
    simpl in Hp. destruct Hp as [<-|Hp].
    + exists k. simpl. auto.
    + destruct (IH _ Hks Hp) as [k' [H1 [H2 H3]]]. exists k'. simpl. auto.
Qed.

Lemma axes_of_length (axes : list Z) : axes_of nd axes ks -> length ks = length axes.
Proof.
  revert ks. induction axes as [|ax axes IH]; intros ks0 Hax.
  - apply axes_of_nil_inv in Hax. now subst.
  - apply axes_of_cons_inv in Hax as [k [ks' [-> [Hn Hks]]]].
    simpl. f_equal. now apply IH.
Qed.

Lemma existsb_rev {A} (f : A -> bool) (l : list A) : existsb f (rev l) = existsb f l.
Proof.
  destruct (existsb f l) eqn:E.
  - apply existsb_exists in E as [x [Hx Hf]]. apply existsb_exists.
    exists x. split; auto. now apply in_rev in Hx.
  - destruct (existsb f (rev l)) eqn:E2; auto.
    apply existsb_exists in E2 as [x [Hx Hf]]. apply in_rev in Hx.
    assert (existsb f l = true) by (apply existsb_exists; eauto). congruence.
Qed.

Lemma fftn_ok (a : ndarray Q) (axes : list Z) :
  wf a ->
  ndim a = nd ->
  axes_of nd axes ks ->
  (forall k, In k ks -> (1 <= g k)%Z /\ nth k (shape a) 0 <= Z.to_nat (g k)) ->
  fftn (map g ks) axes a
  = Ok (Spectrum (axis_mask nd ks)
          (build (rsz (shape a) (fun k => mem k ks)) (item a))).
Proof.
  intros Hwf Hnd Hax Hg. unfold fftn.
  rewrite length_map, (axes_of_length _ Hax), Nat.eqb_refl. simpl.
  assert (Ha : a = build (rsz (shape a) (fun _ => false)) (item a)).
  { rewrite <- (build_item a Hwf) at 1. f_equal.
    apply (tab_eq_iff _ _ _ 0); auto. }
  rewrite Ha at 1. rewrite foldM_fft1; auto.
  - simpl. rewrite Hnd, Hax. simpl. f_equal. f_equal. f_equal.
    apply resized_ext. intros j Hj.
    now rewrite existsb_rev, hits_combine, orb_false_r.
  - intros p Hp. apply in_rev in Hp. now apply In_combine_axes in Hp.
  - discriminate.
Qed.

Lemma forallb_combine_eq (f h : nat -> Z) (l : list nat) :
  (forall k, In k l -> f k = h k) ->
  forallb (fun p => (fst p =? snd p)%Z) (combine (map f l) (map h l)) = true.
Proof.
  intros Hfh. induction l as [|k l IH]; simpl; auto.
  rewrite (Hfh k (or_introl eq_refl)), Z.eqb_refl. simpl.
  apply IH. intros k' Hk'. apply Hfh. now right.
Qed.

Lemma ifftn_ok (X : spectrum) (axes : list Z) :
  axes_of nd axes ks ->
  length (shape (signal X)) = nd ->
  (forall k, In k ks -> Z.of_nat (nth k (shape (signal X)) 0) = g k) ->
  ifftn (map g ks) axes X = Ok (signal X).
Proof.
  intros Hax Hl Hg. unfold ifftn.
  rewrite (mapM_axes _ (fun k => Z.of_nat (nth k (shape (signal X)) 0)) nd) with (ks := ks); auto.
  - simpl. rewrite forallb_combine_eq by exact Hg.
    now rewrite length_map, (axes_of_length _ Hax), Nat.eqb_refl.
  - intros ax k Hn. rewrite (py_getitem_norm _ _ k 0%Z) by (now rewrite length_map, Hl).
    now rewrite nth_map_of_nat.
Qed.
End Transform.

(** ** Axis masks in table form *)

Lemma axis_mask_tab (nd : nat) (ks : list nat) :
  axis_mask nd ks = tab nd (fun k => mem k ks).
Proof. reflexivity. Qed.

Lemma axes_shape_tab (n : nat) (f : nat -> bool) (sh : list nat) :
  length sh = n ->
  axes_shape (tab n f) sh = tab n (fun k => if f k then nth k sh 0 else 1).
Proof.
  revert f sh. induction n as [|n IH]; intros f [|x sh] Hl; simpl in Hl; try discriminate.
  - reflexivity.
  - rewrite !tab_S. simpl. f_equal. apply IH. lia.
Qed.

Lemma keep_shape_tab (n : nat) (f : nat -> bool) (sh : list nat) :
  length sh = n ->
  keep_shape (tab n f) sh = tab n (fun k => if f k then 1 else nth k sh 0).
Proof.
  revert f sh. induction n as [|n IH]; intros f [|x sh] Hl; simpl in Hl; try discriminate.
  - reflexivity.
  - rewrite !tab_S. simpl. f_equal. apply IH. lia.
Qed.

Lemma select_tab (n : nat) (f : nat -> bool) (j idx : list nat) :
  length j = n -> length idx = n ->
  select (tab n f) j idx = tab n (fun k => if f k then nth k j 0 else nth k idx 0).
Proof.
  revert f j idx. induction n as [|n IH]; intros f [|x j] [|y idx] Hj Hi;
    simpl in Hj, Hi; try discriminate.
  - reflexivity.
  - rewrite !tab_S. simpl. f_equal. apply IH; lia.
Qed.

Lemma bcast_index_tab (sh idx : list nat) :
  length idx = length sh ->
  bcast_index sh idx
  = tab (length sh) (fun k => if nth k sh 0 =? 1 then 0 else nth k idx 0).
Proof.
  revert idx. induction sh as [|n sh IH]; intros [|i idx] Hl; simpl in Hl; try discriminate.
  - reflexivity.
  - simpl length. rewrite tab_S. simpl. f_equal. apply IH. lia.
Qed.

Lemma conv_partner_tab (n : nat) (f : nat -> bool) (sh idx j : list nat) :
  length sh = n -> length idx = n -> length j = n ->
  conv_partner (tab n f) sh idx j
  = tab n (fun k => if f k then (nth k idx 0 + nth k sh 0 - nth k j 0) mod nth k sh 0
                    else nth k idx 0).
Proof.
  revert f sh idx j. induction n as [|n IH]; intros f [|s sh] [|i idx] [|x j] Hs Hi Hj;
    simpl in Hs, Hi, Hj; try discriminate.
  - reflexivity.
  - rewrite !tab_S. cbn [conv_partner nth]. f_equal. apply IH; lia.
Qed.

Lemma nodupb_NoDup (ks : list nat) : NoDup ks -> nodupb ks = true.
Proof.
  induction 1 as [|k ks Hk Hnd IH]; simpl; auto.
  rewrite IH, andb_true_r. apply negb_true_iff.
  destruct (existsb (Nat.eqb k) ks) eqn:E; auto.
  apply (mem_In k ks) in E. contradiction.
Qed.

(** ** A run of mnxc on a valid input *)

Section Valid.
Variables (arr1 arr2 : ndarray Q) (m1 m2 : ndarray bool).
Variable mode : string.
Variable axes : list Z.
Variable overlap_ratio : Q.
Variable ks : list nat.
Hypothesis V : valid_input arr1 arr2 m1 m2 mode axes ks.

Local Abbreviation nd := (ndim arr1).
Local Abbreviation sh1 := (shape arr1).
Local Abbreviation sh2 := (shape arr2).
Local Abbreviation flen := (full_len arr1 arr2).
Local Abbreviation fast := (fast_len arr1 arr2).
Local Abbreviation final_shape := (run_final_shape arr1 arr2 ks).
Local Abbreviation fast_shape := (run_fast_shape arr1 arr2 ks).

Lemma ks_lt (k : nat) : In k ks -> k < nd.
Proof. apply (axes_of_lt _ _ _ (v_axes V)). Qed.

Lemma off_axes_equal (k : nat) :
  k < nd -> mem k ks = false -> nth k sh1 0 = nth k sh2 0.
Proof.
  intros Hk Hm. apply (v_off V); auto. intros Hin.
  apply (axes_of_In _ _ _ _ (v_axes V)) in Hin. apply mem_In in Hin. congruence.
Qed.

Lemma full_len_pos (k : nat) : In k ks -> (1 <= flen k)%Z.
Proof. intros Hk. destruct (v_pos V k Hk). unfold full_len. lia. Qed.

Lemma fast_len_ge (k : nat) : (flen k <= fast k)%Z.
Proof. apply next_fast_len_ge. Qed.

Lemma length_final_shape : length final_shape = nd.
Proof. apply length_tab. Qed.

Lemma length_fast_shape : length fast_shape = nd.
Proof. apply length_tab. Qed.

Lemma nth_final_shape (k : nat) :
  k < nd ->
  nth k final_shape 0 = if mem k ks then nth k sh1 0 + nth k sh2 0 - 1 else nth k sh1 0.
Proof.
  intros Hk. unfold run_final_shape. rewrite nth_tab by assumption.
  destruct (mem k ks) eqn:E; auto. apply mem_In in E.
  destruct (v_pos V k E). unfold full_len. lia.
Qed.

Lemma nth_fast_shape (k : nat) :
  k < nd ->
  nth k fast_shape 0 = if mem k ks then Z.to_nat (fast k) else nth k sh1 0.
Proof. intros Hk. unfold run_fast_shape, resized. now rewrite nth_tab. Qed.

Lemma mode_ok : negb (existsb (String.eqb mode) ["full"; "same"]%string) = false.
Proof. destruct (v_mode V) as [-> | ->]; reflexivity. Qed.

Lemma check_ok :
  foldM (fun (_ : unit) axis =>
           do a <- py_getitem sh1 (Z.of_nat axis) ;;
           do b <- py_getitem sh2 (Z.of_nat axis) ;;
           if negb (a =? b) then Raise ValueError_shape else Ok tt)
        (filter (fun ax => negb (existsb (Z.eqb (Z.of_nat ax)) axes)) (seq 0 nd)) tt
  = Ok tt.
Proof.
  assert (H : forall l u,
             (forall k, In k l -> k < nd /\ nth k sh1 0 = nth k sh2 0) ->
             foldM (fun (_ : unit) axis =>
                      do a <- py_getitem sh1 (Z.of_nat axis) ;;
                      do b <- py_getitem sh2 (Z.of_nat axis) ;;
                      if negb (a =? b) then Raise ValueError_shape else Ok tt) l u
             = Ok u).
  { induction l as [|k l IH]; intros u Hl; [reflexivity|].
    destruct (Hl k (or_introl eq_refl)) as [Hk He].
    simpl.
    rewrite (py_getitem_norm sh1 _ k 0) by (now apply norm_index_nonneg).
    rewrite (py_getitem_norm sh2 _ k 0)
      by (apply norm_index_nonneg; fold (ndim arr2); now rewrite (v_rank V)).
    simpl. rewrite He, Nat.eqb_refl. simpl.
    destruct u. apply IH. intros k' Hk'. apply Hl. now right. }
  apply H. intros k Hk. apply filter_In in Hk as [Hk Hf]. apply in_seq in Hk.
  split; [lia|]. apply (v_off V); [lia|].
  intros Hin. apply negb_true_iff in Hf.
  assert (Ht : existsb (Z.eqb (Z.of_nat k)) axes = true).
  { apply existsb_exists. exists (Z.of_nat k). split; auto. apply Z.eqb_refl. }
  congruence.
Qed.

Lemma final_shape_ok :
  foldM (fun final_shape axis =>
           do a <- py_getitem sh1 axis ;;
           do b <- py_getitem sh2 axis ;;
           py_setitem final_shape axis (Z.of_nat a + Z.of_nat b - 1)%Z)
        axes (map Z.of_nat sh1)
  = Ok (set_axes flen ks (map Z.of_nat sh1)).
Proof.
  apply (foldM_set_axes _ flen nd).
  - intros l ax k Hl Hn.
    rewrite (py_getitem_norm sh1 _ k 0) by exact Hn.
    rewrite (py_getitem_norm sh2 _ k 0) by (fold (ndim arr2); now rewrite (v_rank V)).
    simpl. apply py_setitem_norm. now rewrite Hl.
  - apply length_map.
  - apply (v_axes V).
Qed.

Lemma nth_final_shape_Z (k : nat) :
  k < nd ->
  nth k (set_axes flen ks (map Z.of_nat sh1)) 0%Z
  = if mem k ks then flen k else Z.of_nat (nth k sh1 0).
Proof.
  intros Hk. rewrite nth_set_axes.
  - now rewrite nth_map_of_nat.
  - intros k' Hk'. rewrite length_map. now apply ks_lt.
Qed.

Lemma fast_shape_ok :
  mapM (fun ax => do sz <- py_getitem (set_axes flen ks (map Z.of_nat sh1)) ax ;;
                  Ok (next_fast_len sz)) axes
  = Ok (map fast ks).
Proof.
  rewrite (mapM_axes _ (fun k => next_fast_len (nth k (set_axes flen ks (map Z.of_nat sh1)) 0%Z)) nd)
    with (ks := ks).
  - f_equal. apply map_ext_in. intros k Hk.
    rewrite nth_final_shape_Z by (now apply ks_lt).
    apply mem_In in Hk. now rewrite Hk.
  - intros ax k Hn.
    now rewrite (py_getitem_norm _ _ k 0%Z) by (now rewrite length_set_axes, length_map).
  - apply (v_axes V).
Qed.

(** The forward transform of an array of the shape of one of the images. *)
Lemma fft_ok (a : ndarray Q) :
  wf a -> shape a = sh1 \/ shape a = sh2 ->
  fftn (map fast ks) axes a = Ok (run_fft arr1 arr2 ks a).
Proof.
  intros Hwf Hsh.
  assert (Hnd : ndim a = nd).
  { unfold ndim. destruct Hsh as [-> | ->]; auto. apply (v_rank V). }
  rewrite (fftn_ok nd ks fast a axes Hwf Hnd (v_axes V)).
  - unfold run_fft, run_mask. f_equal. f_equal. f_equal.
    unfold run_fast_shape, resized. apply tab_ext. intros k Hk.
    destruct (mem k ks) eqn:E; auto.
    destruct Hsh as [-> | ->]; auto. symmetry. now apply off_axes_equal.
  - intros k Hk. pose proof (full_len_pos k Hk). pose proof (fast_len_ge k).
    destruct (v_pos V k Hk). split; [lia|].
    unfold full_len in *. destruct Hsh as [-> | ->]; lia.
Qed.

Lemma ifft_ok (X : spectrum) :
  shape (signal X) = fast_shape ->
  ifftn (map fast ks) axes X = Ok (signal X).
Proof.
  intros Hs. apply (ifftn_ok nd); [apply (v_axes V)| |].
  - rewrite Hs. apply length_fast_shape.
  - intros k Hk. rewrite Hs, nth_fast_shape by (now apply ks_lt).
    apply mem_In in Hk as Hm. rewrite Hm.
    pose proof (full_len_pos k Hk). pose proof (fast_len_ge k). lia.
Qed.

(** Lines 131 to 133. *)
Lemma crop_ok {T} `{Default T} (a : ndarray T) :
  shape a = fast_shape ->
  getitem a (map (fun sz => Slice (Some 0%Z) (Some sz) None)
               (set_axes flen ks (map Z.of_nat sh1)))
  = Ok (build final_shape (item a)).
Proof.
  intros Hs.
  assert (Hr : resolve (map (fun sz => Slice (Some 0%Z) (Some sz) None)
                          (set_axes flen ks (map Z.of_nat sh1))) (shape a)
               = Ok (tab (length (shape a)) (fun k => Span 0 1 (nth k final_shape 0)))).
  { apply resolve_nth.
    - now rewrite length_map, length_set_axes, length_map, Hs, length_fast_shape.
    - intros k Hk. rewrite Hs, length_fast_shape in Hk.
      rewrite (nth_indep _ _ (Slice (Some 0%Z) (Some 0%Z) None))
        by (now rewrite length_map, length_set_axes, length_map).
      rewrite (map_nth (fun sz => Slice (Some 0%Z) (Some sz) None)).
      rewrite nth_final_shape_Z, Hs, nth_fast_shape by assumption.
      unfold run_final_shape. rewrite nth_tab by assumption.
      destruct (mem k ks) eqn:E.
      + apply mem_In in E. pose proof (full_len_pos k E). pose proof (fast_len_ge k).
        rewrite slice_resolve_range by lia. do 2 f_equal. lia.
      + rewrite slice_resolve_range by lia. do 2 f_equal. lia. }
  rewrite (getitem_resolved _ _ _ Hr). f_equal. rewrite map_tab. cbn [sp_len].
  rewrite Hs, length_fast_shape.
  replace (tab nd (fun k => nth k final_shape 0)) with final_shape.
  - apply build_ext. intros idx Hb. f_equal.
    apply in_boundsb_length in Hb. rewrite length_final_shape in Hb.
    rewrite src_index_tab by assumption.
    symmetry. apply (tab_eq_iff _ _ _ 0); auto.
    intros k Hk. unfold span_src. simpl. lia.
  - apply (tab_eq_iff _ _ _ 0); auto. apply length_final_shape.
Qed.

(** Lines 136 to 138. *)
Lemma centered_same {T} `{Default T} (f : list nat -> T) :
  _centered (build final_shape f) sh1 axes
  = Ok (build sh1 (fun idx => item (build final_shape f) (center_index ks final_shape sh1 idx))).
Proof.
  rewrite (centered_ok _ _ _ ks).
  - rewrite shape_build. f_equal. f_equal. symmetry.
    unfold ndim. rewrite shape_build, length_final_shape.
    apply (tab_eq_iff _ _ _ 0); auto.
    intros k Hk. destruct (mem k ks) eqn:E; auto.
    now rewrite nth_final_shape, E.
  - unfold ndim. now rewrite shape_build, length_final_shape.
  - unfold ndim. rewrite shape_build, length_final_shape. apply (v_axes V).
  - intros k Hk. rewrite shape_build, nth_final_shape by (now apply ks_lt).
    apply mem_In in Hk as Hm. rewrite Hm. destruct (v_pos V k Hk). lia.
Qed.

(** Lines 142 and 151. *)
Lemma amax_ok (a : ndarray Q) :
  length (shape a) = nd ->
  (forall k, In k ks -> 1 <= nth k (shape a) 0) ->
  amax_keepdims a axes = Ok (batch_max arr1 ks a).
Proof.
  intros Hl Hpos. unfold amax_keepdims.
  assert (Hnd : ndim a = ndim arr1) by exact Hl. rewrite Hnd.
  pose proof (v_axes V) as Hax. unfold axes_of in Hax. rewrite Hax. cbn [bind].
  rewrite (nodupb_NoDup _ (v_nodup V)). cbn [negb].
  assert (E : existsb (Nat.eqb 0) (axes_shape (axis_mask nd ks) (shape a)) = false).
  { rewrite axis_mask_tab, axes_shape_tab by assumption.
    destruct (existsb _ _) eqn:E; auto.
    apply existsb_exists in E as [x [Hx Hx0]]. apply Nat.eqb_eq in Hx0. subst x.
    unfold tab in Hx. apply in_map_iff in Hx as [k [Hk Hin]].
    destruct (mem k ks) eqn:Em; [|discriminate].
    apply mem_In in Em. specialize (Hpos k Em). lia. }
  rewrite E. reflexivity.
Qed.

Lemma flip_run {T} `{Default T} (a : ndarray T) :
  shape a = sh2 -> _flip a (Some axes) = Ok (rotate ks a).
Proof.
  intros Hs. apply flip_ok. simpl. unfold ndim. rewrite Hs.
  fold (ndim arr2). rewrite (v_rank V). apply (v_axes V).
Qed.

Lemma final_shape_pos (k : nat) : In k ks -> 1 <= nth k final_shape 0.
Proof.
  intros Hk. rewrite nth_final_shape by (now apply ks_lt).
  apply mem_In in Hk as Hm. rewrite Hm. destruct (v_pos V k Hk). lia.
Qed.

(** On a valid input [mnxc] runs to its end, and its local variables hold
    the values of the run. *)
Lemma mnxc_body_valid :
  mnxc_body arr1 arr2 m1 m2 mode axes overlap_ratio
  = Ok (run_locals arr1 arr2 m1 m2 mode overlap_ratio ks).
Proof.
  unfold mnxc_body.
  rewrite mode_ok, check_ok. cbn [bind].
  rewrite final_shape_ok. cbn [bind].
  rewrite fast_shape_ok. cbn [bind].
  rewrite (setitem_mask_ok arr1) by apply (v_mask1 V). cbn [bind].
  rewrite (setitem_mask_ok arr2) by apply (v_mask2 V). cbn [bind].
  rewrite !flip_run by (try reflexivity; apply (v_mask2 V)). cbn [bind].
  rewrite !fft_ok;
    try (repeat apply wf_nd_map; first [apply wf_build | apply (v_wfm1 V)]);
    try solve [left; first [reflexivity | apply (v_mask1 V)]
              | right; first [reflexivity | apply (v_mask2 V)]].
  cbn [bind].
  rewrite !ifft_ok by reflexivity. cbn [bind].
  rewrite !crop_ok by reflexivity. cbn [bind].
  destruct (v_mode V) as [Hm | Hm]; rewrite Hm.
  - change (String.eqb "full" "same") with false. cbn [bind].
    rewrite !amax_ok
      by first [apply length_final_shape | intros k Hk; now apply final_shape_pos].
    cbn [bind].
    rewrite setitem_mask_from_ok by reflexivity. cbn [bind].
    rewrite setitem_mask_ok by reflexivity. cbn [bind].
    reflexivity.
  - change (String.eqb "same" "same") with true. cbn [bind].
    change (shape (nd_zip (fun (x : Q) (b : bool) => if b then 0%Q else x) arr1
                     (logical_not m1))) with sh1.
    rewrite !centered_same. cbn [bind].
    rewrite !amax_ok
      by first [reflexivity | intros k Hk; apply (v_pos V k Hk)].
    cbn [bind].
    rewrite setitem_mask_from_ok by reflexivity. cbn [bind].
    rewrite setitem_mask_ok by reflexivity. cbn [bind].
    reflexivity.
Qed.
End Valid.

(** ** Scalars *)

Lemma Qltb_lt (x y : Q) : Qltb x y = true <-> (x < y)%Q.
Proof.
  unfold Qltb. rewrite negb_true_iff. split.
  - intros H. apply Qnot_le_lt. intros Hle. apply Qle_bool_iff in Hle. congruence.
  - intros H. destruct (Qle_bool y x) eqn:E; auto.
    apply Qle_bool_iff in E. exfalso. now apply (Qlt_not_le x y).
Qed.

Lemma Qltb_ge (x y : Q) : Qltb x y = false <-> (y <= x)%Q.
Proof.
  unfold Qltb. rewrite negb_false_iff. apply Qle_bool_iff.
Qed.

Lemma fmax_ge_l (x y : Q) : (x <= fmax x y)%Q.
Proof.
  unfold fmax. destruct (Qltb x y) eqn:E.
  - apply Qltb_lt in E. now apply Qlt_le_weak.
  - apply Qle_refl.
Qed.

Lemma fmax_ge_r (x y : Q) : (y <= fmax x y)%Q.
Proof.
  unfold fmax. destruct (Qltb x y) eqn:E.
  - apply Qle_refl.
  - now apply Qltb_ge in E.
Qed.

Lemma fmax_cases (x y : Q) : fmax x y = x \/ fmax x y = y.
Proof. unfold fmax. destruct (Qltb x y); auto. Qed.

Lemma fold_fmax_ge (l : list Q) (x : Q) :
  (x <= fold_left fmax l x)%Q /\ forall y, In y l -> (y <= fold_left fmax l x)%Q.
Proof.
  revert x. induction l as [|z l IH]; intros x; simpl.
  - split; [apply Qle_refl|]. intros y [].
  - destruct (IH (fmax x z)) as [H1 H2]. split.
    + eapply Qle_trans; [apply fmax_ge_l|exact H1].
    + intros y [<-|Hy]; auto. eapply Qle_trans; [apply fmax_ge_r|exact H1].
Qed.

Lemma fold_fmax_In (l : list Q) (x : Q) : In (fold_left fmax l x) (x :: l).
Proof.
  revert x. induction l as [|z l IH]; intros x; simpl.
  - now left.
  - destruct (IH (fmax x z)) as [H|H].
    + rewrite <- H. destruct (fmax_cases x z) as [E|E]; rewrite E; auto.
    + right. now right.
Qed.

Lemma Qmax_list_ge (l : list Q) (y : Q) : In y l -> (y <= Qmax_list l)%Q.
Proof.
  destruct l as [|x l]; intros Hy; [destruct Hy|]. simpl.
  destruct (fold_fmax_ge l x) as [H1 H2]. destruct Hy as [<-|Hy]; auto.
Qed.

Lemma Qmax_list_In (l : list Q) : l <> [] -> In (Qmax_list l) l.
Proof.
  destruct l as [|x l]; intros Hl; [congruence|]. apply fold_fmax_In.
Qed.

Lemma clip1_range (x : Q) : (-1 <= clip1 (-1) 1 x <= 1)%Q.
Proof.
  unfold clip1.
  destruct (Qltb x (-1)) eqn:E1.
  - change (Qltb 1 (-1)) with false. cbv iota. split; [apply Qle_refl|discriminate].
  - apply Qltb_ge in E1. destruct (Qltb 1 x) eqn:E2.
    + split; [discriminate|apply Qle_refl].
    + apply Qltb_ge in E2. split; assumption.
Qed.

(** ** Broadcasting and batches *)

Lemma bcast_index_id (sh idx : list nat) :
  in_boundsb sh idx = true -> bcast_index sh idx = idx.
Proof.
  revert idx. induction sh as [|n sh IH]; intros [|i idx]; simpl; try discriminate; auto.
  intros H. apply andb_prop in H as [Hi H]. apply Nat.ltb_lt in Hi.
  rewrite (IH _ H). destruct (n =? 1) eqn:E; auto.
  apply Nat.eqb_eq in E. f_equal. lia.
Qed.

Lemma get_nd_zip {A B C} `{Default A} `{Default B}
  (f : A -> B -> C) (a : ndarray A) (b : ndarray B) (idx : list nat) :
  in_boundsb (shape a) idx = true ->
  get (nd_zip f a b) idx = Some (f (item a idx) (item b (bcast_index (shape b) idx))).
Proof. intros Hb. unfold nd_zip. now rewrite get_build. Qed.

Lemma item_nd_zip {A B C} `{Default A} `{Default B} `{Default C}
  (f : A -> B -> C) (a : ndarray A) (b : ndarray B) (idx : list nat) :
  in_boundsb (shape a) idx = true ->
  item (nd_zip f a b) idx = f (item a idx) (item b (bcast_index (shape b) idx)).
Proof. intros Hb. unfold item at 1. now rewrite get_nd_zip. Qed.

Section Batch.
Variable nd : nat.
Variable ks : list nat.
Variable sh : list nat.
Hypothesis Hsh : length sh = nd.

Local Abbreviation m := (axis_mask nd ks).

Lemma select_in_bounds (j idx : list nat) :
  in_boundsb (axes_shape m sh) j = true ->
  in_boundsb sh idx = true ->
  in_boundsb sh (select m j idx) = true.
Proof.
  intros Hj Hi.
  rewrite axis_mask_tab, axes_shape_tab in Hj by assumption.
  apply in_boundsb_nth in Hj as [Hjl Hj]. rewrite length_tab in Hjl, Hj.
  apply in_boundsb_nth in Hi as [Hil Hi]. rewrite Hsh in Hil, Hi.
  rewrite axis_mask_tab, select_tab by assumption.
  apply in_boundsb_nth. rewrite length_tab, Hsh. split; auto.
  intros k Hk. rewrite nth_tab by assumption.
  specialize (Hj k Hk). rewrite nth_tab in Hj by assumption.
  specialize (Hi k Hk). destruct (mem k ks); auto.
Qed.

Lemma select_agree (j idx : list nat) :
  length j = nd -> length idx = nd -> agree_off nd ks idx (select m j idx).
Proof.
  intros Hj Hi k Hk Hm.
  rewrite axis_mask_tab, select_tab, nth_tab by assumption. now rewrite Hm.
Qed.

(** Every index of the batch of [idx] is selected by some [j]. *)
Lemma select_complete (idx idx' : list nat) :
  in_boundsb sh idx = true -> in_boundsb sh idx' = true ->
  agree_off nd ks idx idx' ->
  exists j, In j (indices (axes_shape m sh)) /\ select m j idx = idx'.
Proof.
  intros Hi Hi' Hag.
  apply in_boundsb_nth in Hi as [Hil Hi]. rewrite Hsh in Hil, Hi.
  apply in_boundsb_nth in Hi' as [Hil' Hi']. rewrite Hsh in Hil', Hi'.
  exists (tab nd (fun k => if mem k ks then nth k idx' 0 else 0)). split.
  - apply In_indices. rewrite axis_mask_tab, axes_shape_tab by assumption.
    apply in_boundsb_nth. rewrite !length_tab. split; auto.
    intros k Hk. rewrite !nth_tab by assumption.
    specialize (Hi' k Hk). destruct (mem k ks); lia.
  - rewrite axis_mask_tab, select_tab by (auto; apply length_tab).
    symmetry. apply (tab_eq_iff _ _ _ 0); auto.
    intros k Hk. rewrite nth_tab by assumption.
    destruct (mem k ks) eqn:E; auto.
Qed.

Lemma select_bcast (j idx : list nat) :
  length j = nd -> in_boundsb sh idx = true ->
  select m j (bcast_index (keep_shape m sh) idx) = select m j idx.
Proof.
  intros Hj Hi.
  apply in_boundsb_nth in Hi as [Hil Hi]. rewrite Hsh in Hil, Hi.
  assert (Hkl : length (keep_shape m sh) = nd).
  { now rewrite axis_mask_tab, keep_shape_tab, length_tab. }
  rewrite axis_mask_tab, bcast_index_tab by (rewrite <- axis_mask_tab; congruence).
  rewrite <- axis_mask_tab, Hkl.
  rewrite axis_mask_tab, !select_tab by (auto; apply length_tab).
  apply tab_ext. intros k Hk. rewrite nth_tab by assumption.
  destruct (mem k ks) eqn:E; auto.
  rewrite keep_shape_tab, nth_tab by assumption. rewrite E.
  destruct (nth k sh 0 =? 1) eqn:E1; auto.
  apply Nat.eqb_eq in E1. specialize (Hi k Hk). lia.
Qed.

Lemma bcast_keep_in_bounds (idx : list nat) :
  in_boundsb sh idx = true ->
  in_boundsb (keep_shape m sh) (bcast_index (keep_shape m sh) idx) = true.
Proof.
  intros Hi.
  apply in_boundsb_nth in Hi as [Hil Hi]. rewrite Hsh in Hil, Hi.
  assert (Hkl : length (keep_shape m sh) = nd).
  { now rewrite axis_mask_tab, keep_shape_tab, length_tab. }
  rewrite bcast_index_tab by congruence. rewrite Hkl.
  apply in_boundsb_nth. rewrite length_tab, Hkl. split; auto.
  intros k Hk. rewrite nth_tab by assumption.
  rewrite axis_mask_tab, keep_shape_tab, nth_tab by assumption.
  specialize (Hi k Hk).
  destruct (mem k ks) eqn:E; simpl; [lia|].
  destruct (nth k sh 0 =? 1) eqn:E1; auto. lia.
Qed.

Lemma indices_axes_shape_length (j : list nat) :
  In j (indices (axes_shape m sh)) -> length j = nd.
Proof.
  intros Hj. apply In_indices, in_boundsb_length in Hj.
  now rewrite Hj, axis_mask_tab, axes_shape_tab, length_tab.
Qed.
End Batch.

(** ** The result of a valid run *)

Section BatchMax.
Variable nd : nat.
Variable ks : list nat.
Variable a : ndarray Q.
Hypothesis Hnd : length (shape a) = nd.

Lemma batch_max_at_spec (idx : list nat) (M : Q) :
  in_boundsb (shape a) idx = true ->
  is_batch_max a ks idx M -> (M == batch_max_at nd ks a idx)%Q.
Proof.
  intros Hb [[idx' [Hb' [Hag HM]]] Hub]. unfold ndim in Hag, Hub. rewrite Hnd in Hag, Hub.
  apply Qle_antisym.
  - rewrite <- HM. apply Qmax_list_ge. unfold batch_max_at.
    destruct (select_complete nd ks (shape a) Hnd idx idx' Hb Hb' Hag) as [j [Hj Hs]].
    apply in_map_iff. exists j. split; auto. now rewrite Hs.
  - unfold batch_max_at.
    destruct (select_complete nd ks (shape a) Hnd idx idx Hb Hb) as [j0 [Hj0 _]].
    { intros k _ _. reflexivity. }
    match goal with |- (Qmax_list ?l <= _)%Q => assert (Hin : In (Qmax_list l) l) end.
    { apply Qmax_list_In. intros Hnil. apply (in_map (fun j => item a (select (axis_mask nd ks) j idx))) in Hj0.
      rewrite Hnil in Hj0. destruct Hj0. }
    apply in_map_iff in Hin as [j [Hj Hin]]. rewrite <- Hj.
    apply Hub.
    + apply select_in_bounds; auto. now apply In_indices.
    + apply select_agree; auto.
      * now apply (indices_axes_shape_length nd ks (shape a)).
      * apply in_boundsb_length in Hb. congruence.
Qed.

Lemma item_batch_max (arr1 : ndarray Q) (idx : list nat) :
  ndim arr1 = nd ->
  in_boundsb (shape a) idx = true ->
  item (batch_max arr1 ks a) (bcast_index (shape (batch_max arr1 ks a)) idx)
  = batch_max_at nd ks a idx.
Proof.
  intros H1 Hb. unfold batch_max, run_mask. rewrite H1, shape_build.
  rewrite item_build by (now apply bcast_keep_in_bounds).
  unfold batch_max_at. f_equal. apply map_ext_in. intros j Hj. f_equal.
  apply select_bcast; auto. now apply (indices_axes_shape_length nd ks (shape a)).
Qed.
End BatchMax.

Section RunFacts.
Variables (arr1 arr2 : ndarray Q) (m1 m2 : ndarray bool).
Variable mode : string.
Variable axes : list Z.
Variable overlap_ratio : Q.
Variable ks : list nat.
Hypothesis V : valid_input arr1 arr2 m1 m2 mode axes ks.

Local Abbreviation out_shape := (run_out_shape arr1 arr2 mode ks).
Local Abbreviation r_overlap := (run_overlap arr1 arr2 m1 m2 mode ks).
Local Abbreviation r_denom := (run_denom arr1 arr2 m1 m2 mode ks).
Local Abbreviation r_numerator := (run_numerator arr1 arr2 m1 m2 mode ks).
Local Abbreviation r_quotient := (run_quotient arr1 arr2 m1 m2 mode ks).
Local Abbreviation r_out := (run_out arr1 arr2 m1 m2 mode overlap_ratio ks).

Lemma shape_run_crop (a : ndarray Q) : shape (run_crop arr1 arr2 mode ks a) = out_shape.
Proof. unfold run_crop, run_out_shape. now destruct (String.eqb mode "same"). Qed.

Lemma length_out_shape : length out_shape = ndim arr1.
Proof.
  unfold run_out_shape. destruct (String.eqb mode "same"); auto. apply length_tab.
Qed.

Lemma nth_out_shape (k : nat) :
  k < ndim arr1 ->
  nth k out_shape 0
  = if mem k ks
    then (if String.eqb mode "same" then nth k (shape arr1) 0
          else nth k (shape arr1) 0 + nth k (shape arr2) 0 - 1)
    else nth k (shape arr1) 0.
Proof.
  intros Hk. unfold run_out_shape. destruct (String.eqb mode "same").
  - now destruct (mem k ks).
  - now apply (nth_final_shape _ _ _ _ _ _ _ V).
Qed.

Lemma shape_run_out : shape r_out = out_shape.
Proof. apply shape_run_crop. Qed.

(** Lines 146 to 152 at one offset. *)
Lemma get_run_out (idx : list nat) :
  in_boundsb out_shape idx = true ->
  get r_out idx
  = Some (if Qltb (item r_overlap idx)
                  (overlap_ratio * batch_max_at (ndim arr1) ks r_overlap idx)
          then 0%Q
          else clip1 (-1) 1 (item r_quotient idx)).
Proof.
  intros Hb. unfold run_out.
  assert (Hov : shape r_overlap = out_shape) by apply shape_run_crop.
  assert (Hq : shape r_quotient = out_shape) by apply shape_run_crop.
  rewrite get_nd_zip by (cbn [shape nd_map]; now rewrite Hq).
  f_equal.
  rewrite item_nd_map by (try apply wf_build; now rewrite Hq).
  cbn [shape nd_zip build]. rewrite Hov, (bcast_index_id _ _ Hb).
  rewrite item_nd_zip by (now rewrite Hov).
  unfold run_number_px_threshold.
  rewrite item_nd_map.
  - rewrite (item_batch_max (ndim arr1)); auto.
    + rewrite Hov. apply length_out_shape.
    + now rewrite Hov.
  - apply wf_build.
  - cbn [shape nd_map]. unfold batch_max, run_mask. rewrite shape_build.
    apply bcast_keep_in_bounds; rewrite Hov; auto. apply length_out_shape.
Qed.

Lemma mnxc_valid :
  mnxc arr1 arr2 m1 m2 mode axes overlap_ratio = Ok r_out.
Proof. unfold mnxc. now rewrite (mnxc_body_valid _ _ _ _ _ _ _ _ V). Qed.
End RunFacts.

Section Suppression.
Variables (arr1 arr2 : ndarray Q) (m1 m2 : ndarray bool).
Variable mode : string.
Variable axes : list Z.
Variable overlap_ratio : Q.
Variable ks : list nat.
Hypothesis V : valid_input arr1 arr2 m1 m2 mode axes ks.

(** Line 152 at one offset, against the maximum of the batch. *)
Lemma suppressed_zero (idx : list nat) (M : Q) :
  in_boundsb (run_out_shape arr1 arr2 mode ks) idx = true ->
  is_batch_max (run_overlap arr1 arr2 m1 m2 mode ks) ks idx M ->
  (item (run_overlap arr1 arr2 m1 m2 mode ks) idx < overlap_ratio * M)%Q ->
  get (run_out arr1 arr2 m1 m2 mode overlap_ratio ks) idx = Some 0%Q.
Proof.
  intros Hb HM Hlt. rewrite get_run_out by exact Hb.
  assert (Hs : shape (run_overlap arr1 arr2 m1 m2 mode ks) = run_out_shape arr1 arr2 mode ks)
    by apply shape_run_crop.
  apply (batch_max_at_spec (ndim arr1)) in HM.
  - rewrite HM in Hlt. apply Qltb_lt in Hlt. now rewrite Hlt.
  - rewrite Hs. apply length_out_shape.
  - now rewrite Hs.
Qed.

Lemma run_out_range (idx : list nat) :
  in_boundsb (run_out_shape arr1 arr2 mode ks) idx = true ->
  exists v, get (run_out arr1 arr2 m1 m2 mode overlap_ratio ks) idx = Some v /\
            (-1 <= v <= 1)%Q.
Proof.
  intros Hb. rewrite get_run_out by exact Hb.
  eexists. split; [reflexivity|].
  destruct (Qltb _ _).
  - split; discriminate.
  - apply clip1_range.
Qed.
End Suppression.

(** ** The check of lines 69 to 73 *)

Lemma shape_check_raises (sh1 sh2 : list nat) (l : list nat) (k : nat) :
  length sh2 = length sh1 ->
  (forall j, In j l -> j < length sh1) ->
  In k l ->
  nth k sh1 0 <> nth k sh2 0 ->
  forall u,
    foldM (fun (_ : unit) axis =>
             do a <- py_getitem sh1 (Z.of_nat axis) ;;
             do b <- py_getitem sh2 (Z.of_nat axis) ;;
             if negb (a =? b) then Raise ValueError_shape else Ok tt) l u
    = Raise ValueError_shape.
Proof.
  intros Hl. induction l as [|j l IH]; intros Hlt Hin Hne u; [destruct Hin|].
  simpl.
  rewrite (py_getitem_norm sh1 _ j 0)
    by (apply norm_index_nonneg, Hlt; now left).
  rewrite (py_getitem_norm sh2 _ j 0)
    by (apply norm_index_nonneg; rewrite Hl; apply Hlt; now left).
  simpl. destruct (nth j sh1 0 =? nth j sh2 0) eqn:E; simpl.
  - destruct Hin as [->|Hin].
    + apply Nat.eqb_eq in E. contradiction.
    + apply IH; auto. intros j' Hj'. apply Hlt. now right.
  - reflexivity.
Qed.

(** X1: whatever the axes, two images of one rank whose sizes differ along an
    axis whose non-negative index is not listed in [axes] are rejected with
    ValueError (lines 69 to 73); a transform axis listed by its negative index
    is such an axis. *)
Lemma mnxc_shape_check
  (arr1 arr2 : ndarray Q) (m1 m2 : ndarray bool) (mode : string) (axes : list Z)
  (overlap_ratio : Q) (k : nat) :
  mode = "full"%string \/ mode = "same"%string ->
  ndim arr2 = ndim arr1 ->
  k < ndim arr1 ->
  ~ In (Z.of_nat k) axes ->
  nth k (shape arr1) 0 <> nth k (shape arr2) 0 ->
  mnxc arr1 arr2 m1 m2 mode axes overlap_ratio = Raise ValueError_shape.
Proof.
  intros Hm Hr Hk Hn Hne. unfold mnxc, mnxc_body.
  assert (E : negb (existsb (String.eqb mode) ["full"; "same"]%string) = false)
    by (destruct Hm as [-> | ->]; reflexivity).
  rewrite E.
  rewrite (shape_check_raises (shape arr1) (shape arr2) _ k); auto.
  - intros j Hj. apply filter_In in Hj as [Hj _]. apply in_seq in Hj. unfold ndim in Hj. lia.
  - apply filter_In. split; [apply in_seq; lia|].
    apply negb_true_iff. destruct (existsb _ axes) eqn:Ex; auto.
    apply existsb_exists in Ex as [x [Hx Hxe]]. apply Z.eqb_eq in Hxe. subst x. contradiction.
Qed.

(** ** Disjoint masks *)

Lemma Qsum_zero (l : list Q) : (forall x, In x l -> (x == 0)%Q) -> (Qsum l == 0)%Q.
Proof.
  induction l as [|x l IH]; intros Hl; simpl.
  - reflexivity.
  - rewrite (Hl x (or_introl eq_refl)), IH.
    + reflexivity.
    + intros y Hy. apply Hl. now right.
Qed.

Lemma Qrint_zero (x : Q) : (x == 0)%Q -> Qrint x = 0%Q.
Proof.
  intros Hx.
  assert (Hf : Qfloor x = 0%Z) by (now rewrite (Qfloor_comp x 0 Hx)).
  assert (Hc : (x - inject_Z 0 ?= 1 # 2)%Q = Lt).
  { apply Qlt_alt. rewrite Hx. reflexivity. }
  unfold Qrint. rewrite Hf, Hc. reflexivity.
Qed.

Lemma Qsqrt_zero (x : Q) : (x == 0)%Q -> (Qsqrt x == 0)%Q.
Proof.
  intros Hx. unfold Qeq in Hx. simpl in Hx. rewrite Z.mul_1_r in Hx.
  unfold Qsqrt. rewrite Hx. reflexivity.
Qed.

Lemma Qmax_list_nonneg (l : list Q) :
  (forall x, In x l -> (0 <= x)%Q) -> (0 <= Qmax_list l)%Q.
Proof.
  destruct l as [|x l]; intros Hl; simpl.
  - apply Qle_refl.
  - destruct (fold_fmax_ge l x) as [H _].
    eapply Qle_trans; [|exact H]. apply Hl. now left.
Qed.

Lemma item_build_cases {T} `{Default T} (sh : list nat) (f : list nat -> T) (idx : list nat) :
  item (build sh f) idx = f idx \/ item (build sh f) idx = default.
Proof.
  destruct (in_boundsb sh idx) eqn:E.
  - left. now apply item_build.
  - right. now apply item_out_of_bounds.
Qed.

Lemma item_astype_float (mask : ndarray bool) (p : list nat) :
  wf mask -> item (astype_float mask) p = if item mask p then 1%Q else 0%Q.
Proof.
  intros Hwf. destruct (in_boundsb (shape mask) p) eqn:E.
  - unfold astype_float. now rewrite item_nd_map.
  - rewrite !item_out_of_bounds by exact E. reflexivity.
Qed.

Lemma item_logical_not (mask : ndarray bool) (p : list nat) :
  wf mask -> in_boundsb (shape mask) p = true ->
  item (logical_not mask) p = negb (item mask p).
Proof. intros Hwf Hb. unfold logical_not. now rewrite item_nd_map. Qed.

Lemma supported_astype_float (mask : ndarray bool) :
  wf mask -> supported (astype_float mask) mask.
Proof. intros Hwf q Hq. rewrite item_astype_float by assumption. now rewrite Hq. Qed.

Lemma supported_zero_unmasked (a : ndarray Q) (mask : ndarray bool) :
  wf mask -> shape mask = shape a -> supported (zero_unmasked a mask) mask.
Proof.
  intros Hwf Hs q Hq. destruct (in_boundsb (shape a) q) eqn:E.
  - unfold zero_unmasked. rewrite item_nd_zip by exact E.
    cbn [shape logical_not nd_map]. rewrite Hs, (bcast_index_id _ _ E).
    rewrite item_logical_not by (auto; now rewrite Hs). rewrite Hq. reflexivity.
  - rewrite item_out_of_bounds by exact E. reflexivity.
Qed.

Lemma supported_square (Y : ndarray Q) (mask : ndarray bool) :
  wf Y -> supported Y mask -> supported (square Y) mask.
Proof.
  intros Hwf HY q Hq. destruct (in_boundsb (shape Y) q) eqn:E.
  - unfold square. rewrite item_nd_map by assumption. rewrite (HY q Hq). reflexivity.
  - rewrite item_out_of_bounds by exact E. reflexivity.
Qed.

Section Disjoint.
Variables (arr1 arr2 : ndarray Q) (m1 m2 : ndarray bool).
Variable mode : string.
Variable axes : list Z.
Variable overlap_ratio : Q.
Variable ks : list nat.
Hypothesis V : valid_input arr1 arr2 m1 m2 mode axes ks.
Hypothesis D : disjoint_masks m1 m2 ks.

Local Abbreviation nd := (ndim arr1).
Local Abbreviation S := (run_fast_shape arr1 arr2 ks).
Local Abbreviation m := (run_mask arr1 ks).
Local Abbreviation rmm_fft := (run_rotated_moving_mask_fft arr1 arr2 m2 ks).

(** One term of the correlation of the rotated moving mask with an array
    supported on the fixed mask. *)
Lemma disjoint_term (Y : ndarray Q) (idx j : list nat) :
  supported Y m1 ->
  length idx = nd -> length j = nd ->
  (item (build S (item (astype_float (rotate ks m2)))) (select m j idx)
   * item (build S (item Y)) (conv_partner m S idx j) == 0)%Q.
Proof.
  intros HY Hi Hj.
  set (p' := select m j idx). set (q' := conv_partner m S idx j).
  assert (HA : item (astype_float (rotate ks m2)) p' = 0%Q \/ (item Y q' == 0)%Q).
  { rewrite item_astype_float by apply wf_build.
    destruct (item (rotate ks m2) p') eqn:Er; [|now left]. right.
    destruct (item m1 q') eqn:E1; [|now apply HY]. exfalso.
    assert (Hbp : in_boundsb (shape m2) p' = true).
    { destruct (in_boundsb (shape m2) p') eqn:E; auto.
      unfold rotate in Er. rewrite item_out_of_bounds in Er by exact E. discriminate. }
    assert (Hbq : in_boundsb (shape m1) q' = true).
    { destruct (in_boundsb (shape m1) q') eqn:E; auto.
      rewrite item_out_of_bounds in E1 by exact E. discriminate. }
    unfold rotate in Er. rewrite item_build in Er by exact Hbp.
    apply (D q' (flip_index ks (shape m2) p')); auto.
    - apply flip_index_in_bounds. exact Hbp.
    - unfold ndim. rewrite (v_mask1 V). intros k Hk Hm.
      assert (Hl2 : length (shape m2) = nd).
      { rewrite (v_mask2 V). apply (v_rank V). }
      unfold flip_index. rewrite Hl2, nth_tab, Hm by assumption.
      unfold p', q', run_mask.
      rewrite axis_mask_tab, select_tab, conv_partner_tab, !nth_tab; auto.
      + now rewrite Hm.
      + apply length_tab. }
  destruct (item_build_cases S (item (astype_float (rotate ks m2))) p') as [-> | ->];
    destruct (item_build_cases S (item Y) q') as [-> | ->];
    try (change (@default Q Default_Q) with 0%Q);
    try apply Qmult_0_r; try apply Qmult_0_l.
  destruct HA as [-> | ->]; [apply Qmult_0_l | apply Qmult_0_r].
Qed.

(** The correlation of the rotated moving mask with an array supported on
    the fixed mask vanishes on the whole padded grid. *)
Lemma disjoint_conv (Y : ndarray Q) (idx : list nat) :
  supported Y m1 ->
  in_boundsb S idx = true ->
  (item (signal (spec_mul rmm_fft (run_fft arr1 arr2 ks Y))) idx == 0)%Q.
Proof.
  intros HY Hb. unfold spec_mul, run_rotated_moving_mask_fft, run_fft.
  cbn [signal transform_axes]. unfold circ_conv. rewrite shape_build.
  rewrite item_build by exact Hb. apply Qsum_zero.
  intros x Hx. apply in_map_iff in Hx as [j [<- Hj]].
  apply disjoint_term; auto.
  - apply in_boundsb_length in Hb. rewrite Hb. apply length_tab.
  - apply (indices_axes_shape_length nd ks S); [apply length_tab|exact Hj].
Qed.

Lemma disjoint_overlap_padded (idx : list nat) :
  in_boundsb S idx = true ->
  item (run_overlap_padded arr1 arr2 m1 m2 ks) idx = eps.
Proof.
  intros Hb. unfold run_overlap_padded.
  rewrite !item_nd_map; auto; try apply wf_nd_map; try apply wf_build.
  rewrite Qrint_zero; [reflexivity|].
  apply disjoint_conv; auto. apply supported_astype_float, (v_wfm1 V).
Qed.

Lemma disjoint_fixed_denom (idx : list nat) :
  in_boundsb S idx = true ->
  (item (run_fixed_denom arr1 arr2 m1 m2 ks) idx == 0)%Q.
Proof.
  intros Hb. unfold run_fixed_denom.
  rewrite item_nd_map; auto; try apply wf_build.
  rewrite item_nd_zip by exact Hb.
  cbn [shape nd_zip build square nd_map]. change (shape _) with S at 1.
  rewrite (bcast_index_id _ _ Hb).
  rewrite item_nd_zip by exact Hb.
  assert (H1 : (item (signal (spec_mul rmm_fft
                   (run_fft arr1 arr2 ks (square (run_fixed_image arr1 m1))))) idx == 0)%Q).
  { apply disjoint_conv; auto. apply supported_square; [apply wf_build|].
    apply supported_zero_unmasked; [apply (v_wfm1 V)|apply (v_mask1 V)]. }
  assert (H2 : (item (square (run_masked_correlated_fixed_fft arr1 arr2 m1 m2 ks)) idx == 0)%Q).
  { unfold square. rewrite item_nd_map; auto; try apply wf_build.
    unfold run_masked_correlated_fixed_fft, run_fixed_fft.
    rewrite disjoint_conv; auto; [reflexivity|].
    apply supported_zero_unmasked; [apply (v_wfm1 V)|apply (v_mask1 V)]. }
  unfold fmax.
  match goal with |- ((if ?b then _ else _) == _)%Q => destruct b end.
  - reflexivity.
  - rewrite H1, H2. unfold Qdiv. rewrite Qmult_0_l. reflexivity.
Qed.

Lemma disjoint_denom_padded (idx : list nat) :
  (item (run_denom_padded arr1 arr2 m1 m2 ks) idx == 0)%Q.
Proof.
  destruct (in_boundsb S idx) eqn:Hb.
  - unfold run_denom_padded. rewrite item_nd_map; auto; try apply wf_build.
    apply Qsqrt_zero. rewrite item_nd_zip by exact Hb.
    rewrite (disjoint_fixed_denom idx Hb). apply Qmult_0_l.
  - rewrite item_out_of_bounds by exact Hb. reflexivity.
Qed.
Lemma fast_covers_final (idx : list nat) :
  in_boundsb (run_final_shape arr1 arr2 ks) idx = true -> in_boundsb S idx = true.
Proof.
  apply in_boundsb_mono.
  - unfold run_final_shape, run_fast_shape, resized. now rewrite !length_tab.
  - unfold run_final_shape at 1. rewrite length_tab. intros k Hk.
    unfold run_final_shape, run_fast_shape, resized. rewrite !nth_tab by assumption.
    destruct (mem k ks) eqn:E; auto.
    pose proof (fast_len_ge arr1 arr2 k). lia.
Qed.

Lemma center_in_final (idx : list nat) :
  in_boundsb (shape arr1) idx = true ->
  in_boundsb (run_final_shape arr1 arr2 ks)
    (center_index ks (run_final_shape arr1 arr2 ks) (shape arr1) idx) = true.
Proof.
  intros Hb. apply in_boundsb_nth in Hb as [Hl Hb].
  apply in_boundsb_nth. unfold center_index.
  rewrite length_tab. split; auto.
  rewrite (length_final_shape arr1 arr2 ks). intros k Hk.
  rewrite nth_tab by assumption.
  rewrite (nth_final_shape _ _ _ _ _ _ _ V) by assumption.
  specialize (Hb k Hk).
  destruct (mem k ks) eqn:E; auto.
  apply mem_In in E. destruct (v_pos V k E) as [H1 H2].
  pose proof (Nat.Div0.div_le_upper_bound
                (nth k (shape arr1) 0 + nth k (shape arr2) 0 - 1 - nth k (shape arr1) 0) 2
                (nth k (shape arr1) 0 + nth k (shape arr2) 0 - 1 - nth k (shape arr1) 0)) as Hd.
  generalize dependent
    ((nth k (shape arr1) 0 + nth k (shape arr2) 0 - 1 - nth k (shape arr1) 0) / 2).
  intros q Hq. lia.
Qed.

(** Every value of a cropped array is a value of the padded one. *)
Lemma crop_item (X : ndarray Q) (idx : list nat) :
  in_boundsb (run_out_shape arr1 arr2 mode ks) idx = true ->
  exists idx', in_boundsb S idx' = true /\ item (run_crop arr1 arr2 mode ks X) idx = item X idx'.
Proof.
  unfold run_out_shape, run_crop. destruct (String.eqb mode "same"); intros Hb.
  - exists (center_index ks (run_final_shape arr1 arr2 ks) (shape arr1) idx).
    pose proof (center_in_final idx Hb) as Hc. split.
    + now apply fast_covers_final.
    + rewrite item_build by exact Hb. now rewrite item_build.
  - exists idx. split.
    + now apply fast_covers_final.
    + now rewrite item_build.
Qed.

Lemma wf_run_crop (X : ndarray Q) : wf (run_crop arr1 arr2 mode ks X).
Proof. unfold run_crop. destruct (String.eqb mode "same"); apply wf_build. Qed.

Lemma disjoint_overlap (idx : list nat) :
  in_boundsb (run_out_shape arr1 arr2 mode ks) idx = true ->
  get (run_overlap arr1 arr2 m1 m2 mode ks) idx = Some eps.
Proof.
  intros Hb. unfold run_overlap.
  rewrite get_Some_item by (try apply wf_run_crop; now rewrite shape_run_crop).
  destruct (crop_item (run_overlap_padded arr1 arr2 m1 m2 ks) idx Hb) as [idx' [Hb' ->]].
  now rewrite disjoint_overlap_padded.
Qed.

Lemma disjoint_denom (idx : list nat) :
  (item (run_denom arr1 arr2 m1 m2 mode ks) idx == 0)%Q.
Proof.
  unfold run_denom, run_crop. destruct (String.eqb mode "same").
  - destruct (item_build_cases (shape arr1)
                (fun idx => item (build (run_final_shape arr1 arr2 ks)
                                    (item (run_denom_padded arr1 arr2 m1 m2 ks)))
                              (center_index ks (run_final_shape arr1 arr2 ks) (shape arr1) idx))
                idx) as [-> | ->]; [|reflexivity].
    destruct (item_build_cases (run_final_shape arr1 arr2 ks)
                (item (run_denom_padded arr1 arr2 m1 m2 ks))
                (center_index ks (run_final_shape arr1 arr2 ks) (shape arr1) idx))
      as [-> | ->]; [|reflexivity].
    apply disjoint_denom_padded.
  - destruct (item_build_cases (run_final_shape arr1 arr2 ks)
                (item (run_denom_padded arr1 arr2 m1 m2 ks)) idx) as [-> | ->]; [|reflexivity].
    apply disjoint_denom_padded.
Qed.

Lemma run_tol_nonneg (p : list nat) :
  (0 <= item (run_tol arr1 arr2 m1 m2 mode ks) p)%Q.
Proof.
  unfold run_tol.
  destruct (in_boundsb (shape (batch_max arr1 ks (nd_map Qabs (run_denom arr1 arr2 m1 m2 mode ks)))) p)
    eqn:Hb.
  - rewrite item_nd_map by (auto; apply wf_build).
    apply Qmult_le_0_compat; [discriminate|].
    unfold batch_max in *. rewrite shape_build in Hb. rewrite item_build by exact Hb.
    apply Qmax_list_nonneg. intros x Hx. apply in_map_iff in Hx as [j [<- _]].
    match goal with |- (0 <= item (nd_map Qabs ?a) ?q)%Q =>
      destruct (in_boundsb (shape a) q) eqn:Hq
    end.
    + rewrite item_nd_map by (auto; apply wf_run_crop). apply Qabs_nonneg.
    + rewrite item_out_of_bounds by exact Hq. apply Qle_refl.
  - rewrite item_out_of_bounds by exact Hb. apply Qle_refl.
Qed.

Lemma disjoint_quotient (idx : list nat) :
  in_boundsb (run_out_shape arr1 arr2 mode ks) idx = true ->
  item (run_quotient arr1 arr2 m1 m2 mode ks) idx = 0%Q.
Proof.
  intros Hb. unfold run_quotient.
  assert (Hs : shape (run_denom arr1 arr2 m1 m2 mode ks) = run_out_shape arr1 arr2 mode ks)
    by apply shape_run_crop.
  rewrite item_build by (now rewrite Hs).
  assert (Hnz : item (run_nonzero_indices arr1 arr2 m1 m2 mode ks) idx = false).
  { unfold run_nonzero_indices. rewrite item_nd_zip by (now rewrite Hs).
    apply Qltb_ge. rewrite disjoint_denom. apply run_tol_nonneg. }
  rewrite Hnz. unfold zeros_like.
  rewrite item_nd_map; auto; [apply wf_run_crop | now rewrite Hs].
Qed.

Lemma disjoint_out (idx : list nat) :
  in_boundsb (run_out_shape arr1 arr2 mode ks) idx = true ->
  get (run_out arr1 arr2 m1 m2 mode overlap_ratio ks) idx = Some 0%Q.
Proof.
  intros Hb. rewrite get_run_out by exact Hb. rewrite disjoint_quotient by exact Hb.
  now destruct (Qltb _ _).
Qed.
End Disjoint.

(** ** The model at work *)

Example flip_last_axis :
  _flip arr23 (Some [(-1)%Z]) = Ok (mk_ndarray [2; 3] [3; 2; 1; 6; 5; 4]%Q).
Proof. reflexivity. Qed.

Example flip_all_axes :
  _flip arr23 None = Ok (mk_ndarray [2; 3] [6; 5; 4; 3; 2; 1]%Q).
Proof. reflexivity. Qed.

Example flip_axis_out_of_range : _flip arr23 (Some [2%Z]) = Raise IndexError.
Proof. reflexivity. Qed.

Example centered_odd_difference :
  _centered arr23 [2; 2] [1%Z] = Ok (mk_ndarray [2; 2] [1; 2; 4; 5]%Q).
Proof. reflexivity. Qed.

Example centered_even_difference :
  _centered arr23 [2; 1] [1%Z] = Ok (mk_ndarray [2; 1] [2; 5]%Q).
Proof. reflexivity. Qed.

(** On an array of rank 2 the default axes are the axes 0 and 1. *)
Example default_axes_rank_2 : axes_of 2 default_axes [0; 1].
Proof.
  unfold axes_of, default_axes. cbn [mapM].
  rewrite (norm_index_negative 2 (-2)), (norm_index_negative 2 (-1)) by lia.
  reflexivity.
Qed.

Example next_fast_len_7 : next_fast_len 7 = 8%Z.
Proof. reflexivity. Qed.

Example next_fast_len_13 : next_fast_len 13 = 15%Z.
Proof. reflexivity. Qed.

(** The autocorrelation of a 3x3 image: a 5x5 surface, the overlap counts of
    a full correlation, 1 at the centre and 0 at the corner, whose single
    co-valid sample is below 3/10 of the 9 of the centre. *)
Example mnxc_autocorrelation :
  exists l,
    mnxc_body img33 img33 mask33 mask33 "full" [0%Z; 1%Z] (3 # 10) = Ok l /\
    number_overlap_masked_px l
    = mk_ndarray [5; 5]
        [1; 2; 3; 2; 1; 2; 4; 6; 4; 2; 3; 6; 9; 6; 3; 2; 4; 6; 4; 2; 1; 2; 3; 2; 1]%Q /\
    get (out l) [2; 2] = Some 1%Q /\
    get (out l) [0; 0] = Some 0%Q.
Proof. eexists. vm_compute. auto. Qed.

Example mnxc_same_mode_shape :
  exists result,
    mnxc const44 img33 mask44 mask33 "same" [0%Z; 1%Z] (3 # 10) = Ok result /\
    shape result = [4; 4].
Proof. eexists. vm_compute. auto. Qed.

Example mnxc_duplicate_axes :
  mnxc img33 img33 mask33 mask33 "full" [0%Z; 0%Z] (3 # 10) = Raise NumpyValueError.
Proof. reflexivity. Qed.

Example mnxc_mask_of_another_shape :
  mnxc img33 img33 mask44 mask33 "full" [0%Z; 1%Z] (3 # 10) = Raise IndexError.
Proof. reflexivity. Qed.

(** * The complex arrays of mnxc *)

(** ** Scalars *)

Lemma Qltb_comp (x x' y y' : Q) :
  (x == x')%Q -> (y == y')%Q -> Qltb x y = Qltb x' y'.
Proof.
  intros Hx Hy. unfold Qltb. f_equal.
  destruct (Qle_bool y x) eqn:E, (Qle_bool y' x') eqn:E'; auto.
  - apply Qle_bool_iff in E. rewrite Hx, Hy in E. apply Qle_bool_iff in E. congruence.
  - apply Qle_bool_iff in E'. rewrite <- Hx, <- Hy in E'. apply Qle_bool_iff in E'. congruence.
Qed.

Lemma Qsqrt_comp (x y : Q) : (x == y)%Q -> Qsqrt x = Qsqrt y.
Proof.
  intros H. unfold Qsqrt. f_equal. f_equal.
  change (Qnum x * 2 ^ 104 / Z.pos (Qden x))%Z with (Qfloor ((Qnum x * 2 ^ 104) # Qden x)).
  change (Qnum y * 2 ^ 104 / Z.pos (Qden y))%Z with (Qfloor ((Qnum y * 2 ^ 104) # Qden y)).
  apply Qfloor_comp. unfold Qeq in *. simpl. nia.
Qed.

Lemma fmax_comp (x x' y y' : Q) :
  (x == x')%Q -> (y == y')%Q -> (fmax x y == fmax x' y')%Q.
Proof.
  intros Hx Hy. unfold fmax. rewrite (Qltb_comp x x' y y' Hx Hy).
  now destruct (Qltb x' y').
Qed.

Lemma clip1_comp (a b x x' : Q) : (x == x')%Q -> (clip1 a b x == clip1 a b x')%Q.
Proof.
  intros Hx. unfold clip1.
  rewrite (Qltb_comp x x' a a Hx (Qeq_refl a)).
  destruct (Qltb x' a).
  - reflexivity.
  - rewrite (Qltb_comp b b x x' (Qeq_refl b) Hx). now destruct (Qltb b x').
Qed.

Lemma Qltb_irrefl_eq (x y : Q) : (x == y)%Q -> Qltb x y = false.
Proof. intros H. apply Qltb_ge. rewrite H. apply Qle_refl. Qed.

Lemma ceq_of_real (x y : Q) : (x == y)%Q -> ceq (of_real x) (of_real y).
Proof. intros H. split; [exact H|reflexivity]. Qed.

Lemma ceq_Csub (z w : complex) (x y : Q) :
  ceq z (of_real x) -> ceq w (of_real y) -> ceq (Csub z w) (of_real (x - y)).
Proof.
  destruct z as [a b], w as [c d]. unfold ceq, Csub, of_real, creal, cimag. simpl.
  intros [H1 H2] [H3 H4]. rewrite H1, H2, H3, H4. split; ring.
Qed.

Lemma ceq_Cmul (z w : complex) (x y : Q) :
  ceq z (of_real x) -> ceq w (of_real y) -> ceq (Cmul z w) (of_real (x * y)).
Proof.
  destruct z as [a b], w as [c d]. unfold ceq, Cmul, of_real, creal, cimag. simpl.
  intros [H1 H2] [H3 H4]. rewrite H1, H2, H3, H4. split; ring.
Qed.

Lemma Qdiv_zero (x y : Q) : (y == 0)%Q -> (x / y == 0)%Q.
Proof.
  intros H. unfold Qdiv. rewrite H. change (/ 0)%Q with 0%Q. ring.
Qed.

Lemma ceq_Cdiv (z w : complex) (x y : Q) :
  ceq z (of_real x) -> ceq w (of_real y) -> ceq (Cdiv z w) (of_real (x / y)).
Proof.
  destruct z as [a b], w as [c d]. unfold ceq, Cdiv, of_real, creal, cimag. simpl.
  intros [H1 H2] [H3 H4]. rewrite H1, H2, H3, H4.
  destruct (Qeq_dec y 0) as [Hy|Hy].
  - rewrite (Qdiv_zero x y Hy).
    split; apply Qdiv_zero; rewrite Hy; ring.
  - split; field; auto.
    all: intros E; apply Hy;
      assert (E' : (y * y == 0)%Q) by (rewrite <- E; ring);
      apply Qmult_integral in E'; tauto.
Qed.

Lemma ceq_Cfmax_zero (z : complex) (x : Q) :
  ceq z (of_real x) -> ceq (Cfmax z (of_real 0)) (of_real (fmax x 0)).
Proof.
  destruct z as [a b]. unfold ceq, Cfmax, Cltb, fmax, of_real, creal, cimag. simpl.
  intros [H1 H2].
  rewrite (Qltb_comp a x 0 0 H1 (Qeq_refl 0)), (Qltb_irrefl_eq b 0 H2), andb_false_r, orb_false_r.
  destruct (Qltb x 0); simpl; split; auto; reflexivity.
Qed.

Lemma Qhypot_real (a b : Q) : (b == 0)%Q -> Qhypot a b = Qabs a.
Proof.
  intros H. unfold Qhypot. apply Qeq_bool_iff in H. now rewrite H.
Qed.

Lemma ceq_Cabs (z : complex) (x : Q) : ceq z (of_real x) -> (Cabs z == Qabs x)%Q.
Proof.
  destruct z as [a b]. unfold ceq, Cabs, of_real, creal, cimag. simpl.
  intros [H1 H2]. rewrite (Qhypot_real a b H2). now rewrite H1.
Qed.

Lemma ceq_Csqrt (z : complex) (x : Q) :
  (0 <= x)%Q -> ceq z (of_real x) -> ceq (Csqrt z) (of_real (Qsqrt x)).
Proof.
  destruct z as [a b]. unfold ceq, Csqrt, of_real, creal, cimag. simpl.
  intros Hx [H1 H2].
  destruct (Qeq_bool a 0 && Qeq_bool b 0) eqn:E0.
  - apply andb_prop in E0 as [Ea _]. apply Qeq_bool_iff in Ea. simpl. split; [|exact H2].
    rewrite (Qsqrt_comp x 0) by (now rewrite <- H1). reflexivity.
  - assert (Hle : Qle_bool 0 a = true) by (apply Qle_bool_iff; now rewrite H1).
    rewrite Hle. simpl. rewrite (Qhypot_real a b H2). split.
    + rewrite (Qsqrt_comp ((a + Qabs a) * (1 # 2)) x); [reflexivity|].
      rewrite H1, (Qabs_pos x Hx). field.
    + rewrite H2. unfold Qdiv. ring.
Qed.

Lemma Cltb_real (t t' : Q) (z : complex) (x : Q) :
  (t == t')%Q -> ceq z (of_real x) -> Cltb (of_real t) z = Qltb t' x.
Proof.
  destruct z as [a b]. unfold ceq, Cltb, of_real, creal, cimag. simpl.
  intros Ht [H1 H2].
  rewrite (Qltb_comp t t' a x Ht H1).
  rewrite (Qltb_irrefl_eq 0 b) by (now rewrite H2).
  now rewrite andb_false_r, orb_false_r.
Qed.

Lemma ceq_Cclip (z : complex) (x : Q) :
  ceq z (of_real x) ->
  ceq (Cclip (of_real (-1)) (of_real 1) z) (of_real (clip1 (-1) 1 x)).
Proof.
  destruct z as [a b]. unfold ceq, Cclip, Cltb, clip1, of_real, creal, cimag. simpl.
  intros [H1 H2].
  rewrite (Qltb_comp a x (-1) (-1) H1 (Qeq_refl _)), (Qltb_irrefl_eq b 0 H2),
    andb_false_r, orb_false_r.
  destruct (Qltb x (-1)); simpl.
  - split; reflexivity.
  - rewrite (Qltb_comp 1 1 a x (Qeq_refl _) H1).
    rewrite (Qltb_irrefl_eq 0 b) by (now rewrite H2).
    rewrite andb_false_r, orb_false_r.
    destruct (Qltb 1 x); simpl; split; auto; reflexivity.
Qed.

(** The real part of a clipped value is in the interval, whatever the
    imaginary part. *)
Lemma Cclip_range (z : complex) :
  (-1 <= creal (Cclip (of_real (-1)) (of_real 1) z) <= 1)%Q.
Proof.
  destruct z as [a b]. unfold Cclip, Cltb, of_real, creal, cimag. simpl.
  destruct (Qltb a (-1)) eqn:E1; simpl.
  - split; discriminate.
  - apply Qltb_ge in E1.
    destruct (Qeq_bool a (-1) && Qltb b 0) eqn:E2; simpl.
    + split; discriminate.
    + destruct (Qltb 1 a) eqn:E3; simpl.
      * split; discriminate.
      * apply Qltb_ge in E3.
        destruct (Qeq_bool 1 a && Qltb 0 b); simpl; split; auto; discriminate.
Qed.

(** ** Arrays *)

Lemma lifts_item (c : ndarray complex) (r : ndarray Q) (idx : list nat) :
  lifts c r -> ceq (item c idx) (of_real (item r idx)).
Proof.
  intros [_ H]. specialize (H idx). unfold item.
  destruct (get c idx), (get r idx); try contradiction; auto.
  split; reflexivity.
Qed.

Lemma lifts_build (sh : list nat) (f : list nat -> complex) (g : list nat -> Q) :
  (forall idx, in_boundsb sh idx = true -> ceq (f idx) (of_real (g idx))) ->
  lifts (build sh f) (build sh g).
Proof.
  intros H. split; [reflexivity|]. intros idx.
  destruct (in_boundsb sh idx) eqn:E.
  - rewrite !get_build by exact E. now apply H.
  - now rewrite !get_out_of_bounds by (rewrite shape_build; exact E).
Qed.

Lemma lifts_of_real (a : ndarray Q) : lifts (nd_map of_real a) a.
Proof.
  split; [reflexivity|]. intros idx. rewrite get_nd_map.
  destruct (get a idx); simpl; auto. split; reflexivity.
Qed.

Lemma lifts_map (fc : complex -> complex) (fr : Q -> Q) (P : Q -> Prop)
  (c : ndarray complex) (r : ndarray Q) :
  (forall z x, P x -> ceq z (of_real x) -> ceq (fc z) (of_real (fr x))) ->
  (forall idx x, get r idx = Some x -> P x) ->
  lifts c r -> lifts (nd_map fc c) (nd_map fr r).
Proof.
  intros Hf HP [Hs H]. split; [exact Hs|]. intros idx. rewrite !get_nd_map.
  specialize (H idx). specialize (HP idx).
  destruct (get c idx), (get r idx); simpl; auto.
Qed.

Lemma lifts_zip (fc : complex -> complex -> complex) (fr : Q -> Q -> Q)
  (c1 c2 : ndarray complex) (r1 r2 : ndarray Q) :
  (forall z1 z2 x1 x2, ceq z1 (of_real x1) -> ceq z2 (of_real x2) ->
                       ceq (fc z1 z2) (of_real (fr x1 x2))) ->
  lifts c1 r1 -> lifts c2 r2 -> lifts (nd_zip fc c1 c2) (nd_zip fr r1 r2).
Proof.
  intros Hf L1 L2. unfold nd_zip. destruct L1 as [Hs1 H1] eqn:E1. rewrite Hs1.
  apply lifts_build. intros idx Hb. apply Hf.
  - apply lifts_item. exact (conj Hs1 H1).
  - destruct L2 as [Hs2 H2]. rewrite Hs2. apply lifts_item. exact (conj Hs2 H2).
Qed.

(** A complex array against a real one, as in [z / n]. *)
Lemma lifts_zip_real (fc : complex -> Q -> complex) (fr : Q -> Q -> Q)
  (c : ndarray complex) (r n : ndarray Q) :
  (forall z x y, ceq z (of_real x) -> ceq (fc z y) (of_real (fr x y))) ->
  lifts c r -> lifts (nd_zip fc c n) (nd_zip fr r n).
Proof.
  intros Hf L. unfold nd_zip. destruct L as [Hs H]. rewrite Hs.
  apply lifts_build. intros idx Hb. apply Hf. apply lifts_item. exact (conj Hs H).
Qed.

Lemma lifts_Cdiv_real (c : ndarray complex) (r n : ndarray Q) :
  lifts c r -> lifts (nd_zip (fun z y => Cdiv z (of_real y)) c n) (nd_zip Qdiv r n).
Proof.
  apply lifts_zip_real. intros z x y Hz. apply ceq_Cdiv; auto. split; reflexivity.
Qed.

Lemma lifts_shape (c : ndarray complex) (r : ndarray Q) : lifts c r -> shape c = shape r.
Proof. now intros [H _]. Qed.

(** Two real arrays with equal values. *)
Lemma batch_max_comp (arr1 : ndarray Q) (ks : list nat) (a b : ndarray Q) (idx : list nat) :
  shape a = shape b ->
  (forall i, (item a i == item b i)%Q) ->
  (item (batch_max arr1 ks a) idx == item (batch_max arr1 ks b) idx)%Q.
Proof.
  intros Hs Hi. unfold batch_max. rewrite Hs.
  destruct (in_boundsb (keep_shape (run_mask arr1 ks) (shape b)) idx) eqn:E.
  - rewrite !item_build by exact E.
    generalize (indices (axes_shape (run_mask arr1 ks) (shape b))). intros l.
    unfold Qmax_list. destruct l as [|j l]; simpl; [reflexivity|].
    generalize (Hi (select (run_mask arr1 ks) j idx)).
    generalize (item a (select (run_mask arr1 ks) j idx)).
    generalize (item b (select (run_mask arr1 ks) j idx)).
    induction l as [|j' l IH]; intros y x Hxy; simpl; auto.
    apply IH. apply fmax_comp; auto.
  - rewrite !item_out_of_bounds by (rewrite shape_build; exact E). reflexivity.
Qed.

Lemma item_Cabs (c : ndarray complex) (r : ndarray Q) (idx : list nat) :
  lifts c r -> (item (nd_map Cabs c) idx == item (nd_map Qabs r) idx)%Q.
Proof.
  intros [_ H]. specialize (H idx). unfold item. rewrite !get_nd_map.
  destruct (get c idx), (get r idx); simpl; try contradiction.
  - now apply ceq_Cabs.
  - reflexivity.
Qed.

(** ** A run of mnxc_complex on a valid input *)

Section ComplexValid.
Variables (arr1 arr2 : ndarray Q) (m1 m2 : ndarray bool).
Variable mode : string.
Variable axes : list Z.
Variable overlap_ratio : Q.
Variable ks : list nat.
Hypothesis V : valid_input arr1 arr2 m1 m2 mode axes ks.

Lemma ifft_complex_ok (X : spectrum) :
  shape (signal X) = run_fast_shape arr1 arr2 ks ->
  ifftn_complex (map (fast_len arr1 arr2) ks) axes X = Ok (run_ifft X).
Proof.
  intros Hs. unfold ifftn_complex.
  now rewrite (ifft_ok _ _ _ _ _ _ _ V X Hs).
Qed.

(** On a valid input [mnxc_complex] runs to its end. *)
Lemma mnxc_complex_body_valid :
  mnxc_complex_body arr1 arr2 m1 m2 mode axes overlap_ratio
  = Ok (crun_locals arr1 arr2 m1 m2 mode overlap_ratio ks).
Proof.
  unfold mnxc_complex_body.
  rewrite (mode_ok _ _ _ _ _ _ _ V), (check_ok _ _ _ _ _ _ _ V). cbn [bind].
  rewrite (final_shape_ok _ _ _ _ _ _ _ V). cbn [bind].
  rewrite (fast_shape_ok _ _ _ _ _ _ _ V). cbn [bind].
  rewrite (setitem_mask_ok arr1) by apply (v_mask1 V). cbn [bind].
  rewrite (setitem_mask_ok arr2) by apply (v_mask2 V). cbn [bind].
  rewrite !(flip_run _ _ _ _ _ _ _ V) by (try reflexivity; apply (v_mask2 V)). cbn [bind].
  rewrite !(fft_ok _ _ _ _ _ _ _ V);
    try (repeat apply wf_nd_map; first [apply wf_build | apply (v_wfm1 V)]);
    try solve [left; first [reflexivity | apply (v_mask1 V)]
              | right; first [reflexivity | apply (v_mask2 V)]].
  cbn [bind].
  rewrite !ifft_complex_ok by reflexivity. cbn [bind].
  rewrite !(crop_ok _ _ _ _ _ _ _ V) by reflexivity. cbn [bind].
  destruct (v_mode V) as [Hm | Hm]; rewrite Hm.
  - change (String.eqb "full" "same") with false. cbn [bind].
    rewrite !(amax_ok _ _ _ _ _ _ _ V)
      by first [apply length_final_shape
               | intros k Hk; now apply (final_shape_pos _ _ _ _ _ _ _ V)].
    cbn [bind].
    rewrite setitem_mask_from_ok by reflexivity. cbn [bind].
    rewrite setitem_mask_ok by reflexivity. cbn [bind].
    reflexivity.
  - change (String.eqb "same" "same") with true. cbn [bind].
    change (shape (nd_zip (fun (x : Q) (b : bool) => if b then 0%Q else x) arr1
                     (logical_not m1))) with (shape arr1).
    rewrite !(centered_same _ _ _ _ _ _ _ V). cbn [bind].
    rewrite !(amax_ok _ _ _ _ _ _ _ V)
      by first [reflexivity | intros k Hk; apply (v_pos V k Hk)].
    cbn [bind].
    rewrite setitem_mask_from_ok by reflexivity. cbn [bind].
    rewrite setitem_mask_ok by reflexivity. cbn [bind].
    reflexivity.
Qed.

Lemma mnxc_complex_valid :
  mnxc_complex arr1 arr2 m1 m2 mode axes overlap_ratio
  = Ok (crun_out arr1 arr2 m1 m2 mode overlap_ratio ks).
Proof. unfold mnxc_complex. now rewrite mnxc_complex_body_valid. Qed.
End ComplexValid.

(** ** The complex arrays of a run against the real ones *)

Lemma nd_map_creal_of_real (a : ndarray Q) : nd_map creal (nd_map of_real a) = a.
Proof.
  destruct a as [sh d]. unfold nd_map. cbn [shape data]. f_equal.
  induction d as [|x d IH]; simpl; congruence.
Qed.

(** A complex array against an array of another dtype, as in [out[mask] = 0]. *)
Lemma lifts_zip_other {B} `{Default B} (fc : complex -> B -> complex) (fr : Q -> B -> Q)
  (c : ndarray complex) (r : ndarray Q) (n : ndarray B) :
  (forall z x y, ceq z (of_real x) -> ceq (fc z y) (of_real (fr x y))) ->
  lifts c r -> lifts (nd_zip fc c n) (nd_zip fr r n).
Proof.
  intros Hf L. unfold nd_zip. destruct L as [Hs HL]. rewrite Hs.
  apply lifts_build. intros idx Hb. apply Hf. apply lifts_item. exact (conj Hs HL).
Qed.

Lemma item_fmax_zero_nonneg (a : ndarray Q) (idx : list nat) :
  (0 <= item (nd_map (fun x => fmax x 0) a) idx)%Q.
Proof.
  unfold item. rewrite get_nd_map. destruct (get a idx); simpl.
  - apply fmax_ge_r.
  - apply Qle_refl.
Qed.

Section ComplexLift.
Variables (arr1 arr2 : ndarray Q) (m1 m2 : ndarray bool).
Variable mode : string.
Variable overlap_ratio : Q.
Variable ks : list nat.

Lemma crun_overlap_padded_eq :
  crun_overlap_padded arr1 arr2 m1 m2 ks = run_overlap_padded arr1 arr2 m1 m2 ks.
Proof.
  unfold crun_overlap_padded, run_overlap_padded, run_ifft.
  now rewrite nd_map_creal_of_real.
Qed.

Lemma crun_overlap_eq :
  crun_overlap arr1 arr2 m1 m2 mode ks = run_overlap arr1 arr2 m1 m2 mode ks.
Proof. unfold crun_overlap. now rewrite crun_overlap_padded_eq. Qed.

Lemma lifts_crop (c : ndarray complex) (r : ndarray Q) :
  lifts c r -> lifts (crun_crop arr1 arr2 mode ks c) (run_crop arr1 arr2 mode ks r).
Proof.
  intros L. unfold crun_crop, run_crop. cbv zeta.
  assert (Lf : lifts (build (run_final_shape arr1 arr2 ks) (item c))
                     (build (run_final_shape arr1 arr2 ks) (item r))).
  { apply lifts_build. intros idx _. now apply lifts_item. }
  destruct (String.eqb mode "same"); [|exact Lf].
  apply lifts_build. intros idx _. now apply lifts_item.
Qed.

Lemma lifts_square (c : ndarray complex) (r : ndarray Q) :
  lifts c r -> lifts (nd_map (fun z => Cmul z z) c) (square r).
Proof.
  apply (lifts_map (fun z => Cmul z z) (fun x => (x * x)%Q) (fun _ => True)); auto.
  intros z x _ Hz. now apply ceq_Cmul.
Qed.

Lemma lifts_numerator_padded :
  lifts (crun_numerator_padded arr1 arr2 m1 m2 ks) (run_numerator_padded arr1 arr2 m1 m2 ks).
Proof.
  unfold crun_numerator_padded, run_numerator_padded. rewrite crun_overlap_padded_eq.
  apply lifts_zip; [apply ceq_Csub | apply lifts_of_real |].
  apply lifts_Cdiv_real.
  apply lifts_zip; [apply ceq_Cmul | apply lifts_of_real | apply lifts_of_real].
Qed.

Lemma lifts_variance (X : spectrum) (c : ndarray complex) (r : ndarray Q) :
  lifts c r ->
  lifts (nd_map (fun z => Cfmax z (of_real 0))
           (nd_zip Csub (run_ifft X)
              (nd_zip (fun z n => Cdiv z (of_real n)) (nd_map (fun z => Cmul z z) c)
                 (run_overlap_padded arr1 arr2 m1 m2 ks))))
        (nd_map (fun x => fmax x 0%Q)
           (nd_zip Qminus (signal X)
              (nd_zip Qdiv (square r) (run_overlap_padded arr1 arr2 m1 m2 ks)))).
Proof.
  intros L.
  apply (lifts_map (fun z => Cfmax z (of_real 0)) (fun x => fmax x 0%Q) (fun _ => True)); auto.
  - intros z x _ Hz. now apply ceq_Cfmax_zero.
  - apply lifts_zip; [apply ceq_Csub | apply lifts_of_real |].
    apply lifts_Cdiv_real. now apply lifts_square.
Qed.

Lemma lifts_fixed_denom :
  lifts (crun_fixed_denom arr1 arr2 m1 m2 ks) (run_fixed_denom arr1 arr2 m1 m2 ks).
Proof.
  unfold crun_fixed_denom, run_fixed_denom. rewrite crun_overlap_padded_eq.
  apply lifts_variance. apply lifts_of_real.
Qed.

Lemma lifts_moving_denom :
  lifts (crun_moving_denom arr1 arr2 m1 m2 ks) (run_moving_denom arr1 arr2 m1 m2 ks).
Proof.
  unfold crun_moving_denom, run_moving_denom. rewrite crun_overlap_padded_eq.
  apply lifts_variance. apply lifts_of_real.
Qed.

Lemma lifts_denom_padded :
  lifts (crun_denom_padded arr1 arr2 m1 m2 ks) (run_denom_padded arr1 arr2 m1 m2 ks).
Proof.
  unfold crun_denom_padded, run_denom_padded.
  apply (lifts_map Csqrt Qsqrt (fun x => (0 <= x)%Q)).
  - intros z x Hx Hz. now apply ceq_Csqrt.
  - intros idx x Hx.
    destruct (in_boundsb (shape (run_fixed_denom arr1 arr2 m1 m2 ks)) idx) eqn:E.
    + rewrite get_nd_zip in Hx by exact E. injection Hx as <-.
      apply Qmult_le_0_compat; apply item_fmax_zero_nonneg.
    + rewrite get_out_of_bounds in Hx by exact E. discriminate.
  - apply lifts_zip; [apply ceq_Cmul | apply lifts_fixed_denom | apply lifts_moving_denom].
Qed.

Lemma lifts_numerator :
  lifts (crun_numerator arr1 arr2 m1 m2 mode ks) (run_numerator arr1 arr2 m1 m2 mode ks).
Proof. apply lifts_crop, lifts_numerator_padded. Qed.

Lemma lifts_denom :
  lifts (crun_denom arr1 arr2 m1 m2 mode ks) (run_denom arr1 arr2 m1 m2 mode ks).
Proof. apply lifts_crop, lifts_denom_padded. Qed.

Lemma item_scaled_comp (s : Q) (a b : ndarray Q) (idx : list nat) :
  wf a -> wf b -> shape a = shape b ->
  (item a idx == item b idx)%Q ->
  (item (nd_map (fun x => (s * x)%Q) a) idx == item (nd_map (fun x => (s * x)%Q) b) idx)%Q.
Proof.
  intros Ha Hb Hs Hi.
  destruct (in_boundsb (shape a) idx) eqn:E.
  - rewrite !item_nd_map by (auto; now rewrite <- Hs). now rewrite Hi.
  - rewrite !item_out_of_bounds by (cbn [shape nd_map]; now rewrite <- ?Hs). reflexivity.
Qed.

Lemma crun_tol_item (idx : list nat) :
  (item (crun_tol arr1 arr2 m1 m2 mode ks) idx == item (run_tol arr1 arr2 m1 m2 mode ks) idx)%Q.
Proof.
  unfold crun_tol, run_tol.
  pose proof lifts_denom as L.
  apply item_scaled_comp; try apply wf_build.
  - unfold batch_max. rewrite !shape_build. cbn [shape nd_map]. now rewrite (lifts_shape _ _ L).
  - apply batch_max_comp.
    + cbn [shape nd_map]. now apply lifts_shape.
    + intros i. now apply item_Cabs.
Qed.

Lemma crun_nonzero_indices_eq :
  crun_nonzero_indices arr1 arr2 m1 m2 mode ks = run_nonzero_indices arr1 arr2 m1 m2 mode ks.
Proof.
  unfold crun_nonzero_indices, run_nonzero_indices, nd_zip.
  pose proof lifts_denom as L. rewrite (lifts_shape _ _ L).
  apply build_ext. intros idx Hb.
  assert (Hs : shape (crun_tol arr1 arr2 m1 m2 mode ks) = shape (run_tol arr1 arr2 m1 m2 mode ks)).
  { unfold crun_tol, run_tol, batch_max. cbn [shape nd_map build].
    now rewrite (lifts_shape _ _ L). }
  rewrite Hs. apply Cltb_real.
  - apply crun_tol_item.
  - now apply lifts_item.
Qed.

Lemma lifts_quotient :
  lifts (crun_quotient arr1 arr2 m1 m2 mode ks) (run_quotient arr1 arr2 m1 m2 mode ks).
Proof.
  unfold crun_quotient, run_quotient.
  pose proof lifts_denom as Ld. pose proof lifts_numerator as Ln.
  rewrite (lifts_shape _ _ Ld), crun_nonzero_indices_eq.
  apply lifts_build. intros idx Hb.
  destruct (item (run_nonzero_indices arr1 arr2 m1 m2 mode ks) idx).
  - apply lifts_item. apply lifts_zip; [apply ceq_Cdiv | exact Ln | exact Ld].
  - apply lifts_item. unfold zeros_like.
    apply (lifts_map (fun _ => of_real 0) (fun _ => 0%Q) (fun _ => True)); auto.
    intros z x _ _. split; reflexivity.
Qed.

(** The array returned by [mnxc_complex] is the array returned by [mnxc]. *)
Lemma lifts_out :
  lifts (crun_out arr1 arr2 m1 m2 mode overlap_ratio ks)
        (run_out arr1 arr2 m1 m2 mode overlap_ratio ks).
Proof.
  unfold crun_out, run_out, run_number_px_threshold. rewrite crun_overlap_eq.
  apply lifts_zip_other.
  - intros z x [|] Hz; [split; reflexivity | exact Hz].
  - apply (lifts_map (Cclip (of_real (-1)) (of_real 1)) (clip1 (-1) 1) (fun _ => True)); auto.
    + intros z x _ Hz. now apply ceq_Cclip.
    + apply lifts_quotient.
Qed.
End ComplexLift.

(** ** The value at one offset *)

Lemma agree_off_refl (nd : nat) (ks idx : list nat) : agree_off nd ks idx idx.
Proof. intros k _ _. reflexivity. Qed.

(** The maximum line 151 computes is attained in the batch and bounds it. *)
Lemma batch_max_at_is_max (nd : nat) (ks : list nat) (a : ndarray Q) (idx : list nat) :
  length (shape a) = nd ->
  in_boundsb (shape a) idx = true ->
  is_batch_max a ks idx (batch_max_at nd ks a idx).
Proof.
  intros Hnd Hb. unfold is_batch_max, ndim. rewrite Hnd. split.
  - destruct (select_complete nd ks (shape a) Hnd idx idx Hb Hb (agree_off_refl _ _ _))
      as [j0 [Hj0 _]].
    unfold batch_max_at.
    match goal with |- context [Qmax_list ?l] => assert (Hin : In (Qmax_list l) l) end.
    { apply Qmax_list_In. intros Hnil.
      apply (in_map (fun j => item a (select (axis_mask nd ks) j idx))) in Hj0.
      rewrite Hnil in Hj0. destruct Hj0. }
    apply in_map_iff in Hin as [j [Hj Hin]].
    exists (select (axis_mask nd ks) j idx). split; [|split].
    + apply select_in_bounds; auto. now apply In_indices.
    + apply select_agree; auto.
      * now apply (indices_axes_shape_length nd ks (shape a)).
      * apply in_boundsb_length in Hb. congruence.
    + rewrite Hj. reflexivity.
  - intros idx' Hb' Hag. apply Qmax_list_ge. unfold batch_max_at.
    destruct (select_complete nd ks (shape a) Hnd idx idx' Hb Hb' Hag) as [j [Hj Hs]].
    apply in_map_iff. exists j. split; auto. now rewrite Hs.
Qed.

Section Pointwise.
Variables (arr1 arr2 : ndarray Q) (m1 m2 : ndarray bool).
Variable mode : string.
Variable overlap_ratio : Q.
Variable ks : list nat.

Local Abbreviation oshape := (run_out_shape arr1 arr2 mode ks).
Local Abbreviation p_denom := (run_denom arr1 arr2 m1 m2 mode ks).
Local Abbreviation p_numerator := (run_numerator arr1 arr2 m1 m2 mode ks).
Local Abbreviation p_overlap := (run_overlap arr1 arr2 m1 m2 mode ks).

Lemma shape_run_denom : shape p_denom = oshape.
Proof. apply shape_run_crop. Qed.

(** Line 143 at one offset. *)
Lemma item_run_nonzero_indices (idx : list nat) :
  in_boundsb oshape idx = true ->
  item (run_nonzero_indices arr1 arr2 m1 m2 mode ks) idx
  = Qltb (1000 * eps * batch_max_at (ndim arr1) ks (nd_map Qabs p_denom) idx)
         (item p_denom idx).
Proof.
  intros Hb. unfold run_nonzero_indices.
  rewrite item_nd_zip by (now rewrite shape_run_denom).
  f_equal. unfold run_tol.
  assert (Hl : length (shape (nd_map Qabs p_denom)) = ndim arr1).
  { cbn [shape nd_map]. rewrite shape_run_denom. apply length_out_shape. }
  rewrite item_nd_map.
  - rewrite (item_batch_max (ndim arr1)); auto.
    cbn [shape nd_map]. now rewrite shape_run_denom.
  - apply wf_build.
  - cbn [shape nd_map]. unfold batch_max, run_mask. rewrite shape_build.
    cbn [shape nd_map]. rewrite shape_run_denom.
    apply bcast_keep_in_bounds; auto. apply length_out_shape.
Qed.

(** Lines 145 and 146 at one offset. *)
Lemma item_run_quotient (idx : list nat) :
  in_boundsb oshape idx = true ->
  item (run_quotient arr1 arr2 m1 m2 mode ks) idx
  = if Qltb (1000 * eps * batch_max_at (ndim arr1) ks (nd_map Qabs p_denom) idx)
            (item p_denom idx)
    then (item p_numerator idx / item p_denom idx)%Q
    else 0%Q.
Proof.
  intros Hb. unfold run_quotient.
  rewrite item_build by (now rewrite shape_run_denom).
  rewrite item_run_nonzero_indices by exact Hb.
  destruct (Qltb _ _).
  - assert (Hn : shape p_numerator = oshape) by apply shape_run_crop.
    rewrite item_nd_zip by (now rewrite Hn).
    now rewrite shape_run_denom, (bcast_index_id _ _ Hb).
  - unfold zeros_like. rewrite item_nd_map; auto.
    + apply wf_run_crop.
    + now rewrite shape_run_denom.
Qed.


End Pointwise.

(** ** The complex result at one offset *)

Section ComplexPointwise.
Variables (arr1 arr2 : ndarray Q) (m1 m2 : ndarray bool).
Variable mode : string.
Variable overlap_ratio : Q.
Variable ks : list nat.

Lemma shape_crun_crop {T} `{Default T} (a : ndarray T) :
  shape (crun_crop arr1 arr2 mode ks a) = run_out_shape arr1 arr2 mode ks.
Proof. unfold crun_crop, run_out_shape. now destruct (String.eqb mode "same"). Qed.

Lemma shape_crun_out :
  shape (crun_out arr1 arr2 m1 m2 mode overlap_ratio ks) = run_out_shape arr1 arr2 mode ks.
Proof. apply shape_crun_crop. Qed.

(** Line 152 on the complex array: a suppressed offset holds 0 + 0j. *)
Lemma complex_suppressed_zero (idx : list nat) (M : Q) :
  in_boundsb (run_out_shape arr1 arr2 mode ks) idx = true ->
  is_batch_max (run_overlap arr1 arr2 m1 m2 mode ks) ks idx M ->
  (item (run_overlap arr1 arr2 m1 m2 mode ks) idx < overlap_ratio * M)%Q ->
  get (crun_out arr1 arr2 m1 m2 mode overlap_ratio ks) idx = Some (of_real 0).
Proof.
  intros Hb HM Hlt. unfold crun_out. rewrite crun_overlap_eq.
  assert (Hov : shape (run_overlap arr1 arr2 m1 m2 mode ks) = run_out_shape arr1 arr2 mode ks)
    by apply shape_run_crop.
  assert (Hq : shape (crun_quotient arr1 arr2 m1 m2 mode ks) = run_out_shape arr1 arr2 mode ks)
    by apply shape_crun_crop.
  rewrite get_nd_zip by (cbn [shape nd_map]; now rewrite Hq).
  f_equal.
  cbn [shape nd_zip build]. rewrite Hov, (bcast_index_id _ _ Hb).
  rewrite item_nd_zip by (now rewrite Hov).
  rewrite item_nd_map.
  - rewrite (item_batch_max (ndim arr1)); auto.
    + apply (batch_max_at_spec (ndim arr1)) in HM.
      * rewrite HM in Hlt. apply (proj2 (Qltb_lt _ _)) in Hlt. now rewrite Hlt.
      * rewrite Hov. apply length_out_shape.
      * now rewrite Hov.
    + rewrite Hov. apply length_out_shape.
    + now rewrite Hov.
  - apply wf_build.
  - cbn [shape nd_map]. unfold batch_max, run_mask. rewrite shape_build.
    apply bcast_keep_in_bounds; rewrite Hov; auto. apply length_out_shape.
Qed.
End ComplexPointwise.

(** * The claims *)

(** C7: [_flip] returns an array of the shape of its argument in which the
    order of the elements is reversed along exactly the given axes (all axes
    when [axes] is [None]): the element at index [i] along a reversed axis of
    extent [n] is the element of the argument at index [n - 1 - i], and the
    index along every other axis is unchanged. *)
Theorem flip_reverses_exactly_the_axes {T} `{Default T}
  (arr : ndarray T) (axes : option (list Z)) (ks : list nat) :
  wf arr ->
  flipped_axes (ndim arr) axes ks ->
  exists out,
    _flip arr axes = Ok out /\
    shape out = shape arr /\
    forall idx, in_bounds (shape arr) idx ->
      exists src v,
        in_bounds (shape arr) src /\
        (forall k, k < ndim arr ->
           nth k src 0 = if mem k ks then nth k (shape arr) 0 - 1 - nth k idx 0
                         else nth k idx 0) /\
        get arr src = Some v /\
        get out idx = Some v.
Proof.
  intros Hwf Hax. eexists. split; [apply (flip_ok arr axes ks Hax)|].
  split; [reflexivity|].
  intros idx Hb. exists (flip_index ks (shape arr) idx).
  exists (item arr (flip_index ks (shape arr) idx)).
  pose proof (flip_index_in_bounds ks _ _ Hb) as Hsrc.
  split; [exact Hsrc|]. split; [|split].
  - intros k Hk. unfold flip_index. now rewrite nth_tab.
  - now apply get_Some_item.
  - now rewrite get_build.
Qed.

Lemma flip_reverses_exactly_the_axes_witness :
  wf arr23 /\ flipped_axes (ndim arr23) (Some [(-1)%Z]) [1] /\
  exists out,
    _flip arr23 (Some [(-1)%Z]) = Ok out /\
    shape out = shape arr23 /\
    forall idx, in_bounds (shape arr23) idx ->
      exists src v,
        in_bounds (shape arr23) src /\
        (forall k, k < ndim arr23 ->
           nth k src 0 = if mem k [1] then nth k (shape arr23) 0 - 1 - nth k idx 0
                         else nth k idx 0) /\
        get arr23 src = Some v /\
        get out idx = Some v.
Proof.
  split; [reflexivity|]. split; [reflexivity|].
  apply (flip_reverses_exactly_the_axes arr23 (Some [(-1)%Z]) [1]); reflexivity.
Defined.

(** C10: [_flip] is an involution: reversing twice along the same axes (or
    twice along all axes, when [axes] is [None]) gives back the array. *)
Theorem flip_involution {T} `{Default T}
  (arr : ndarray T) (axes : option (list Z)) (ks : list nat) :
  wf arr ->
  flipped_axes (ndim arr) axes ks ->
  exists once, _flip arr axes = Ok once /\ _flip once axes = Ok arr.
Proof.
  intros Hwf Hax. eexists. split; [apply (flip_ok arr axes ks Hax)|].
  rewrite (flip_ok _ axes ks) by exact Hax.
  f_equal. rewrite shape_build.
  transitivity (build (shape arr) (item arr)); [|now apply build_item].
  apply build_ext. intros idx Hb.
  rewrite item_build by (now apply flip_index_in_bounds).
  now rewrite flip_index_involutive.
Qed.

Lemma flip_involution_witness :
  wf arr23 /\ flipped_axes (ndim arr23) None [0; 1] /\
  exists once, _flip arr23 None = Ok once /\ _flip once None = Ok arr23.
Proof.
  split; [reflexivity|]. split; [reflexivity|].
  apply (flip_involution arr23 None [0; 1]); reflexivity.
Defined.

(** C6: for a target shape that is not larger than the array along the given
    axes, [_centered] returns the sub-array that, along each given axis with
    size difference [d = current - target], starts at index [d / 2] (floor
    division) and has [target] elements; the other axes keep their full
    extent and their indices. *)
Theorem centered_crops_the_centre {T} `{Default T}
  (arr : ndarray T) (newshape : list nat) (axes : list Z) (ks : list nat) :
  wf arr ->
  length newshape = ndim arr ->
  axes_of (ndim arr) axes ks ->
  (forall k, In k ks -> nth k newshape 0 <= nth k (shape arr) 0) ->
  exists out,
    _centered arr newshape axes = Ok out /\
    ndim out = ndim arr /\
    (forall k, k < ndim arr ->
       nth k (shape out) 0 = if mem k ks then nth k newshape 0 else nth k (shape arr) 0) /\
    forall idx, in_bounds (shape out) idx ->
      exists src v,
        in_bounds (shape arr) src /\
        (forall k, k < ndim arr ->
           nth k src 0 = if mem k ks
                         then (nth k (shape arr) 0 - nth k newshape 0) / 2 + nth k idx 0
                         else nth k idx 0) /\
        get arr src = Some v /\
        get out idx = Some v.
Proof.
  intros Hwf Hl Hax Hle. eexists. split; [apply (centered_ok arr newshape axes ks Hl Hax Hle)|].
  rewrite shape_build. unfold ndim at 1. rewrite shape_build, length_tab.
  split; [reflexivity|]. split.
  - intros k Hk. now rewrite nth_tab.
  - intros idx Hb. unfold in_bounds in Hb.
    exists (center_index ks (shape arr) newshape idx).
    exists (item arr (center_index ks (shape arr) newshape idx)).
    assert (Hsrc : in_boundsb (shape arr) (center_index ks (shape arr) newshape idx) = true).
    { apply in_boundsb_nth in Hb as [Hlen Hb]. rewrite length_tab in Hlen, Hb.
      apply in_boundsb_nth. unfold center_index. rewrite length_tab. split; auto.
      intros k Hk. rewrite nth_tab by assumption.
      specialize (Hb k Hk). rewrite nth_tab in Hb by assumption.
      destruct (mem k ks) eqn:E; auto.
      apply mem_In in E. specialize (Hle k E).
      pose proof (Nat.Div0.div_le_upper_bound (nth k (shape arr) 0 - nth k newshape 0) 2
                    (nth k (shape arr) 0 - nth k newshape 0)) as Hd.
      generalize dependent ((nth k (shape arr) 0 - nth k newshape 0) / 2).
      intros q Hq. lia. }
    split; [exact Hsrc|]. split; [|split].
    + intros k Hk. unfold center_index. rewrite nth_tab by assumption.
      destruct (mem k ks); auto. apply Nat.add_comm.
    + now apply get_Some_item.
    + now rewrite get_build.
Qed.

Lemma centered_crops_the_centre_witness :
  wf arr23 /\ length [2; 1] = ndim arr23 /\ axes_of (ndim arr23) [1%Z] [1] /\
  (forall k, In k [1] -> nth k [2; 1] 0 <= nth k (shape arr23) 0) /\
  exists out,
    _centered arr23 [2; 1] [1%Z] = Ok out /\
    ndim out = ndim arr23 /\
    (forall k, k < ndim arr23 ->
       nth k (shape out) 0 = if mem k [1] then nth k [2; 1] 0 else nth k (shape arr23) 0) /\
    forall idx, in_bounds (shape out) idx ->
      exists src v,
        in_bounds (shape arr23) src /\
        (forall k, k < ndim arr23 ->
           nth k src 0 = if mem k [1]
                         then (nth k (shape arr23) 0 - nth k [2; 1] 0) / 2 + nth k idx 0
                         else nth k idx 0) /\
        get arr23 src = Some v /\
        get out idx = Some v.
Proof.
  assert (Hle : forall k, In k [1] -> nth k [2; 1] 0 <= nth k (shape arr23) 0).
  { intros k [<-|[]]. simpl. lia. }
  split; [reflexivity|]. split; [reflexivity|]. split; [reflexivity|]. split; [exact Hle|].
  apply (centered_crops_the_centre arr23 [2; 1] [1%Z] [1]); try reflexivity. exact Hle.
Defined.

(** C5: a mode other than 'full' and 'same' makes [mnxc] raise the
    invalid-mode error at its first statement: no local variable is computed
    and no array is returned. *)
Theorem mnxc_rejects_invalid_mode
  (arr1 arr2 : ndarray Q) (m1 m2 : ndarray bool) (mode : string) (axes : list Z)
  (overlap_ratio : Q) :
  mode <> "full"%string ->
  mode <> "same"%string ->
  mnxc_body arr1 arr2 m1 m2 mode axes overlap_ratio = Raise ValueError_mode /\
  mnxc arr1 arr2 m1 m2 mode axes overlap_ratio = Raise ValueError_mode.
Proof.
  intros Hf Hs.
  assert (H : mnxc_body arr1 arr2 m1 m2 mode axes overlap_ratio = Raise ValueError_mode).
  { unfold mnxc_body. cbn [existsb].
    apply String.eqb_neq in Hf. apply String.eqb_neq in Hs.
    now rewrite Hf, Hs. }
  split; [exact H|]. unfold mnxc. now rewrite H.
Qed.

Lemma mnxc_rejects_invalid_mode_witness :
  "invalid"%string <> "full"%string /\ "invalid"%string <> "same"%string /\
  mnxc_body img33 img33 mask33 mask33 "invalid" default_axes default_overlap_ratio
  = Raise ValueError_mode /\
  mnxc img33 img33 mask33 mask33 "invalid" default_axes default_overlap_ratio
  = Raise ValueError_mode.
Proof.
  split; [discriminate|]. split; [discriminate|].
  apply (mnxc_rejects_invalid_mode img33 img33 mask33 mask33 "invalid"
           default_axes default_overlap_ratio); discriminate.
Defined.

(** C4: with the default axes (-2, -1) a 4x4 fixed image and a 3x3 moving
    image, whose sizes differ along the transform axes only, are rejected with
    the shape error of line 72; the same images with the same axes written
    (0, 1) are accepted. *)
Theorem mnxc_default_axes_check_transform_axes :
  mnxc const44 img33 mask44 mask33 default_mode default_axes default_overlap_ratio
  = Raise ValueError_shape /\
  exists out,
    mnxc const44 img33 mask44 mask33 default_mode [0%Z; 1%Z] default_overlap_ratio = Ok out.
Proof.
  split.
  - reflexivity.
  - eexists. vm_compute. reflexivity.
Qed.

(** C3: on a valid input the array returned by [mnxc] has the rank of the
    images; along a transform axis its extent is
    [size_fixed + size_moving - 1] in mode 'full' and [size_fixed] in mode
    'same'; along every other axis it is the common size of the two images. *)
Theorem mnxc_output_shape
  (arr1 arr2 : ndarray Q) (m1 m2 : ndarray bool) (mode : string) (axes : list Z)
  (overlap_ratio : Q) (ks : list nat) :
  valid_input arr1 arr2 m1 m2 mode axes ks ->
  exists result,
    mnxc arr1 arr2 m1 m2 mode axes overlap_ratio = Ok result /\
    ndim result = ndim arr1 /\
    forall k, k < ndim arr1 ->
      (In k ks -> mode = "full"%string ->
       nth k (shape result) 0 = nth k (shape arr1) 0 + nth k (shape arr2) 0 - 1) /\
      (In k ks -> mode = "same"%string ->
       nth k (shape result) 0 = nth k (shape arr1) 0) /\
      (~ In k ks ->
       nth k (shape result) 0 = nth k (shape arr1) 0 /\
       nth k (shape result) 0 = nth k (shape arr2) 0).
Proof.
  intros V. eexists. split; [apply (mnxc_valid _ _ _ _ _ _ _ _ V)|].
  rewrite shape_run_out. unfold ndim at 1. rewrite shape_run_out.
  split; [apply length_out_shape|].
  intros k Hk. rewrite (nth_out_shape _ _ _ _ _ _ _ V) by exact Hk.
  split; [|split].
  - intros Hin ->. apply mem_In in Hin. now rewrite Hin.
  - intros Hin ->. apply mem_In in Hin. now rewrite Hin.
  - intros Hin. destruct (mem k ks) eqn:E; [apply mem_In in E; contradiction|].
    split; auto. now apply (off_axes_equal _ _ _ _ _ _ _ V).
Qed.

Lemma mnxc_output_shape_witness :
  valid_input const44 img33 mask44 mask33 "same" [0%Z; 1%Z] [0; 1] /\
  exists result,
    mnxc const44 img33 mask44 mask33 "same" [0%Z; 1%Z] default_overlap_ratio = Ok result /\
    ndim result = ndim const44 /\
    forall k, k < ndim const44 ->
      (In k [0; 1] -> "same"%string = "full"%string ->
       nth k (shape result) 0 = nth k (shape const44) 0 + nth k (shape img33) 0 - 1) /\
      (In k [0; 1] -> "same"%string = "same"%string ->
       nth k (shape result) 0 = nth k (shape const44) 0) /\
      (~ In k [0; 1] ->
       nth k (shape result) 0 = nth k (shape const44) 0 /\
       nth k (shape result) 0 = nth k (shape img33) 0).
Proof.
  assert (V : valid_input const44 img33 mask44 mask33 "same" [0%Z; 1%Z] [0; 1]).
  { constructor; try reflexivity.
    - now right.
    - repeat constructor; simpl; intuition discriminate.
    - intros k Hk Hn. exfalso. apply Hn. change (k < 2) in Hk.
      destruct k as [|[|k]]; [now left | right; now left | lia].
    - intros k [<-|[<-|[]]]; simpl; lia. }
  split; [exact V|].
  apply (mnxc_output_shape const44 img33 mask44 mask33 "same" [0%Z; 1%Z]
           default_overlap_ratio [0; 1] V).
Defined.

(** C1 (as stated): the array [mnxc] returns is not an array of reals.  Only
    the overlap count goes through [np.real] (line 109); the numerator and
    the two denominators are the complex results of the inverse transform, so
    [denom], [out] and the array returned are complex128: for the 3x3 image
    correlated with itself the result is the 5x5 complex array whose centre
    holds 1 + 0j. *)
Lemma mnxc_result_is_complex :
  exists result,
    mnxc_complex img33 img33 mask33 mask33 "full" [0%Z; 1%Z] default_overlap_ratio = Ok result /\
    shape result = [5; 5] /\
    get_dtype result = complex128 /\
    get_dtype result <> float64 /\
    exists z : complex, get result [2; 2] = Some z /\ ceq z (1, 0)%Q.
Proof.
  eexists. split; [vm_compute; reflexivity|].
  split; [reflexivity|]. split; [reflexivity|]. split; [discriminate|].
  eexists. split; [vm_compute; reflexivity|]. split; reflexivity.
Qed.

(** C1 (amended): on a valid input [mnxc] returns a complex128 array of the
    shape of the result; at every offset the imaginary part of its value is
    0 and the real part lies in [-1, 1], and the value is exactly 0 + 0j at
    every offset whose overlap count is below [overlap_ratio] times the
    maximum of its batch.  The real parts are the values of [mnxc] computed
    over the reals. *)
Theorem mnxc_real_parts_in_range
  (arr1 arr2 : ndarray Q) (m1 m2 : ndarray bool) (mode : string) (axes : list Z)
  (overlap_ratio : Q) (ks : list nat) :
  valid_input arr1 arr2 m1 m2 mode axes ks ->
  exists (lc : complex_locals) (l : locals),
    mnxc_complex_body arr1 arr2 m1 m2 mode axes overlap_ratio = Ok lc /\
    mnxc_complex arr1 arr2 m1 m2 mode axes overlap_ratio = Ok (c_out lc) /\
    get_dtype (c_out lc) = complex128 /\
    shape (c_out lc) = run_out_shape arr1 arr2 mode ks /\
    shape (c_number_overlap_masked_px lc) = run_out_shape arr1 arr2 mode ks /\
    mnxc_body arr1 arr2 m1 m2 mode axes overlap_ratio = Ok l /\
    c_number_overlap_masked_px lc = number_overlap_masked_px l /\
    lifts (c_out lc) (out l) /\
    forall idx, in_bounds (run_out_shape arr1 arr2 mode ks) idx ->
      exists z : complex,
        get (c_out lc) idx = Some z /\
        (cimag z == 0)%Q /\
        (-1 <= creal z <= 1)%Q /\
        forall M, is_batch_max (c_number_overlap_masked_px lc) ks idx M ->
                  (item (c_number_overlap_masked_px lc) idx < overlap_ratio * M)%Q ->
                  z = of_real 0.
Proof.
  intros V.
  exists (crun_locals arr1 arr2 m1 m2 mode overlap_ratio ks).
  exists (run_locals arr1 arr2 m1 m2 mode overlap_ratio ks).
  split; [apply (mnxc_complex_body_valid _ _ _ _ _ _ _ _ V)|].
  split; [apply (mnxc_complex_valid _ _ _ _ _ _ _ _ V)|].
  split; [reflexivity|].
  cbn [c_out c_number_overlap_masked_px crun_locals out number_overlap_masked_px run_locals].
  split; [apply shape_crun_out|].
  split; [apply shape_crun_crop|].
  split; [apply (mnxc_body_valid _ _ _ _ _ _ _ _ V)|].
  split; [apply crun_overlap_eq|].
  split; [apply lifts_out|].
  intros idx Hb. unfold in_bounds in Hb.
  destruct (run_out_range arr1 arr2 m1 m2 mode overlap_ratio ks idx Hb) as [v [Hv Hr]].
  destruct (lifts_out arr1 arr2 m1 m2 mode overlap_ratio ks) as [_ HL].
  specialize (HL idx). rewrite Hv in HL.
  destruct (get (crun_out arr1 arr2 m1 m2 mode overlap_ratio ks) idx) as [z|] eqn:Hz;
    [|contradiction].
  destruct HL as [Hre Him]. cbn [of_real creal cimag fst snd] in Hre, Him.
  exists z. split; [reflexivity|]. split; [exact Him|].
  split; [now rewrite Hre|].
  intros M HM Hlt. rewrite crun_overlap_eq in HM, Hlt.
  rewrite (complex_suppressed_zero arr1 arr2 m1 m2 mode overlap_ratio ks idx M Hb HM Hlt) in Hz.
  now injection Hz.
Qed.

Lemma mnxc_real_parts_in_range_witness :
  valid_input seq8 ramp8 tail8 head8 "same" [0%Z] [0] /\
  exists (lc : complex_locals) (l : locals),
    mnxc_complex_body seq8 ramp8 tail8 head8 "same" [0%Z] (4 # 5) = Ok lc /\
    mnxc_complex seq8 ramp8 tail8 head8 "same" [0%Z] (4 # 5) = Ok (c_out lc) /\
    get_dtype (c_out lc) = complex128 /\
    shape (c_out lc) = run_out_shape seq8 ramp8 "same" [0] /\
    shape (c_number_overlap_masked_px lc) = run_out_shape seq8 ramp8 "same" [0] /\
    mnxc_body seq8 ramp8 tail8 head8 "same" [0%Z] (4 # 5) = Ok l /\
    c_number_overlap_masked_px lc = number_overlap_masked_px l /\
    lifts (c_out lc) (out l) /\
    forall idx, in_bounds (run_out_shape seq8 ramp8 "same" [0]) idx ->
      exists z : complex,
        get (c_out lc) idx = Some z /\
        (cimag z == 0)%Q /\
        (-1 <= creal z <= 1)%Q /\
        forall M, is_batch_max (c_number_overlap_masked_px lc) [0] idx M ->
                  (item (c_number_overlap_masked_px lc) idx < (4 # 5) * M)%Q ->
                  z = of_real 0.
Proof.
  assert (V : valid_input seq8 ramp8 tail8 head8 "same" [0%Z] [0]).
  { constructor; try reflexivity.
    - now right.
    - repeat constructor; simpl; intuition discriminate.
    - intros k [<-|[]]; simpl; lia. }
  split; [exact V|].
  apply (mnxc_real_parts_in_range seq8 ramp8 tail8 head8 "same" [0%Z] (4 # 5) [0] V).
Defined.

(** C2: on a valid input, the overlap count the threshold of line 151 is
    computed from is the overlap count of the padded grid after the crop to
    the final shape and, in mode 'same', after the centring: it has the shape
    of the result, and its maximum over the batch of an offset (the offsets
    that differ along the transform axes only) is taken over the offsets of
    the result.  At every offset where this count is strictly below
    [overlap_ratio] times that maximum the returned value is exactly 0, and
    at every other offset the returned value is the one of lines 142 to 147:
    no offset is suppressed by a threshold computed from another count. *)
Theorem mnxc_suppresses_low_overlap
  (arr1 arr2 : ndarray Q) (m1 m2 : ndarray bool) (mode : string) (axes : list Z)
  (overlap_ratio : Q) (ks : list nat) :
  valid_input arr1 arr2 m1 m2 mode axes ks ->
  exists l,
    mnxc_body arr1 arr2 m1 m2 mode axes overlap_ratio = Ok l /\
    mnxc arr1 arr2 m1 m2 mode axes overlap_ratio = Ok (out l) /\
    number_overlap_padded l = run_overlap_padded arr1 arr2 m1 m2 ks /\
    shape (number_overlap_padded l) = run_fast_shape arr1 arr2 ks /\
    number_overlap_masked_px l = run_crop arr1 arr2 mode ks (number_overlap_padded l) /\
    shape (number_overlap_masked_px l) = run_out_shape arr1 arr2 mode ks /\
    shape (denom l) = run_out_shape arr1 arr2 mode ks /\
    shape (out l) = run_out_shape arr1 arr2 mode ks /\
    forall idx,
      in_bounds (run_out_shape arr1 arr2 mode ks) idx ->
      (exists M, is_batch_max (number_overlap_masked_px l) ks idx M) /\
      (exists Md, is_batch_max (nd_map Qabs (denom l)) ks idx Md) /\
      forall M Md,
        is_batch_max (number_overlap_masked_px l) ks idx M ->
        is_batch_max (nd_map Qabs (denom l)) ks idx Md ->
        ((item (number_overlap_masked_px l) idx < overlap_ratio * M)%Q ->
         get (out l) idx = Some 0%Q) /\
        ((overlap_ratio * M <= item (number_overlap_masked_px l) idx)%Q ->
         get (out l) idx
         = Some (if Qltb (1000 * eps * Md) (item (denom l) idx)
                 then clip1 (-1) 1 (item (numerator l) idx / item (denom l) idx)
                 else 0%Q)).
Proof.
  intros V. eexists. split; [apply (mnxc_body_valid _ _ _ _ _ _ _ _ V)|].
  split; [apply (mnxc_valid _ _ _ _ _ _ _ _ V)|].
  cbn [out denom numerator number_overlap_padded number_overlap_masked_px run_locals].
  split; [reflexivity|]. split; [reflexivity|]. split; [reflexivity|].
  split; [apply shape_run_crop|]. split; [apply shape_run_crop|].
  split; [apply shape_run_out|].
  intros idx Hb. unfold in_bounds in Hb.
  assert (Hov : shape (run_overlap arr1 arr2 m1 m2 mode ks) = run_out_shape arr1 arr2 mode ks)
    by apply shape_run_crop.
  assert (Hd : shape (nd_map Qabs (run_denom arr1 arr2 m1 m2 mode ks))
               = run_out_shape arr1 arr2 mode ks) by apply shape_run_crop.
  split; [|split].
  - eexists. apply (batch_max_at_is_max (ndim arr1)).
    + rewrite Hov. apply length_out_shape.
    + now rewrite Hov.
  - eexists. apply (batch_max_at_is_max (ndim arr1)).
    + rewrite Hd. apply length_out_shape.
    + now rewrite Hd.
  - intros M Md HM HMd. split.
    + intros Hlt. now apply suppressed_zero with (M := M).
    + intros Hge. rewrite get_run_out by exact Hb.
      rewrite item_run_quotient by exact Hb.
      apply (batch_max_at_spec (ndim arr1)) in HM;
        [|rewrite Hov; apply length_out_shape|now rewrite Hov].
      apply (batch_max_at_spec (ndim arr1)) in HMd;
        [|rewrite Hd; apply length_out_shape|now rewrite Hd].
      rewrite HM in Hge. apply (proj2 (Qltb_ge _ _)) in Hge. rewrite Hge.
      rewrite (Qltb_comp (1000 * eps * Md)
                 (1000 * eps * batch_max_at (ndim arr1) ks
                                  (nd_map Qabs (run_denom arr1 arr2 m1 m2 mode ks)) idx)
                 (item (run_denom arr1 arr2 m1 m2 mode ks) idx)
                 (item (run_denom arr1 arr2 m1 m2 mode ks) idx))
        by (try reflexivity; now rewrite HMd).
      match goal with |- context [if ?b then _ else _] => destruct b end; reflexivity.
Qed.

(** The two signals of 8 samples in mode 'same' with overlap ratio 4/5: the
    overlap count is 1, 2, 3, 4 at the offsets 8 to 11 of the padded grid, of
    which the result keeps the offsets 3 to 10.  The maximum after the
    centring is 3, so the threshold is 12/5: the result is 0 at offset 6,
    where the count is 2, and keeps the correlation 1 at offset 7, where the
    count is 3, below 4/5 of the maximum 4 of the padded grid. *)
Lemma mnxc_suppresses_low_overlap_witness :
  valid_input seq8 ramp8 tail8 head8 "same" [0%Z] [0] /\
  (exists l,
    mnxc_body seq8 ramp8 tail8 head8 "same" [0%Z] (4 # 5) = Ok l /\
    mnxc seq8 ramp8 tail8 head8 "same" [0%Z] (4 # 5) = Ok (out l) /\
    number_overlap_padded l = run_overlap_padded seq8 ramp8 tail8 head8 [0] /\
    shape (number_overlap_padded l) = run_fast_shape seq8 ramp8 [0] /\
    number_overlap_masked_px l = run_crop seq8 ramp8 "same" [0] (number_overlap_padded l) /\
    shape (number_overlap_masked_px l) = run_out_shape seq8 ramp8 "same" [0] /\
    shape (denom l) = run_out_shape seq8 ramp8 "same" [0] /\
    shape (out l) = run_out_shape seq8 ramp8 "same" [0] /\
    forall idx,
      in_bounds (run_out_shape seq8 ramp8 "same" [0]) idx ->
      (exists M, is_batch_max (number_overlap_masked_px l) [0] idx M) /\
      (exists Md, is_batch_max (nd_map Qabs (denom l)) [0] idx Md) /\
      forall M Md,
        is_batch_max (number_overlap_masked_px l) [0] idx M ->
        is_batch_max (nd_map Qabs (denom l)) [0] idx Md ->
        ((item (number_overlap_masked_px l) idx < (4 # 5) * M)%Q ->
         get (out l) idx = Some 0%Q) /\
        (((4 # 5) * M <= item (number_overlap_masked_px l) idx)%Q ->
         get (out l) idx
         = Some (if Qltb (1000 * eps * Md) (item (denom l) idx)
                 then clip1 (-1) 1 (item (numerator l) idx / item (denom l) idx)
                 else 0%Q))) /\
  run_overlap_padded seq8 ramp8 tail8 head8 [0]
  = mk_ndarray [15] [eps; eps; eps; eps; eps; eps; eps; eps; 1; 2; 3; 4; 3; 2; 1]%Q /\
  run_overlap seq8 ramp8 tail8 head8 "same" [0]
  = mk_ndarray [8] [eps; eps; eps; eps; eps; 1; 2; 3]%Q /\
  (exists result v,
     mnxc seq8 ramp8 tail8 head8 "same" [0%Z] (4 # 5) = Ok result /\
     get result [6] = Some 0%Q /\
     get result [7] = Some v /\ (v == 1)%Q) /\
  (exists result v,
     mnxc seq8 ramp8 tail8 head8 "same" [0%Z] 0 = Ok result /\
     get result [6] = Some v /\ (v == 1)%Q).
Proof.
  assert (V : valid_input seq8 ramp8 tail8 head8 "same" [0%Z] [0]).
  { constructor; try reflexivity.
    - now right.
    - repeat constructor; simpl; intuition discriminate.
    - intros k [<-|[]]; simpl; lia. }
  split; [exact V|]. split.
  - apply (mnxc_suppresses_low_overlap seq8 ramp8 tail8 head8 "same" [0%Z] (4 # 5) [0] V).
  - split; [vm_compute; reflexivity|]. split; [vm_compute; reflexivity|]. split.
    + eexists. eexists. split; [vm_compute; reflexivity|].
      split; [reflexivity|]. split; reflexivity.
    + eexists. eexists. split; [vm_compute; reflexivity|]. split; reflexivity.
Defined.

(** C8 (as stated): for the two constant 4x4
    images the value at the centre offset (3, 3) is not 1. *)
Lemma mnxc_constant_images_no_peak :
  ~ (exists result v,
       mnxc const44 const44 mask44 mask44 "full" [0%Z; 1%Z] (3 # 10) = Ok result /\
       shape result = [7; 7] /\
       get result [3; 3] = Some v /\
       (v == 1)%Q).
Proof.
  intros [result [v [Hr [_ [Hv H1]]]]].
  vm_compute in Hr. injection Hr as <-.
  vm_compute in Hv. injection Hv as <-.
  discriminate H1.
Qed.

(** C8 (amended): for fixed = moving = the 4x4 image with every sample equal
    to 10, all-true masks, mode 'full', axes (0, 1) and overlap ratio 3/10,
    [mnxc] returns the 7x7 array of zeros: constant images have no variance,
    the denominator is 0 at every offset and line 143 keeps the zeros of
    [np.zeros_like]. *)
Theorem mnxc_constant_images_all_zero :
  mnxc const44 const44 mask44 mask44 "full" [0%Z; 1%Z] (3 # 10)
  = Ok (mk_ndarray [7; 7] (repeat 0%Q 49)).
Proof. vm_compute. reflexivity. Qed.

(** C9: when the masks are disjoint, the overlap count is clamped to the
    epsilon floor at every offset, on the padded grid the divisions of lines
    116 to 125 work on as well as after the crop, and the returned array, of
    the shape of the result, is 0 at every offset. *)
Theorem mnxc_disjoint_masks_all_zero
  (arr1 arr2 : ndarray Q) (m1 m2 : ndarray bool) (mode : string) (axes : list Z)
  (overlap_ratio : Q) (ks : list nat) :
  valid_input arr1 arr2 m1 m2 mode axes ks ->
  disjoint_masks m1 m2 ks ->
  exists l,
    mnxc_body arr1 arr2 m1 m2 mode axes overlap_ratio = Ok l /\
    mnxc arr1 arr2 m1 m2 mode axes overlap_ratio = Ok (out l) /\
    number_overlap_padded l = run_overlap_padded arr1 arr2 m1 m2 ks /\
    shape (number_overlap_padded l) = run_fast_shape arr1 arr2 ks /\
    (forall idx, in_bounds (run_fast_shape arr1 arr2 ks) idx ->
       get (number_overlap_padded l) idx = Some eps) /\
    shape (number_overlap_masked_px l) = run_out_shape arr1 arr2 mode ks /\
    (forall idx, in_bounds (run_out_shape arr1 arr2 mode ks) idx ->
       get (number_overlap_masked_px l) idx = Some eps) /\
    shape (out l) = run_out_shape arr1 arr2 mode ks /\
    (forall idx, in_bounds (run_out_shape arr1 arr2 mode ks) idx ->
       get (out l) idx = Some 0%Q).
Proof.
  intros V D. eexists. split; [apply (mnxc_body_valid _ _ _ _ _ _ _ _ V)|].
  split; [apply (mnxc_valid _ _ _ _ _ _ _ _ V)|].
  cbn [out number_overlap_padded number_overlap_masked_px run_locals].
  split; [reflexivity|]. split; [reflexivity|]. split; [|split; [|split; [|split]]].
  - intros idx Hb. unfold in_bounds in Hb.
    rewrite get_Some_item by (auto; unfold run_overlap_padded; repeat apply wf_nd_map; apply wf_build).
    f_equal. now apply (disjoint_overlap_padded _ _ _ _ _ _ _ V D).
  - apply shape_run_crop.
  - intros idx Hb. unfold in_bounds in Hb.
    now apply (disjoint_overlap _ _ _ _ _ _ _ V D).
  - apply shape_run_out.
  - intros idx Hb. unfold in_bounds in Hb.
    now apply (disjoint_out _ _ _ _ _ _ _ _ V D).
Qed.

(** Two 2x3 images correlated along axis 1: the fixed image is valid in its
    first row only, the moving one in its second row only, so that no batch
    holds a valid sample of each. *)
Lemma mnxc_disjoint_masks_all_zero_witness :
  valid_input arr23 arr23 rows23_first rows23_second "full" [1%Z] [1] /\
  disjoint_masks rows23_first rows23_second [1] /\
  exists l,
    mnxc_body arr23 arr23 rows23_first rows23_second "full" [1%Z] default_overlap_ratio = Ok l /\
    mnxc arr23 arr23 rows23_first rows23_second "full" [1%Z] default_overlap_ratio = Ok (out l) /\
    number_overlap_padded l = run_overlap_padded arr23 arr23 rows23_first rows23_second [1] /\
    shape (number_overlap_padded l) = run_fast_shape arr23 arr23 [1] /\
    (forall idx, in_bounds (run_fast_shape arr23 arr23 [1]) idx ->
       get (number_overlap_padded l) idx = Some eps) /\
    shape (number_overlap_masked_px l) = run_out_shape arr23 arr23 "full" [1] /\
    (forall idx, in_bounds (run_out_shape arr23 arr23 "full" [1]) idx ->
       get (number_overlap_masked_px l) idx = Some eps) /\
    shape (out l) = run_out_shape arr23 arr23 "full" [1] /\
    (forall idx, in_bounds (run_out_shape arr23 arr23 "full" [1]) idx ->
       get (out l) idx = Some 0%Q).
Proof.
  assert (V : valid_input arr23 arr23 rows23_first rows23_second "full" [1%Z] [1]).
  { constructor; try reflexivity.
    - now left.
    - repeat constructor; simpl; intuition discriminate.
    - intros k [<-|[]]; simpl; lia. }
  assert (D : disjoint_masks rows23_first rows23_second [1]).
  { intros p q Hp Hq Hag [H1 H2].
    specialize (Hag 0 (Nat.lt_0_2) eq_refl).
    destruct p as [|[|[|i]] [|[|[|[|j]]] [|? ?]]]; try discriminate Hp; try discriminate H1;
      destruct q as [|[|[|i']] [|[|[|[|j']]] [|? ?]]]; try discriminate Hq;
        try discriminate H2; discriminate Hag. }
  split; [exact V|]. split; [exact D|].
  apply (mnxc_disjoint_masks_all_zero arr23 arr23 rows23_first rows23_second "full" [1%Z]
           default_overlap_ratio [1] V D).
Defined.

(** * Further properties of _mnxc.py *)

(** ** Errors *)

Lemma shape_eqb_eq (s1 s2 : list nat) : shape_eqb s1 s2 = true <-> s1 = s2.
Proof.
  revert s2. induction s1 as [|a s1 IH]; intros [|b s2]; simpl; split; intros E;
    try discriminate; auto.
  - apply andb_prop in E as [E1 E2]. apply Nat.eqb_eq in E1. apply IH in E2. congruence.
  - injection E as -> ->. rewrite Nat.eqb_refl. now apply IH.
Qed.

Lemma norm_index_out_of_range (n : nat) (i : Z) :
  ~ (- Z.of_nat n <= i < Z.of_nat n)%Z -> norm_index n i = Raise IndexError.
Proof.
  intros Hi. unfold norm_index. destruct (i <? 0)%Z eqn:E.
  - destruct ((0 <=? i + Z.of_nat n)%Z && (i + Z.of_nat n <? Z.of_nat n)%Z) eqn:E2; auto.
    apply andb_prop in E2 as [H1 H2]. exfalso. apply Hi. lia.
  - destruct ((0 <=? i)%Z && (i <? Z.of_nat n)%Z) eqn:E2; auto.
    apply andb_prop in E2 as [H1 H2]. exfalso. apply Hi. lia.
Qed.

Lemma norm_index_in_range (n : nat) (i : Z) :
  (- Z.of_nat n <= i < Z.of_nat n)%Z -> exists k, norm_index n i = Ok k.
Proof.
  intros Hi. destruct (Z.ltb_spec i 0).
  - eexists. apply norm_index_negative. lia.
  - exists (Z.to_nat i). rewrite <- (Z2Nat.id i) at 1 by lia.
    apply norm_index_nonneg. lia.
Qed.

Lemma norm_index_cases (n : nat) (i : Z) :
  (exists k, norm_index n i = Ok k) \/ norm_index n i = Raise IndexError.
Proof.
  unfold norm_index. cbv zeta.
  match goal with |- context [if ?b then Ok _ else _] => destruct b end.
  - left. eauto.
  - now right.
Qed.

(** A loop over the axes whose body indexes with the axis raises IndexError
    as soon as one axis is out of range. *)
Lemma foldM_axis_out_of_range {A} (F : list A -> Z -> result (list A)) (n : nat) :
  (forall l ax k, length l = n -> norm_index n ax = Ok k ->
     exists l', F l ax = Ok l' /\ length l' = n) ->
  (forall l ax, length l = n -> norm_index n ax = Raise IndexError ->
     F l ax = Raise IndexError) ->
  forall axes init bad,
    length init = n -> In bad axes -> norm_index n bad = Raise IndexError ->
    foldM F axes init = Raise IndexError.
Proof.
  intros Hok Hbad. induction axes as [|ax axes IH]; intros init bad Hl Hin Hb; [destruct Hin|].
  simpl. destruct (norm_index_cases n ax) as [[k Hk] | Hr].
  - destruct (Hok init ax k Hl Hk) as [l' [-> Hl']]. simpl.
    destruct Hin as [-> | Hin]; [congruence|]. now apply (IH l' bad).
  - now rewrite (Hbad init ax Hl Hr).
Qed.

Lemma py_getitem_out_of_range {A} (l : list A) (i : Z) :
  norm_index (length l) i = Raise IndexError -> py_getitem l i = Raise IndexError.
Proof. intros H. unfold py_getitem. now rewrite H. Qed.

Lemma py_setitem_out_of_range {A} (l : list A) (i : Z) (v : A) :
  norm_index (length l) i = Raise IndexError -> py_setitem l i v = Raise IndexError.
Proof. intros H. unfold py_setitem. now rewrite H. Qed.

(** X12: an axis outside [-ndim, ndim) makes [_flip] raise IndexError. *)
Theorem flip_axis_out_of_range_raises {T} `{Default T}
  (arr : ndarray T) (axes : list Z) (bad : Z) :
  In bad axes ->
  ~ (- Z.of_nat (ndim arr) <= bad < Z.of_nat (ndim arr))%Z ->
  _flip arr (Some axes) = Raise IndexError.
Proof.
  intros Hin Hbad. unfold _flip.
  rewrite (foldM_axis_out_of_range _ (ndim arr)) with (bad := bad); auto.
  - intros l ax k Hl Hk. eexists. split.
    + apply py_setitem_norm. rewrite Hl. exact Hk.
    + rewrite length_list_set. exact Hl.
  - intros l ax Hl Hr. apply py_setitem_out_of_range. now rewrite Hl.
  - apply repeat_length.
  - now apply norm_index_out_of_range.
Qed.

Lemma flip_axis_out_of_range_raises_witness :
  In 2%Z [0%Z; 2%Z] /\
  ~ (- Z.of_nat (ndim arr23) <= 2 < Z.of_nat (ndim arr23))%Z /\
  _flip arr23 (Some [0%Z; 2%Z]) = Raise IndexError.
Proof.
  assert (H1 : In 2%Z [0%Z; 2%Z]) by (right; now left).
  assert (H2 : ~ (- Z.of_nat (ndim arr23) <= 2 < Z.of_nat (ndim arr23))%Z)
    by (unfold ndim; simpl; lia).
  split; [exact H1|]. split; [exact H2|].
  apply (flip_axis_out_of_range_raises arr23 [0%Z; 2%Z] 2%Z H1 H2).
Defined.

(** X15: an axis outside [-ndim, ndim) makes [_centered] raise IndexError. *)
Theorem centered_axis_out_of_range_raises {T} `{Default T}
  (arr : ndarray T) (newshape : list nat) (axes : list Z) (bad : Z) :
  length newshape = ndim arr ->
  In bad axes ->
  ~ (- Z.of_nat (ndim arr) <= bad < Z.of_nat (ndim arr))%Z ->
  _centered arr newshape axes = Raise IndexError.
Proof.
  intros Hlen Hin Hbad. unfold _centered.
  rewrite (foldM_axis_out_of_range _ (ndim arr)) with (bad := bad); auto.
  - intros l ax k Hl Hk.
    rewrite (py_getitem_norm _ _ k 0%Z) by (now rewrite length_map).
    rewrite (py_getitem_norm _ _ k 0%Z) by (now rewrite length_map, Hlen).
    cbn [bind]. eexists. split.
    + apply py_setitem_norm. rewrite Hl. exact Hk.
    + rewrite length_list_set. exact Hl.
  - intros l ax Hl Hr.
    rewrite py_getitem_out_of_range; [reflexivity|]. now rewrite length_map.
  - apply repeat_length.
  - now apply norm_index_out_of_range.
Qed.

Lemma centered_axis_out_of_range_raises_witness :
  length [2; 1] = ndim arr23 /\ In (-3)%Z [(-3)%Z] /\
  ~ (- Z.of_nat (ndim arr23) <= -3 < Z.of_nat (ndim arr23))%Z /\
  _centered arr23 [2; 1] [(-3)%Z] = Raise IndexError.
Proof.
  assert (H1 : In (-3)%Z [(-3)%Z]) by now left.
  assert (H2 : ~ (- Z.of_nat (ndim arr23) <= -3 < Z.of_nat (ndim arr23))%Z)
    by (unfold ndim; simpl; lia).
  split; [reflexivity|]. split; [exact H1|]. split; [exact H2|].
  apply (centered_axis_out_of_range_raises arr23 [2; 1] [(-3)%Z] (-3)%Z eq_refl H1 H2).
Defined.

(** The check of lines 69 to 73 passes when the images agree along every
    axis whose non-negative index is not listed. *)
Lemma shape_check_passes (sh1 sh2 : list nat) (axes : list Z) :
  length sh2 = length sh1 ->
  (forall k, k < length sh1 -> ~ In (Z.of_nat k) axes -> nth k sh1 0 = nth k sh2 0) ->
  foldM (fun (_ : unit) axis =>
           do a <- py_getitem sh1 (Z.of_nat axis) ;;
           do b <- py_getitem sh2 (Z.of_nat axis) ;;
           if negb (a =? b) then Raise ValueError_shape else Ok tt)
        (filter (fun ax => negb (existsb (Z.eqb (Z.of_nat ax)) axes)) (seq 0 (length sh1))) tt
  = Ok tt.
Proof.
  intros Hl Hoff.
  assert (H : forall l u,
             (forall k, In k l -> k < length sh1 /\ nth k sh1 0 = nth k sh2 0) ->
             foldM (fun (_ : unit) axis =>
                      do a <- py_getitem sh1 (Z.of_nat axis) ;;
                      do b <- py_getitem sh2 (Z.of_nat axis) ;;
                      if negb (a =? b) then Raise ValueError_shape else Ok tt) l u
             = Ok u).
  { induction l as [|k l IH]; intros u Hk; [reflexivity|].
    destruct (Hk k (or_introl eq_refl)) as [Hlt He]. simpl.
    rewrite (py_getitem_norm sh1 _ k 0) by (now apply norm_index_nonneg).
    rewrite (py_getitem_norm sh2 _ k 0) by (apply norm_index_nonneg; now rewrite Hl).
    simpl. rewrite He, Nat.eqb_refl. simpl. destruct u.
    apply IH. intros k' Hk'. apply Hk. now right. }
  apply H. intros k Hk. apply filter_In in Hk as [Hk Hf]. apply in_seq in Hk.
  split; [lia|]. apply Hoff; [lia|]. intros Hin. apply negb_true_iff in Hf.
  assert (Ht : existsb (Z.eqb (Z.of_nat k)) axes = true).
  { apply existsb_exists. exists (Z.of_nat k). split; auto. apply Z.eqb_refl. }
  congruence.
Qed.

(** X2: when the mode is valid and the shape check passes, an axis outside
    [-ndim, ndim) makes [mnxc] raise IndexError (line 80). *)
Theorem mnxc_axis_out_of_range_raises
  (arr1 arr2 : ndarray Q) (m1 m2 : ndarray bool) (mode : string) (axes : list Z)
  (overlap_ratio : Q) (bad : Z) :
  mode = "full"%string \/ mode = "same"%string ->
  ndim arr2 = ndim arr1 ->
  (forall k, k < ndim arr1 -> ~ In (Z.of_nat k) axes ->
             nth k (shape arr1) 0 = nth k (shape arr2) 0) ->
  In bad axes ->
  ~ (- Z.of_nat (ndim arr1) <= bad < Z.of_nat (ndim arr1))%Z ->
  mnxc arr1 arr2 m1 m2 mode axes overlap_ratio = Raise IndexError.
Proof.
  intros Hm Hr Hoff Hin Hbad. unfold mnxc, mnxc_body.
  assert (E : negb (existsb (String.eqb mode) ["full"; "same"]%string) = false)
    by (destruct Hm as [-> | ->]; reflexivity).
  rewrite E. unfold ndim at 1.
  rewrite (shape_check_passes (shape arr1) (shape arr2) axes Hr Hoff). cbn [bind].
  rewrite (foldM_axis_out_of_range _ (ndim arr1)) with (bad := bad); auto.
  - intros l ax k Hl Hk.
    rewrite (py_getitem_norm (shape arr1) _ k 0) by exact Hk.
    rewrite (py_getitem_norm (shape arr2) _ k 0) by (fold (ndim arr2); now rewrite Hr).
    cbn [bind]. eexists. split.
    + apply py_setitem_norm. rewrite Hl. exact Hk.
    + rewrite length_list_set. exact Hl.
  - intros l ax Hl Hx. now rewrite py_getitem_out_of_range.
  - apply length_map.
  - now apply norm_index_out_of_range.
Qed.

Lemma mnxc_axis_out_of_range_raises_witness :
  ("full"%string = "full"%string \/ "full"%string = "same"%string) /\
  ndim img33 = ndim img33 /\
  (forall k, k < ndim img33 -> ~ In (Z.of_nat k) [0%Z; 2%Z] ->
             nth k (shape img33) 0 = nth k (shape img33) 0) /\
  In 2%Z [0%Z; 2%Z] /\
  ~ (- Z.of_nat (ndim img33) <= 2 < Z.of_nat (ndim img33))%Z /\
  mnxc img33 img33 mask33 mask33 "full" [0%Z; 2%Z] default_overlap_ratio = Raise IndexError.
Proof.
  assert (H1 : In 2%Z [0%Z; 2%Z]) by (right; now left).
  assert (H2 : ~ (- Z.of_nat (ndim img33) <= 2 < Z.of_nat (ndim img33))%Z)
    by (unfold ndim; simpl; lia).
  split; [now left|]. split; [reflexivity|]. split; [reflexivity|].
  split; [exact H1|]. split; [exact H2|].
  apply (mnxc_axis_out_of_range_raises img33 img33 mask33 mask33 "full" [0%Z; 2%Z]
           default_overlap_ratio 2%Z (or_introl eq_refl) eq_refl (fun _ _ _ => eq_refl) H1 H2).
Defined.

(** X3: on an input that is valid but for its masks, a mask that has the rank
    of its image and another shape makes [mnxc] raise IndexError: the fixed
    mask at line 94, the moving mask at line 95. *)
Theorem mnxc_mask_shape_mismatch_raises
  (arr1 arr2 : ndarray Q) (m1 m2 m1' m2' : ndarray bool) (mode : string) (axes : list Z)
  (overlap_ratio : Q) (ks : list nat) :
  valid_input arr1 arr2 m1 m2 mode axes ks ->
  (ndim m1' = ndim arr1 /\ shape m1' <> shape arr1) \/
  (shape m1' = shape arr1 /\ ndim m2' = ndim arr2 /\ shape m2' <> shape arr2) ->
  mnxc arr1 arr2 m1' m2' mode axes overlap_ratio = Raise IndexError.
Proof.
  intros V Hs. unfold mnxc, mnxc_body.
  rewrite (mode_ok _ _ _ _ _ _ _ V), (check_ok _ _ _ _ _ _ _ V). cbn [bind].
  rewrite (final_shape_ok _ _ _ _ _ _ _ V). cbn [bind].
  rewrite (fast_shape_ok _ _ _ _ _ _ _ V). cbn [bind].
  unfold setitem_mask at 1. cbn [shape logical_not nd_map].
  destruct (shape_eqb (shape arr1) (shape m1')) eqn:E1; [|reflexivity].
  cbn [bind]. unfold setitem_mask at 1. cbn [shape logical_not nd_map].
  destruct (shape_eqb (shape arr2) (shape m2')) eqn:E2; [|reflexivity].
  apply shape_eqb_eq in E1. apply shape_eqb_eq in E2.
  destruct Hs as [[_ Hs] | [_ [_ Hs]]]; exfalso; apply Hs; congruence.
Qed.

Lemma mnxc_mask_shape_mismatch_raises_witness :
  valid_input img33 img33 mask33 mask33 "full" [0%Z; 1%Z] [0; 1] /\
  ((ndim mask33 = ndim img33 /\ shape mask33 <> shape img33) \/
   (shape mask33 = shape img33 /\ ndim mask44 = ndim img33 /\ shape mask44 <> shape img33)) /\
  mnxc img33 img33 mask33 mask44 "full" [0%Z; 1%Z] default_overlap_ratio = Raise IndexError.
Proof.
  assert (V : valid_input img33 img33 mask33 mask33 "full" [0%Z; 1%Z] [0; 1]).
  { constructor; try reflexivity.
    - now left.
    - repeat constructor; simpl; intuition discriminate.
    - intros k [<-|[<-|[]]]; simpl; lia. }
  assert (Hs : (ndim mask33 = ndim img33 /\ shape mask33 <> shape img33) \/
               (shape mask33 = shape img33 /\ ndim mask44 = ndim img33 /\
                shape mask44 <> shape img33)).
  { right. split; [reflexivity|]. split; [reflexivity|discriminate]. }
  split; [exact V|]. split; [exact Hs|].
  apply (mnxc_mask_shape_mismatch_raises img33 img33 mask33 mask33 mask33 mask44 "full"
           [0%Z; 1%Z] default_overlap_ratio [0; 1] V Hs).
Defined.

Lemma mnxc_shape_check_witness :
  ("full"%string = "full"%string \/ "full"%string = "same"%string) /\
  ndim img33 = ndim const44 /\ 1 < ndim const44 /\ ~ In (Z.of_nat 1) default_axes /\
  nth 1 (shape const44) 0 <> nth 1 (shape img33) 0 /\
  mnxc const44 img33 mask44 mask33 "full" default_axes default_overlap_ratio
  = Raise ValueError_shape.
Proof.
  assert (Hn : ~ In (Z.of_nat 1) default_axes).
  { simpl. intros [E|[E|[]]]; discriminate E. }
  assert (Hne : nth 1 (shape const44) 0 <> nth 1 (shape img33) 0) by (simpl; lia).
  assert (Hlt : 1 < ndim const44) by (unfold ndim; simpl; lia).
  split; [now left|]. split; [reflexivity|]. split; [exact Hlt|].
  split; [exact Hn|]. split; [exact Hne|].
  apply (mnxc_shape_check const44 img33 mask44 mask33 "full" default_axes
           default_overlap_ratio 1 (or_introl eq_refl) eq_refl Hlt Hn Hne).
Defined.

(** ** Masked samples *)

Lemma zero_unmasked_ext (a a' : ndarray Q) (mask : ndarray bool) :
  wf mask -> shape mask = shape a -> shape a' = shape a ->
  (forall idx, item mask idx = true -> item a' idx = item a idx) ->
  zero_unmasked a' mask = zero_unmasked a mask.
Proof.
  intros Hwf Hm Hs Hv. unfold zero_unmasked, nd_zip. rewrite Hs.
  apply build_ext. intros idx Hb.
  cbn [shape logical_not nd_map]. rewrite Hm, (bcast_index_id _ _ Hb).
  rewrite item_logical_not by (auto; now rewrite Hm).
  destruct (item mask idx) eqn:E; simpl; auto.
Qed.

(** X4: the samples that the masks exclude have no influence: two pairs of
    images of the same shapes that agree wherever their mask is true give the
    same result, error included. *)
Theorem mnxc_ignores_masked_samples
  (arr1 arr1' arr2 arr2' : ndarray Q) (m1 m2 : ndarray bool) (mode : string)
  (axes : list Z) (overlap_ratio : Q) :
  wf m1 -> wf m2 ->
  shape m1 = shape arr1 -> shape m2 = shape arr2 ->
  shape arr1' = shape arr1 -> shape arr2' = shape arr2 ->
  (forall idx, item m1 idx = true -> item arr1' idx = item arr1 idx) ->
  (forall idx, item m2 idx = true -> item arr2' idx = item arr2 idx) ->
  mnxc arr1' arr2' m1 m2 mode axes overlap_ratio
  = mnxc arr1 arr2 m1 m2 mode axes overlap_ratio.
Proof.
  intros Hw1 Hw2 Hm1 Hm2 Hs1 Hs2 Hv1 Hv2.
  assert (E1 : setitem_mask arr1' (logical_not m1) 0%Q = setitem_mask arr1 (logical_not m1) 0%Q).
  { unfold setitem_mask. rewrite Hs1. destruct (shape_eqb _ _); auto.
    f_equal. now apply zero_unmasked_ext. }
  assert (E2 : setitem_mask arr2' (logical_not m2) 0%Q = setitem_mask arr2 (logical_not m2) 0%Q).
  { unfold setitem_mask. rewrite Hs2. destruct (shape_eqb _ _); auto.
    f_equal. now apply zero_unmasked_ext. }
  unfold mnxc, mnxc_body, ndim. rewrite Hs1, Hs2, E1, E2. reflexivity.
Qed.

Lemma mnxc_ignores_masked_samples_witness :
  mnxc (mk_ndarray [2; 2] [1; 2; 3; 99]%Q) (mk_ndarray [2; 2] [4; 3; 77; 1]%Q)
       (mk_ndarray [2; 2] [true; true; true; false])
       (mk_ndarray [2; 2] [true; true; false; true]) "full" [0%Z; 1%Z] (3 # 10)
  = mnxc (mk_ndarray [2; 2] [1; 2; 3; 4]%Q) (mk_ndarray [2; 2] [4; 3; 2; 1]%Q)
       (mk_ndarray [2; 2] [true; true; true; false])
       (mk_ndarray [2; 2] [true; true; false; true]) "full" [0%Z; 1%Z] (3 # 10).
Proof.
  apply (mnxc_ignores_masked_samples
           (mk_ndarray [2; 2] [1; 2; 3; 4]%Q) (mk_ndarray [2; 2] [1; 2; 3; 99]%Q)
           (mk_ndarray [2; 2] [4; 3; 2; 1]%Q) (mk_ndarray [2; 2] [4; 3; 77; 1]%Q)
           (mk_ndarray [2; 2] [true; true; true; false])
           (mk_ndarray [2; 2] [true; true; false; true]));
    try reflexivity.
  - intros idx. destruct idx as [|[|[|i]] [|[|[|j]] [|? ?]]]; try reflexivity; discriminate.
  - intros idx. destruct idx as [|[|[|i]] [|[|[|j]] [|? ?]]]; try reflexivity; discriminate.
Defined.

(** ** The two modes *)

Lemma valid_input_full
  (arr1 arr2 : ndarray Q) (m1 m2 : ndarray bool) (mode : string) (axes : list Z)
  (ks : list nat) :
  valid_input arr1 arr2 m1 m2 mode axes ks ->
  valid_input arr1 arr2 m1 m2 "full" axes ks.
Proof. intros [? ? ? ? ? ? ? ? ? ? ? ?]. constructor; auto. Qed.

Lemma valid_input_same
  (arr1 arr2 : ndarray Q) (m1 m2 : ndarray bool) (mode : string) (axes : list Z)
  (ks : list nat) :
  valid_input arr1 arr2 m1 m2 mode axes ks ->
  valid_input arr1 arr2 m1 m2 "same" axes ks.
Proof. intros [? ? ? ? ? ? ? ? ? ? ? ?]. constructor; auto. Qed.

(** X5: on a valid input the numerator, the denominator and the overlap count
    of mode 'same' are the centre crops, to the shape of the fixed image, of
    those of mode 'full'. *)
Theorem mnxc_same_crops_full
  (arr1 arr2 : ndarray Q) (m1 m2 : ndarray bool) (mode : string) (axes : list Z)
  (overlap_ratio : Q) (ks : list nat) :
  valid_input arr1 arr2 m1 m2 mode axes ks ->
  exists lf ls,
    mnxc_body arr1 arr2 m1 m2 "full" axes overlap_ratio = Ok lf /\
    mnxc_body arr1 arr2 m1 m2 "same" axes overlap_ratio = Ok ls /\
    _centered (numerator lf) (shape arr1) axes = Ok (numerator ls) /\
    _centered (denom lf) (shape arr1) axes = Ok (denom ls) /\
    _centered (number_overlap_masked_px lf) (shape arr1) axes
    = Ok (number_overlap_masked_px ls).
Proof.
  intros V.
  pose proof (valid_input_full _ _ _ _ _ _ _ V) as Vf.
  pose proof (valid_input_same _ _ _ _ _ _ _ V) as Vs.
  do 2 eexists.
  split; [apply (mnxc_body_valid _ _ _ _ _ _ overlap_ratio _ Vf)|].
  split; [apply (mnxc_body_valid _ _ _ _ _ _ overlap_ratio _ Vs)|].
  cbn [numerator denom number_overlap_masked_px run_locals].
  split; [|split]; apply (centered_same _ _ _ _ _ _ _ Vf).
Qed.

Lemma mnxc_same_crops_full_witness :
  valid_input const44 img33 mask44 mask33 "same" [0%Z; 1%Z] [0; 1] /\
  exists lf ls,
    mnxc_body const44 img33 mask44 mask33 "full" [0%Z; 1%Z] default_overlap_ratio = Ok lf /\
    mnxc_body const44 img33 mask44 mask33 "same" [0%Z; 1%Z] default_overlap_ratio = Ok ls /\
    _centered (numerator lf) (shape const44) [0%Z; 1%Z] = Ok (numerator ls) /\
    _centered (denom lf) (shape const44) [0%Z; 1%Z] = Ok (denom ls) /\
    _centered (number_overlap_masked_px lf) (shape const44) [0%Z; 1%Z]
    = Ok (number_overlap_masked_px ls).
Proof.
  assert (V : valid_input const44 img33 mask44 mask33 "same" [0%Z; 1%Z] [0; 1]).
  { constructor; try reflexivity.
    - now right.
    - repeat constructor; simpl; intuition discriminate.
    - intros k Hk Hn. exfalso. apply Hn. change (k < 2) in Hk.
      destruct k as [|[|k]]; [now left | right; now left | lia].
    - intros k [<-|[<-|[]]]; simpl; lia. }
  split; [exact V|].
  apply (mnxc_same_crops_full const44 img33 mask44 mask33 "same" [0%Z; 1%Z]
           default_overlap_ratio [0; 1] V).
Defined.

(** ** The overlap count *)

Lemma Qrint_integer (x : Q) : exists z : Z, Qrint x = inject_Z z.
Proof. unfold Qrint. destruct (_ ?= _)%Q; eauto. Qed.

Lemma eps_pos : (0 < eps)%Q.
Proof. reflexivity. Qed.

Lemma clamped_count (x : Q) :
  fmax (Qrint x) eps = eps \/ exists n : Z, (1 <= n)%Z /\ fmax (Qrint x) eps = inject_Z n.
Proof.
  destruct (Qrint_integer x) as [z ->]. unfold fmax.
  destruct (Qltb (inject_Z z) eps) eqn:E; [now left|]. right.
  apply Qltb_ge in E. exists z. split; auto.
  assert (H : (0 < inject_Z z)%Q) by (eapply Qlt_le_trans; [apply eps_pos|exact E]).
  unfold Qlt in H. simpl in H. lia.
Qed.

(** X6: on a valid input the overlap count that lines 116, 120 and 125
    divide by, the count on the padded grid of the inverse transform after
    the clamp of line 111, is at every offset of that grid either the epsilon
    floor or an integer that is at least 1, hence positive: none of the three
    divisions is by zero.  The same holds of the count after the crop of
    lines 131 to 138, at every offset of the result. *)
Theorem mnxc_overlap_count_positive
  (arr1 arr2 : ndarray Q) (m1 m2 : ndarray bool) (mode : string) (axes : list Z)
  (overlap_ratio : Q) (ks : list nat) :
  valid_input arr1 arr2 m1 m2 mode axes ks ->
  exists l,
    mnxc_body arr1 arr2 m1 m2 mode axes overlap_ratio = Ok l /\
    shape (number_overlap_padded l) = run_fast_shape arr1 arr2 ks /\
    (forall idx, in_bounds (run_fast_shape arr1 arr2 ks) idx ->
       exists v,
         get (number_overlap_padded l) idx = Some v /\
         (0 < v)%Q /\
         (v = eps \/ exists n : Z, (1 <= n)%Z /\ v = inject_Z n)) /\
    shape (number_overlap_masked_px l) = run_out_shape arr1 arr2 mode ks /\
    (forall idx, in_bounds (run_out_shape arr1 arr2 mode ks) idx ->
       exists v,
         get (number_overlap_masked_px l) idx = Some v /\
         (0 < v)%Q /\
         (v = eps \/ exists n : Z, (1 <= n)%Z /\ v = inject_Z n)).
Proof.
  intros V. eexists. split; [apply (mnxc_body_valid _ _ _ _ _ _ _ _ V)|].
  cbn [number_overlap_padded number_overlap_masked_px run_locals].
  assert (Hpos : forall x, (0 < fmax (Qrint x) eps)%Q /\
            (fmax (Qrint x) eps = eps \/
             exists n : Z, (1 <= n)%Z /\ fmax (Qrint x) eps = inject_Z n)).
  { intros x. destruct (clamped_count x) as [E | [n [Hn E]]]; rewrite E.
    - split; [apply eps_pos|now left].
    - split; [|right; eauto]. unfold Qlt. simpl. lia. }
  split; [reflexivity|]. split; [|split; [apply shape_run_crop|]].
  - intros idx Hb. unfold in_bounds in Hb.
    rewrite get_Some_item
      by (unfold run_overlap_padded; repeat apply wf_nd_map; try apply wf_build; exact Hb).
    eexists. split; [reflexivity|].
    unfold run_overlap_padded.
    rewrite !item_nd_map; auto; try apply wf_nd_map; try apply wf_build.
  - intros idx Hb. unfold in_bounds in Hb.
    unfold run_overlap.
    rewrite get_Some_item by (try apply wf_run_crop; now rewrite shape_run_crop).
    destruct (crop_item _ _ _ _ _ _ _ V (run_overlap_padded arr1 arr2 m1 m2 ks) idx Hb)
      as [idx' [Hb' ->]].
    eexists. split; [reflexivity|].
    unfold run_overlap_padded.
    rewrite !item_nd_map; auto; try apply wf_nd_map; try apply wf_build.
Qed.

Lemma mnxc_overlap_count_positive_witness :
  valid_input seq8 ramp8 tail8 head8 "same" [0%Z] [0] /\
  exists l,
    mnxc_body seq8 ramp8 tail8 head8 "same" [0%Z] (4 # 5) = Ok l /\
    shape (number_overlap_padded l) = run_fast_shape seq8 ramp8 [0] /\
    (forall idx, in_bounds (run_fast_shape seq8 ramp8 [0]) idx ->
       exists v,
         get (number_overlap_padded l) idx = Some v /\
         (0 < v)%Q /\
         (v = eps \/ exists n : Z, (1 <= n)%Z /\ v = inject_Z n)) /\
    shape (number_overlap_masked_px l) = run_out_shape seq8 ramp8 "same" [0] /\
    (forall idx, in_bounds (run_out_shape seq8 ramp8 "same" [0]) idx ->
       exists v,
         get (number_overlap_masked_px l) idx = Some v /\
         (0 < v)%Q /\
         (v = eps \/ exists n : Z, (1 <= n)%Z /\ v = inject_Z n)).
Proof.
  assert (V : valid_input seq8 ramp8 tail8 head8 "same" [0%Z] [0]).
  { constructor; try reflexivity.
    - now right.
    - repeat constructor; simpl; intuition discriminate.
    - intros k [<-|[]]; simpl; lia. }
  split; [exact V|].
  apply (mnxc_overlap_count_positive seq8 ramp8 tail8 head8 "same" [0%Z] (4 # 5) [0] V).
Defined.

(** ** The value at one offset *)






(** ** The overlap ratio *)

(** The maximum over a batch bounds the value at the offset itself. *)
Lemma batch_max_at_ge (nd : nat) (ks : list nat) (a : ndarray Q) (idx : list nat) :
  length (shape a) = nd ->
  in_boundsb (shape a) idx = true ->
  (item a idx <= batch_max_at nd ks a idx)%Q.
Proof.
  intros Hnd Hb. apply Qmax_list_ge. unfold batch_max_at.
  destruct (select_complete nd ks (shape a) Hnd idx idx Hb Hb (agree_off_refl _ _ _))
    as [j [Hj Hs]].
  apply in_map_iff. exists j. split; auto. now rewrite Hs.
Qed.

Section Ratio.
Variables (arr1 arr2 : ndarray Q) (m1 m2 : ndarray bool).
Variable mode : string.
Variable axes : list Z.
Variable ks : list nat.
Hypothesis V : valid_input arr1 arr2 m1 m2 mode axes ks.

Local Abbreviation q_shape := (run_out_shape arr1 arr2 mode ks).
Local Abbreviation q_overlap := (run_overlap arr1 arr2 m1 m2 mode ks).

Lemma overlap_pos (idx : list nat) :
  in_boundsb q_shape idx = true -> (0 < item q_overlap idx)%Q.
Proof.
  intros Hb. unfold run_overlap.
  destruct (crop_item _ _ _ _ _ _ _ V (run_overlap_padded arr1 arr2 m1 m2 ks) idx Hb)
    as [idx' [Hb' ->]].
  unfold run_overlap_padded.
  rewrite !item_nd_map; auto; try apply wf_nd_map; try apply wf_build.
  match goal with |- context [Qrint ?x] => destruct (clamped_count x) as [-> | [n [Hn ->]]] end.
  - apply eps_pos.
  - unfold Qlt. simpl. lia.
Qed.

Lemma overlap_le_max (idx : list nat) :
  in_boundsb q_shape idx = true ->
  (item q_overlap idx <= batch_max_at (ndim arr1) ks q_overlap idx)%Q.
Proof.
  intros Hb. apply batch_max_at_ge.
  - unfold run_overlap. rewrite shape_run_crop. apply length_out_shape.
  - unfold run_overlap. now rewrite shape_run_crop.
Qed.

Lemma overlap_max_pos (idx : list nat) :
  in_boundsb q_shape idx = true ->
  (0 < batch_max_at (ndim arr1) ks q_overlap idx)%Q.
Proof.
  intros Hb. apply Qlt_le_trans with (item q_overlap idx).
  - apply overlap_pos. exact Hb.
  - apply overlap_le_max. exact Hb.
Qed.

Lemma ratio_above_one_zero (r : Q) (idx : list nat) :
  (1 < r)%Q ->
  in_boundsb q_shape idx = true ->
  get (run_out arr1 arr2 m1 m2 mode r ks) idx = Some 0%Q.
Proof.
  intros Hr Hb. rewrite get_run_out by exact Hb.
  assert (Hlt : (item q_overlap idx < r * batch_max_at (ndim arr1) ks q_overlap idx)%Q).
  { eapply Qle_lt_trans; [apply overlap_le_max; exact Hb|].
    pose proof (overlap_max_pos idx Hb) as Hp.
    rewrite <- (Qmult_1_l (batch_max_at _ _ _ _)) at 1.
    apply Qmult_lt_compat_r; assumption. }
  apply (proj2 (Qltb_lt _ _)) in Hlt. now rewrite Hlt.
Qed.


Lemma ratio_monotone (r1 r2 : Q) (idx : list nat) :
  (r1 <= r2)%Q ->
  in_boundsb q_shape idx = true ->
  get (run_out arr1 arr2 m1 m2 mode r2 ks) idx = get (run_out arr1 arr2 m1 m2 mode r1 ks) idx \/
  get (run_out arr1 arr2 m1 m2 mode r2 ks) idx = Some 0%Q.
Proof.
  intros Hr Hb. rewrite !get_run_out by exact Hb.
  destruct (Qltb (item q_overlap idx) (r2 * _)) eqn:E2; [now right|left].
  destruct (Qltb (item q_overlap idx) (r1 * _)) eqn:E1; [|reflexivity].
  exfalso. apply Qltb_lt in E1. apply Qltb_ge in E2.
  apply (Qlt_irrefl (item q_overlap idx)).
  eapply Qlt_le_trans; [exact E1|]. eapply Qle_trans; [|exact E2].
  apply Qmult_le_compat_r; [exact Hr|].
  apply Qlt_le_weak. apply overlap_max_pos. exact Hb.
Qed.
End Ratio.

(** X9: with an overlap ratio above 1 the threshold of line 151 exceeds every
    overlap count of its batch, and a valid input gives an output that is 0 at
    every offset. *)
Theorem mnxc_ratio_above_one_all_zero
  (arr1 arr2 : ndarray Q) (m1 m2 : ndarray bool) (mode : string) (axes : list Z)
  (overlap_ratio : Q) (ks : list nat) :
  valid_input arr1 arr2 m1 m2 mode axes ks ->
  (1 < overlap_ratio)%Q ->
  exists out,
    mnxc arr1 arr2 m1 m2 mode axes overlap_ratio = Ok out /\
    shape out = run_out_shape arr1 arr2 mode ks /\
    forall idx, in_bounds (shape out) idx -> get out idx = Some 0%Q.
Proof.
  intros V Hr. eexists. split; [apply (mnxc_valid _ _ _ _ _ _ _ _ V)|].
  split; [apply shape_run_out|].
  intros idx Hb. unfold in_bounds in Hb. rewrite shape_run_out in Hb.
  now apply (ratio_above_one_zero _ _ _ _ _ _ _ V).
Qed.

Lemma mnxc_ratio_above_one_all_zero_witness :
  exists out,
    mnxc img33 img33 mask33 mask33 "full" [0%Z; 1%Z] (3 # 2) = Ok out /\
    shape out = run_out_shape img33 img33 "full" [0; 1] /\
    forall idx, in_bounds (shape out) idx -> get out idx = Some 0%Q.
Proof.
  apply (mnxc_ratio_above_one_all_zero img33 img33 mask33 mask33 "full" [0%Z; 1%Z]
           (3 # 2) [0; 1]).
  - constructor; try reflexivity.
    + now left.
    + repeat constructor; simpl; intuition discriminate.
    + intros k [<-|[<-|[]]]; simpl; lia.
  - reflexivity.
Defined.

(** X10: raising the overlap ratio only zeroes entries: for [r1 <= r2] the
    output computed with [r2] has, at every offset, either the value computed
    with [r1] or 0. *)
Theorem mnxc_overlap_ratio_monotone
  (arr1 arr2 : ndarray Q) (m1 m2 : ndarray bool) (mode : string) (axes : list Z)
  (r1 r2 : Q) (ks : list nat) :
  valid_input arr1 arr2 m1 m2 mode axes ks ->
  (r1 <= r2)%Q ->
  exists out1 out2,
    mnxc arr1 arr2 m1 m2 mode axes r1 = Ok out1 /\
    mnxc arr1 arr2 m1 m2 mode axes r2 = Ok out2 /\
    shape out2 = shape out1 /\
    forall idx, in_bounds (shape out1) idx ->
      get out2 idx = get out1 idx \/ get out2 idx = Some 0%Q.
Proof.
  intros V Hr. do 2 eexists.
  split; [apply (mnxc_valid _ _ _ _ _ _ _ _ V)|].
  split; [apply (mnxc_valid _ _ _ _ _ _ _ _ V)|].
  split; [now rewrite !shape_run_out|].
  intros idx Hb. unfold in_bounds in Hb. rewrite shape_run_out in Hb.
  now apply (ratio_monotone _ _ _ _ _ _ _ V).
Qed.

Lemma mnxc_overlap_ratio_monotone_witness :
  exists out1 out2,
    mnxc img33 img33 mask33 mask33 "full" [0%Z; 1%Z] (3 # 10) = Ok out1 /\
    mnxc img33 img33 mask33 mask33 "full" [0%Z; 1%Z] (1 # 2) = Ok out2 /\
    shape out2 = shape out1 /\
    forall idx, in_bounds (shape out1) idx ->
      get out2 idx = get out1 idx \/ get out2 idx = Some 0%Q.
Proof.
  apply (mnxc_overlap_ratio_monotone img33 img33 mask33 mask33 "full" [0%Z; 1%Z]
           (3 # 10) (1 # 2) [0; 1]).
  - constructor; try reflexivity.
    + now left.
    + repeat constructor; simpl; intuition discriminate.
    + intros k [<-|[<-|[]]]; simpl; lia.
  - discriminate.
Defined.



(** * Further properties of the helpers *)

(** ** _flip and the set of axes *)

Lemma flip_index_ext (ks ks' sh idx : list nat) :
  (forall k, k < length sh -> mem k ks = mem k ks') ->
  flip_index ks sh idx = flip_index ks' sh idx.
Proof.
  intros Hm. unfold flip_index. apply tab_ext. intros k Hk. now rewrite (Hm k Hk).
Qed.

Lemma flip_index_xor (ks1 ks2 ks3 sh idx : list nat) :
  (forall k, k < length sh -> mem k ks3 = xorb (mem k ks1) (mem k ks2)) ->
  in_boundsb sh idx = true ->
  flip_index ks1 sh (flip_index ks2 sh idx) = flip_index ks3 sh idx.
Proof.
  intros Hm Hb. apply in_boundsb_nth in Hb as [Hl Hb].
  unfold flip_index at 1 3. apply tab_ext. intros k Hk.
  unfold flip_index. rewrite nth_tab by assumption. rewrite (Hm k Hk).
  specialize (Hb k Hk). destruct (mem k ks1), (mem k ks2); simpl; lia.
Qed.

(** X13: [_flip] depends on the set of axes only: two axis arguments that
    designate the same axes, whatever the order, the repetitions and the
    negative spellings, and [None] against the tuple of all axes, give the
    same array. *)
Theorem flip_depends_on_axis_set {T} `{Default T}
  (arr : ndarray T) (axes axes' : option (list Z)) (ks ks' : list nat) :
  flipped_axes (ndim arr) axes ks ->
  flipped_axes (ndim arr) axes' ks' ->
  (forall k, k < ndim arr -> (In k ks <-> In k ks')) ->
  exists out, _flip arr axes = Ok out /\ _flip arr axes' = Ok out.
Proof.
  intros Hax Hax' Hset. eexists. split; [apply (flip_ok arr axes ks Hax)|].
  rewrite (flip_ok arr axes' ks' Hax'). f_equal.
  apply build_ext. intros idx Hb. f_equal. apply flip_index_ext.
  intros k Hk. specialize (Hset k Hk).
  destruct (mem k ks) eqn:E, (mem k ks') eqn:E'; auto.
  - apply mem_In in E. apply Hset in E. apply mem_In in E. congruence.
  - apply mem_In in E'. apply Hset in E'. apply mem_In in E'. congruence.
Qed.

Lemma flip_depends_on_axis_set_witness :
  exists out,
    _flip arr23 (Some [(-1)%Z; 0%Z; 1%Z; (-2)%Z]) = Ok out /\ _flip arr23 None = Ok out.
Proof.
  apply (flip_depends_on_axis_set arr23 (Some [(-1)%Z; 0%Z; 1%Z; (-2)%Z]) None
           [1; 0; 1; 0] [0; 1]).
  - reflexivity.
  - reflexivity.
  - intros k Hk. simpl. intuition.
Defined.

(** X14: two flips in a row are one flip along the axes that exactly one of
    the two reverses; the order of the two flips is thus irrelevant. *)
Theorem flip_twice_is_flip_of_difference {T} `{Default T}
  (arr : ndarray T) (axes1 axes2 axes3 : option (list Z)) (ks1 ks2 ks3 : list nat) :
  flipped_axes (ndim arr) axes1 ks1 ->
  flipped_axes (ndim arr) axes2 ks2 ->
  flipped_axes (ndim arr) axes3 ks3 ->
  (forall k, k < ndim arr -> mem k ks3 = xorb (mem k ks1) (mem k ks2)) ->
  exists a b c,
    _flip arr axes1 = Ok a /\ _flip a axes2 = Ok c /\
    _flip arr axes2 = Ok b /\ _flip b axes1 = Ok c /\
    _flip arr axes3 = Ok c.
Proof.
  intros H1 H2 H3 Hx. do 3 eexists.
  split; [apply (flip_ok arr axes1 ks1 H1)|].
  split; [|split; [apply (flip_ok arr axes2 ks2 H2)|split]].
  - rewrite (flip_ok _ axes2 ks2) by exact H2. rewrite shape_build. reflexivity.
  - rewrite (flip_ok _ axes1 ks1) by exact H1. rewrite shape_build. f_equal.
    apply build_ext. intros idx Hb.
    rewrite !item_build by (repeat apply flip_index_in_bounds; exact Hb).
    f_equal. rewrite (flip_index_xor ks2 ks1 ks3), (flip_index_xor ks1 ks2 ks3); auto.
    intros k Hk. rewrite (Hx k Hk). apply xorb_comm.
  - rewrite (flip_ok arr axes3 ks3 H3). f_equal.
    apply build_ext. intros idx Hb.
    rewrite item_build by (apply flip_index_in_bounds; exact Hb).
    f_equal. symmetry. now apply flip_index_xor.
Qed.

Lemma flip_twice_is_flip_of_difference_witness :
  exists a b c,
    _flip arr23 (Some [0%Z; 1%Z]) = Ok a /\ _flip a (Some [(-1)%Z]) = Ok c /\
    _flip arr23 (Some [(-1)%Z]) = Ok b /\ _flip b (Some [0%Z; 1%Z]) = Ok c /\
    _flip arr23 (Some [0%Z]) = Ok c.
Proof.
  apply (flip_twice_is_flip_of_difference arr23 (Some [0%Z; 1%Z]) (Some [(-1)%Z]) (Some [0%Z])
           [0; 1] [1] [0]).
  - reflexivity.
  - reflexivity.
  - reflexivity.
  - intros [|[|k]] Hk; reflexivity.
Defined.

(** ** _centered on any target *)

Lemma slice_resolve_centered (c n : nat) :
  slice_resolve
    (Slice (Some ((Z.of_nat c - Z.of_nat n) / 2)%Z)
           (Some ((Z.of_nat c - Z.of_nat n) / 2 + Z.of_nat n)%Z) None) c
  = Ok (Span (Z.of_nat (centered_start c n)) 1 (centered_len c n)).
Proof.
  unfold slice_resolve. cbn [sl_start sl_stop sl_step].
  change (1 =? 0)%Z with false. change (1 <? 0)%Z with false. cbv iota.
  unfold adjust_index. change (1 <? 0)%Z with false. cbv iota.
  assert (Hq : exists q : Z, ((Z.of_nat c - Z.of_nat n) / 2 = q /\
                 2 * q <= Z.of_nat c - Z.of_nat n < 2 * q + 2)%Z).
  { eexists. split; [reflexivity|].
    pose proof (Z.mul_div_le (Z.of_nat c - Z.of_nat n) 2 ltac:(lia)).
    pose proof (Z.mul_succ_div_gt (Z.of_nat c - Z.of_nat n) 2 ltac:(lia)). lia. }
  destruct Hq as [q [-> Hq]].
  assert (Hs : Z.of_nat (centered_start c n) = if (q <? 0)%Z then Z.max 0 (q + Z.of_nat c) else q).
  { unfold centered_start, centered_len. destruct (Nat.leb_spec n c) as [Hle|Hlt].
    - assert (Hq0 : (q <? 0)%Z = false) by lia. rewrite Hq0.
      assert (E : (c - n) / 2 = Z.to_nat q).
      { symmetry. apply Nat.div_unique with (Z.to_nat ((Z.of_nat c - Z.of_nat n) - 2 * q)); lia. }
      rewrite E. lia.
    - assert (Hq0 : (q <? 0)%Z = true) by lia. rewrite Hq0.
      assert (E : (n - c + 1) / 2 = Z.to_nat (- q)).
      { symmetry.
        apply Nat.div_unique with (Z.to_nat ((Z.of_nat n - Z.of_nat c + 1) + 2 * q)); lia. }
      rewrite E. lia. }
  assert (Hn : centered_len c n
               = Z.to_nat (Z.min (Z.of_nat c) (q + Z.of_nat n) - Z.of_nat (centered_start c n))).
  { rewrite Hs. unfold centered_len. destruct (Nat.leb_spec n c) as [Hle|Hlt].
    - assert (Hq0 : (q <? 0)%Z = false) by lia. rewrite Hq0. lia.
    - assert (Hq0 : (q <? 0)%Z = true) by lia. rewrite Hq0.
      assert (E : (n - c + 1) / 2 = Z.to_nat (- q)).
      { symmetry.
        apply Nat.div_unique with (Z.to_nat ((Z.of_nat n - Z.of_nat c + 1) + 2 * q)); lia. }
      rewrite E. lia. }
  rewrite Hn, Hs. clear Hn Hs.
  destruct (q <? 0)%Z eqn:E0.
  - destruct (q + Z.of_nat c <? 0)%Z eqn:E1;
      destruct (q + Z.of_nat n <? 0)%Z eqn:E2;
      try destruct (q + Z.of_nat n + Z.of_nat c <? 0)%Z eqn:E3;
      try destruct (Z.of_nat c <=? q + Z.of_nat n)%Z eqn:E4;
      repeat match goal with
             | |- context [(?a <? ?b)%Z] => destruct (Z.ltb_spec a b)
             end;
      do 2 f_equal; rewrite ?Z.div_1_r; lia.
  - destruct (Z.of_nat c <=? q)%Z eqn:E1;
      destruct (q + Z.of_nat n <? 0)%Z eqn:E2;
      try destruct (q + Z.of_nat n + Z.of_nat c <? 0)%Z eqn:E3;
      try destruct (Z.of_nat c <=? q + Z.of_nat n)%Z eqn:E4;
      repeat match goal with
             | |- context [(?a <? ?b)%Z] => destruct (Z.ltb_spec a b)
             end;
      do 2 f_equal; rewrite ?Z.div_1_r; lia.
Qed.

Lemma centered_len_le (c n : nat) : centered_len c n <= c.
Proof. unfold centered_len. destruct (Nat.leb_spec n c); lia. Qed.

Lemma centered_start_len (c n : nat) : centered_start c n + centered_len c n <= c.
Proof.
  unfold centered_start, centered_len. destruct (Nat.leb_spec n c) as [Hle|Hlt]; [|lia].
  pose proof (Nat.Div0.div_le_upper_bound (c - n) 2 (c - n)) as Hd.
  generalize dependent ((c - n) / 2). intros q Hq. lia.
Qed.

(** The result of [_centered] whenever the axes are axes of the array. *)
Lemma centered_any {T} `{Default T} (arr : ndarray T) (newshape : list nat) (axes : list Z)
  (ks : list nat) :
  length newshape = ndim arr ->
  axes_of (ndim arr) axes ks ->
  _centered arr newshape axes
  = Ok (build (tab (ndim arr)
                 (fun k => if mem k ks
                           then centered_len (nth k (shape arr) 0) (nth k newshape 0)
                           else nth k (shape arr) 0))
          (fun idx => item arr
             (tab (ndim arr)
                (fun k => if mem k ks
                          then nth k idx 0
                               + centered_start (nth k (shape arr) 0) (nth k newshape 0)
                          else nth k idx 0)))).
Proof.
  intros Hl Hax. unfold _centered.
  set (h := fun k : nat =>
              let c := Z.of_nat (nth k (shape arr) 0) in
              let n := Z.of_nat (nth k newshape 0) in
              Slice (Some ((c - n) / 2)%Z) (Some ((c - n) / 2 + n)%Z) None).
  rewrite (foldM_set_axes _ h (ndim arr)) with (ks := ks); auto.
  - simpl.
    set (spf := fun k : nat =>
                  if mem k ks
                  then Span (Z.of_nat (centered_start (nth k (shape arr) 0) (nth k newshape 0))) 1
                         (centered_len (nth k (shape arr) 0) (nth k newshape 0))
                  else Span 0 1 (nth k (shape arr) 0)).
    assert (Hr : resolve (set_axes h ks (repeat (Slice None None None) (ndim arr))) (shape arr)
                 = Ok (tab (length (shape arr)) spf)).
    { apply resolve_nth.
      - now rewrite length_set_axes, repeat_length.
      - intros k Hk. rewrite nth_set_axes.
        + unfold spf. destruct (mem k ks) eqn:E.
          * unfold h. cbv zeta. apply slice_resolve_centered.
          * rewrite nth_repeat_lt by assumption. apply slice_resolve_all.
        + intros k' Hk'. rewrite repeat_length. now apply (axes_of_lt _ _ _ Hax). }
    rewrite (getitem_resolved _ _ _ Hr). f_equal. rewrite map_tab.
    replace (tab (length (shape arr)) (fun k => sp_len (spf k)))
      with (tab (ndim arr)
              (fun k => if mem k ks
                        then centered_len (nth k (shape arr) 0) (nth k newshape 0)
                        else nth k (shape arr) 0)).
    + apply build_ext. intros idx Hb. f_equal.
      apply in_boundsb_length in Hb. rewrite length_tab in Hb.
      rewrite src_index_tab by assumption. apply tab_ext.
      intros k Hk. unfold spf. destruct (mem k ks) eqn:E; unfold span_src;
        cbn [sp_start sp_step]; lia.
    + apply tab_ext. intros k Hk. unfold spf. now destruct (mem k ks).
  - intros l ax k Hlen Hn.
    rewrite (py_getitem_norm _ _ k 0%Z) by (now rewrite length_map).
    rewrite (py_getitem_norm _ _ k 0%Z) by (now rewrite length_map, Hl).
    simpl. rewrite !nth_map_of_nat.
    apply py_setitem_norm. now rewrite Hlen.
  - apply repeat_length.
Qed.

(** X16: [_centered] never pads and never raises on a target that is larger
    than the array.  Along a cropped axis of length [c] with target [n > c]
    the start index [(c - n) // 2] is negative and is counted from the end:
    the result keeps the last [min c ((n - c + 1) / 2)] elements of the axis.
    On every axis the result is at most as long as the array. *)
Theorem centered_oversize_keeps_tail {T} `{Default T}
  (arr : ndarray T) (newshape : list nat) (axes : list Z) (ks : list nat) :
  wf arr ->
  length newshape = ndim arr ->
  axes_of (ndim arr) axes ks ->
  exists out,
    _centered arr newshape axes = Ok out /\
    ndim out = ndim arr /\
    (forall k, k < ndim arr -> nth k (shape out) 0 <= nth k (shape arr) 0) /\
    (forall k, In k ks -> nth k (shape arr) 0 < nth k newshape 0 ->
       nth k (shape out) 0
       = Nat.min (nth k (shape arr) 0) ((nth k newshape 0 - nth k (shape arr) 0 + 1) / 2)) /\
    forall idx, in_bounds (shape out) idx ->
      exists src v,
        in_bounds (shape arr) src /\
        (forall k, k < ndim arr ->
           nth k src 0
           = if mem k ks
             then (if nth k newshape 0 <=? nth k (shape arr) 0
                   then (nth k (shape arr) 0 - nth k newshape 0) / 2 + nth k idx 0
                   else nth k (shape arr) 0 - nth k (shape out) 0 + nth k idx 0)
             else nth k idx 0) /\
        get arr src = Some v /\
        get out idx = Some v.
Proof.
  intros Hwf Hl Hax. eexists. split; [apply (centered_any arr newshape axes ks Hl Hax)|].
  rewrite shape_build. unfold ndim at 1. rewrite shape_build, length_tab.
  split; [reflexivity|]. split; [|split].
  - intros k Hk. rewrite nth_tab by assumption.
    destruct (mem k ks); auto. apply centered_len_le.
  - intros k Hk Hlt. rewrite nth_tab by (now apply (axes_of_lt _ _ _ Hax)).
    apply mem_In in Hk. rewrite Hk. unfold centered_len.
    destruct (Nat.leb_spec (nth k newshape 0) (nth k (shape arr) 0)); [lia|reflexivity].
  - intros idx Hb. unfold in_bounds in Hb.
    match goal with |- context [get (build _ (fun idx => item arr (@?s idx))) _] =>
      exists (s idx), (item arr (s idx));
      assert (Hsrc : in_boundsb (shape arr) (s idx) = true)
    end.
    { apply in_boundsb_nth in Hb as [Hlen Hb]. rewrite length_tab in Hlen, Hb.
      apply in_boundsb_nth. cbv beta. rewrite length_tab. split; auto.
      intros k Hk. rewrite nth_tab by assumption.
      specialize (Hb k Hk). rewrite nth_tab in Hb by assumption.
      destruct (mem k ks) eqn:E; auto.
      pose proof (centered_start_len (nth k (shape arr) 0) (nth k newshape 0)). lia. }
    cbv beta in Hsrc |- *.
    split; [exact Hsrc|]. split; [|split].
    + intros k Hk. rewrite !nth_tab by assumption.
      destruct (mem k ks); auto. unfold centered_start.
      destruct (Nat.leb_spec (nth k newshape 0) (nth k (shape arr) 0)); lia.
    + now apply get_Some_item.
    + now rewrite get_build.
Qed.

Lemma centered_oversize_keeps_tail_witness :
  exists out,
    _centered arr23 [5; 3] [0%Z] = Ok out /\
    ndim out = ndim arr23 /\
    (forall k, k < ndim arr23 -> nth k (shape out) 0 <= nth k (shape arr23) 0) /\
    (forall k, In k [0] -> nth k (shape arr23) 0 < nth k [5; 3] 0 ->
       nth k (shape out) 0
       = Nat.min (nth k (shape arr23) 0) ((nth k [5; 3] 0 - nth k (shape arr23) 0 + 1) / 2)) /\
    forall idx, in_bounds (shape out) idx ->
      exists src v,
        in_bounds (shape arr23) src /\
        (forall k, k < ndim arr23 ->
           nth k src 0
           = if mem k [0]
             then (if nth k [5; 3] 0 <=? nth k (shape arr23) 0
                   then (nth k (shape arr23) 0 - nth k [5; 3] 0) / 2 + nth k idx 0
                   else nth k (shape arr23) 0 - nth k (shape out) 0 + nth k idx 0)
             else nth k idx 0) /\
        get arr23 src = Some v /\
        get out idx = Some v.
Proof.
  apply (centered_oversize_keeps_tail arr23 [5; 3] [0%Z] [0]); reflexivity.
Defined.

(** X17: [_centered] returns the array itself when the target has, on every
    cropped axis, the length the array already has there. *)
Theorem centered_same_shape_identity {T} `{Default T}
  (arr : ndarray T) (newshape : list nat) (axes : list Z) (ks : list nat) :
  wf arr ->
  length newshape = ndim arr ->
  axes_of (ndim arr) axes ks ->
  (forall k, In k ks -> nth k newshape 0 = nth k (shape arr) 0) ->
  _centered arr newshape axes = Ok arr.
Proof.
  intros Hwf Hl Hax Heq. rewrite (centered_any arr newshape axes ks Hl Hax). f_equal.
  transitivity (build (shape arr) (item arr)); [|now apply build_item].
  assert (Hsh : tab (ndim arr)
                  (fun k => if mem k ks
                            then centered_len (nth k (shape arr) 0) (nth k newshape 0)
                            else nth k (shape arr) 0) = shape arr).
  { symmetry. apply (tab_eq_iff _ _ _ 0); auto. intros k Hk.
    destruct (mem k ks) eqn:E; auto. apply mem_In in E. rewrite (Heq k E).
    unfold centered_len. now rewrite Nat.leb_refl. }
  rewrite Hsh. apply build_ext. intros idx Hb. f_equal.
  symmetry. apply (tab_eq_iff _ _ _ 0).
  - now apply in_boundsb_length.
  - intros k Hk. destruct (mem k ks) eqn:E; auto. apply mem_In in E. rewrite (Heq k E).
    unfold centered_start. rewrite Nat.leb_refl, Nat.sub_diag. simpl. lia.
Qed.

Lemma centered_same_shape_identity_witness :
  _centered arr23 [2; 7] [0%Z] = Ok arr23.
Proof.
  apply (centered_same_shape_identity arr23 [2; 7] [0%Z] [0]).
  - reflexivity.
  - reflexivity.
  - reflexivity.
  - intros k [<-|[]]. reflexivity.
Defined.

(** * expected_warnings *)

(** ** The entries None *)

Lemma filter_remove_None {A} (l : list (option A)) :
  filter (fun o => negb (is_None o)) (remove_None l) = filter (fun o => negb (is_None o)) l.
Proof.
  induction l as [|[x|] l IH]; simpl; auto. now rewrite IH.
Qed.

Lemma filter_no_None {A} (l : list (option A)) :
  existsb is_None l = false -> filter (fun o => negb (is_None o)) l = l.
Proof.
  induction l as [|[x|] l IH]; simpl; intros H.
  - reflexivity.
  - now rewrite IH.
  - discriminate.
Qed.

Lemma length_remove_None {A} (l : list (option A)) :
  existsb is_None l = true -> S (length (remove_None l)) = length l.
Proof.
  induction l as [|[x|] l IH]; simpl; intros H.
  - discriminate.
  - now rewrite IH.
  - reflexivity.
Qed.

(** The loop of lines 125 and 126 ends within [length matching] rounds and
    leaves the entries that are not [None], in their order. *)
Lemma remove_Nones_filter {A} (fuel : nat) (l : list (option A)) :
  length l <= fuel ->
  remove_Nones fuel l = filter (fun o => negb (is_None o)) l.
Proof.
  revert l. induction fuel as [|fuel IH]; intros l Hl.
  - destruct l; [reflexivity|simpl in Hl; lia].
  - simpl. destruct (existsb is_None l) eqn:E.
    + rewrite IH, filter_remove_None; auto.
      apply length_remove_None in E. lia.
    + symmetry. now apply filter_no_None.
Qed.

Lemma strings_filter (l : list (option string)) :
  strings (filter (fun o => negb (is_None o)) l) = strings l.
Proof.
  unfold strings. induction l as [|[x|] l IH]; simpl; auto. now rewrite IH.
Qed.

Lemma In_strings (l : list (option string)) (m : string) :
  In m (strings l) <-> In (Some m) l.
Proof.
  unfold strings. rewrite in_flat_map. split.
  - intros [[x|] [Hx Hm]]; simpl in Hm; [|destruct Hm].
    destruct Hm as [<-|[]]. exact Hx.
  - intros H. exists (Some m). split; auto. now left.
Qed.

Lemma filter_idem {A} (f : A -> bool) (l : list A) : filter f (filter f l) = filter f l.
Proof.
  induction l as [|x l IH]; simpl; auto.
  destruct (f x) eqn:E; simpl; rewrite ?E, IH; reflexivity.
Qed.

Lemma filter_andb {A} (f g : A -> bool) (l : list A) :
  filter f (filter g l) = filter (fun x => g x && f x) l.
Proof.
  induction l as [|x l IH]; simpl; auto.
  destruct (g x) eqn:E; simpl; [destruct (f x)|]; now rewrite IH.
Qed.

(** ** The list [remaining] *)

Lemma str_in_In (x : string) (l : list string) : str_in x l = true <-> In x l.
Proof.
  unfold str_in. rewrite existsb_exists. split.
  - intros [y [Hy E]]. apply String.eqb_eq in E. now subst.
  - intros H. exists x. split; auto. apply String.eqb_refl.
Qed.

Lemma count_str_remove (x r : string) (l : list string) :
  count_occ string_dec (str_remove x l) r
  = if string_dec x r then pred (count_occ string_dec l r) else count_occ string_dec l r.
Proof.
  induction l as [|y l IH]; simpl.
  - now destruct (string_dec x r).
  - destruct (String.eqb_spec y x) as [->|Hne].
    + destruct (string_dec x r); reflexivity.
    + simpl. destruct (string_dec y r) as [->|Hyr].
      * rewrite IH. destruct (string_dec x r); [congruence|reflexivity].
      * exact IH.
Qed.

Lemma filter_str_remove (f : string -> bool) (x : string) (l : list string) :
  f x = false -> filter f (str_remove x l) = filter f l.
Proof.
  intros Hx. induction l as [|y l IH]; simpl; auto.
  destruct (String.eqb_spec y x) as [->|Hne].
  - now rewrite Hx.
  - simpl. now rewrite IH.
Qed.

Lemma count_filter_le (f : string -> bool) (l : list string) (r : string) :
  count_occ string_dec (filter f l) r <= count_occ string_dec l r.
Proof.
  induction l as [|y l IH]; simpl; auto.
  destruct (f y); simpl; destruct (string_dec y r); lia.
Qed.

Lemma filter_count_zero (f : string -> bool) (l : list string) :
  (forall r, f r = false -> count_occ string_dec l r = 0) -> filter f l = l.
Proof.
  induction l as [|y l IH]; simpl; intros H; auto.
  destruct (f y) eqn:E.
  - f_equal. apply IH. intros r Hr. specialize (H r Hr).
    destruct (string_dec y r); [discriminate|exact H].
  - specialize (H y E). destruct (string_dec y y); [discriminate|congruence].
Qed.

Section WarningsCheck.
Variable re_search : string -> string -> option bool.

Local Abbreviation matched := (matches re_search).

Lemma matches_true (m msg : string) : matched m msg = true <-> re_search m msg = Some true.
Proof.
  unfold matches. destruct (re_search m msg) as [[|]|]; split; congruence.
Qed.

(** One warning against the patterns: [found] tells whether some pattern
    matches, and every pattern that matches has left [remaining]. *)
Lemma scan_matching_ok (msg : string) (matching : list string) :
  (forall m, In m matching -> re_search m msg <> None) ->
  forall found remaining,
    (forall r, matched r msg = true ->
       count_occ string_dec remaining r <= count_occ string_dec matching r) ->
    scan_matching re_search msg matching found remaining
    = Returns (found || existsb (fun m => matched m msg) matching,
           filter (fun r => negb (matched r msg)) remaining).
Proof.
  induction matching as [|m matching IH]; intros Hc found remaining Hcount.
  - simpl. rewrite orb_false_r. f_equal. f_equal. symmetry.
    apply filter_count_zero. intros r Hr. apply negb_false_iff in Hr.
    specialize (Hcount r Hr). simpl in Hcount. lia.
  - simpl. assert (Hm := Hc m (or_introl eq_refl)).
    assert (Hc' : forall m', In m' matching -> re_search m' msg <> None)
      by (intros m' Hm'; apply Hc; now right).
    unfold matches at 1. destruct (re_search m msg) as [[|]|] eqn:E; [| |congruence].
    + assert (Hhit : matched m msg = true) by (now apply matches_true).
      rewrite IH; auto.
      * rewrite orb_true_r. simpl. f_equal. f_equal.
        destruct (str_in m remaining); auto.
        apply filter_str_remove. now rewrite Hhit.
      * intros r Hr. specialize (Hcount r Hr). simpl in Hcount.
        destruct (str_in m remaining) eqn:Ein.
        -- rewrite count_str_remove. destruct (string_dec m r); lia.
        -- destruct (string_dec m r) as [->|Hne]; [|exact Hcount].
           assert (Hz : count_occ string_dec remaining r = 0).
           { apply count_occ_not_In. intros Hin. apply str_in_In in Hin. congruence. }
           lia.
    + rewrite IH; auto.
      intros r Hr. specialize (Hcount r Hr). simpl in Hcount.
      destruct (string_dec m r) as [->|Hne]; [|exact Hcount].
      apply matches_true in Hr. congruence.
Qed.

(** Without the strict flag the loop over the warnings only filters
    [remaining]. *)
Lemma scan_warnings_lenient (matching w : list string) :
  (forall m msg, In m matching -> In msg w -> re_search m msg <> None) ->
  forall remaining,
    (forall r, count_occ string_dec remaining r <= count_occ string_dec matching r) ->
    scan_warnings re_search false matching w remaining
    = Returns (filter (fun r => negb (existsb (matched r) w)) remaining).
Proof.
  induction w as [|msg w IH]; intros Hc remaining Hcount.
  - simpl. f_equal. symmetry. apply filter_count_zero. intros r Hr. discriminate.
  - simpl. rewrite scan_matching_ok; auto.
    + simpl. rewrite IH.
      * f_equal. rewrite filter_andb. apply filter_ext. intros r.
        cbn [existsb]. now rewrite negb_orb.
      * intros m msg' Hm Hmsg. apply Hc; auto. now right.
      * intros r. eapply Nat.le_trans; [apply count_filter_le|apply Hcount].
    + intros m Hm. apply Hc; auto. now left.
Qed.

(** With the strict flag, as long as every warning is matched. *)
Lemma scan_warnings_strict_matched (matching w : list string) :
  (forall m msg, In m matching -> In msg w -> re_search m msg <> None) ->
  (forall msg, In msg w -> existsb (fun m => matched m msg) matching = true) ->
  forall remaining,
    (forall r, count_occ string_dec remaining r <= count_occ string_dec matching r) ->
    scan_warnings re_search true matching w remaining
    = Returns (filter (fun r => negb (existsb (matched r) w)) remaining).
Proof.
  induction w as [|msg w IH]; intros Hc Hall remaining Hcount.
  - simpl. f_equal. symmetry. apply filter_count_zero. intros r Hr. discriminate.
  - simpl. rewrite scan_matching_ok; auto.
    + rewrite (Hall msg (or_introl eq_refl)). simpl. rewrite IH.
      * f_equal. rewrite filter_andb. apply filter_ext. intros r.
        cbn [existsb]. now rewrite negb_orb.
      * intros m msg' Hm Hmsg. apply Hc; auto. now right.
      * intros msg' Hmsg. apply Hall. now right.
      * intros r. eapply Nat.le_trans; [apply count_filter_le|apply Hcount].
    + intros m Hm. apply Hc; auto. now left.
Qed.

(** With the strict flag, the first warning that no pattern matches. *)
Lemma scan_warnings_strict_unexpected (matching w1 w2 : list string) (msg : string) :
  (forall m msg', In m matching -> In msg' (w1 ++ [msg]) -> re_search m msg' <> None) ->
  (forall msg', In msg' w1 -> existsb (fun m => matched m msg') matching = true) ->
  existsb (fun m => matched m msg) matching = false ->
  forall remaining,
    (forall r, count_occ string_dec remaining r <= count_occ string_dec matching r) ->
    scan_warnings re_search true matching (w1 ++ msg :: w2) remaining
    = Raises (ValueError_unexpected msg).
Proof.
  induction w1 as [|msg1 w1 IH]; intros Hc Hall Hun remaining Hcount.
  - simpl. rewrite scan_matching_ok; auto.
    + now rewrite Hun.
    + intros m Hm. apply Hc; auto. now left.
  - simpl. rewrite scan_matching_ok; auto.
    + rewrite (Hall msg1 (or_introl eq_refl)). simpl. apply IH; auto.
      * intros m msg' Hm Hmsg. apply Hc; auto. now right.
      * intros msg' Hmsg. apply Hall. now right.
      * intros r. eapply Nat.le_trans; [apply count_filter_le|apply Hcount].
    + intros m Hm. apply Hc; auto. now left.
Qed.

Lemma exit_check_patterns (strict : bool) (matching : list (option string)) (w : list string) :
  fst (exit_check re_search strict matching w) = filter (fun o => negb (is_None o)) matching.
Proof. unfold exit_check. cbn [fst]. now apply remove_Nones_filter. Qed.
End WarningsCheck.

(** ** The check at the exit of the context *)

(** Either every element passes a test or there is a first one that fails. *)
Lemma first_failure {A} (p : A -> bool) (l : list A) :
  (forall x, In x l -> p x = true) \/
  exists l1 x l2, l = l1 ++ x :: l2 /\ (forall y, In y l1 -> p y = true) /\ p x = false.
Proof.
  induction l as [|a l IH].
  - left. intros x [].
  - destruct (p a) eqn:E.
    + destruct IH as [Hall | [l1 [x [l2 [-> [H1 Hx]]]]]].
      * left. intros x [<-|Hx]; auto.
      * right. exists (a :: l1), x, l2. split; [reflexivity|]. split; [|exact Hx].
        intros y [<-|Hy]; auto.
    + right. exists [], a, l. split; [reflexivity|]. split; [|exact E]. intros y [].
Qed.

Lemma split_nonempty (sep : Ascii.ascii) (s : string) : split sep s <> [].
Proof.
  destruct s as [|c s]; simpl; [discriminate|].
  destruct (Ascii.eqb c sep); [discriminate|].
  destruct (split sep s); discriminate.
Qed.

(** Splitting at a separator splits the two sides. *)
Lemma split_append (sep : Ascii.ascii) (s t : string) :
  split sep (s ++ String sep t) = split sep s ++ split sep t.
Proof.
  induction s as [|c s IH]; simpl.
  - now rewrite Ascii.eqb_refl.
  - destruct (Ascii.eqb c sep); [now rewrite IH|].
    rewrite IH. pose proof (split_nonempty sep s) as Hn.
    destruct (split sep s); [congruence|reflexivity].
Qed.

Section WarningsExit.
Variable re_search : string -> string -> option bool.
Variable py_int : string -> option Z.

Local Abbreviation matched_by := (matches re_search).

Lemma existsb_matched (l : list (option string)) (msg : string) :
  existsb (fun m => matched_by m msg) (strings l) = true <->
  exists m, In (Some m) l /\ re_search m msg = Some true.
Proof.
  rewrite existsb_exists. split.
  - intros [m [Hm Hs]]. exists m. split; [now apply In_strings|now apply matches_true].
  - intros [m [Hm Hs]]. exists m. split; [now apply In_strings|now apply matches_true].
Qed.

Lemma existsb_warning (m : string) (w : list string) :
  existsb (matched_by m) w = true <-> exists msg, In msg w /\ re_search m msg = Some true.
Proof.
  rewrite existsb_exists. split.
  - intros [msg [Hm Hs]]. exists msg. split; [exact Hm|now apply matches_true].
  - intros [msg [Hm Hs]]. exists msg. split; [exact Hm|now apply matches_true].
Qed.

(** The check of a strict context once every warning is matched. *)
Lemma exit_check_strict_matched (matching : list (option string)) (w : list string) :
  (forall m msg, In (Some m) matching -> In msg w -> re_search m msg <> None) ->
  (forall msg, In msg w -> existsb (fun m => matched_by m msg) (strings matching) = true) ->
  snd (exit_check re_search true matching w)
  = match filter (fun m => negb (is_optional m) && negb (existsb (matched_by m) w))
            (strings matching) with
    | [] => Returns tt
    | m :: remaining => Raises (ValueError_no_warning (m :: remaining))
    end.
Proof.
  intros Hc Hall. unfold exit_check. cbn [snd].
  rewrite remove_Nones_filter by auto. rewrite strings_filter.
  rewrite scan_warnings_strict_matched; auto.
  - rewrite filter_andb. now destruct (filter _ (strings matching)).
  - intros m msg Hm Hmsg. apply Hc; auto. now apply In_strings.
  - intros r. apply count_filter_le.
Qed.

(** X18: in a strict context, and for patterns that compile, the check at the
    exit accepts exactly when every recorded warning is matched by some
    pattern and every pattern that is not optional matches some recorded
    warning. *)
Theorem expected_warnings_strict_accepts_iff (matching : list (option string)) (w : list string) :
  (forall m msg, In (Some m) matching -> In msg w -> re_search m msg <> None) ->
  snd (exit_check re_search true matching w) = Returns tt <->
  (forall msg, In msg w -> exists m, In (Some m) matching /\ re_search m msg = Some true) /\
  (forall m, In (Some m) matching -> is_optional m = false ->
     exists msg, In msg w /\ re_search m msg = Some true).
Proof.
  intros Hc.
  destruct (first_failure (fun msg => existsb (fun m => matched_by m msg) (strings matching)) w)
    as [Hall | [w1 [msg [w2 [-> [H1 Hx]]]]]].
  - rewrite (exit_check_strict_matched matching w Hc Hall). split.
    + intros Hok. split.
      * intros msg Hmsg. apply existsb_matched. now apply Hall.
      * intros m Hm Hopt. apply existsb_warning.
        destruct (existsb (matched_by m) w) eqn:E; auto.
        assert (Hin : In m (filter (fun m => negb (is_optional m)
                                            && negb (existsb (matched_by m) w))
                              (strings matching))).
        { apply filter_In. split; [now apply In_strings|]. now rewrite Hopt, E. }
        destruct (filter _ (strings matching)); [destruct Hin|discriminate].
    + intros [_ Hreq].
      destruct (filter _ (strings matching)) as [|m rest] eqn:E; auto.
      assert (Hin : In m (m :: rest)) by now left.
      rewrite <- E in Hin. apply filter_In in Hin as [Hm Hf].
      apply andb_prop in Hf as [Hopt Hno].
      apply negb_true_iff in Hopt. apply negb_true_iff in Hno.
      apply In_strings in Hm. apply (Hreq m Hm) in Hopt.
      apply existsb_warning in Hopt. congruence.
  - split.
    + intros Hok. exfalso. unfold exit_check in Hok. cbn [snd] in Hok.
      rewrite remove_Nones_filter, strings_filter in Hok by auto.
      rewrite scan_warnings_strict_unexpected in Hok; auto; try discriminate.
      * intros m msg' Hm Hmsg. apply Hc; [now apply In_strings|].
        apply in_app_iff in Hmsg as [Hmsg|[<-|[]]]; apply in_app_iff; auto.
        right. now left.
      * intros r. apply count_filter_le.
    + intros [Hall _]. exfalso.
      assert (Hin : In msg (w1 ++ msg :: w2)) by (apply in_app_iff; right; now left).
      apply Hall, existsb_matched in Hin. congruence.
Qed.

(** X19: in a strict context the check raises for the first recorded warning
    that no pattern matches, with that warning in the message, whatever
    follows it and even when patterns have found no warning: the patterns are
    never tried on the warnings after it. *)
Theorem expected_warnings_first_unexpected_warning
  (matching : list (option string)) (w1 w2 : list string) (msg : string) :
  (forall m msg', In (Some m) matching -> In msg' w1 -> re_search m msg' <> None) ->
  (forall msg', In msg' w1 ->
     exists m, In (Some m) matching /\ re_search m msg' = Some true) ->
  (forall m, In (Some m) matching -> re_search m msg = Some false) ->
  snd (exit_check re_search true matching (w1 ++ msg :: w2))
  = Raises (ValueError_unexpected msg).
Proof.
  intros Hc Hall Hun. unfold exit_check. cbn [snd].
  rewrite remove_Nones_filter, strings_filter by auto.
  rewrite scan_warnings_strict_unexpected; auto.
  - intros m msg' Hm Hmsg. apply In_strings in Hm.
    apply in_app_iff in Hmsg as [Hmsg|[<-|[]]]; [now apply Hc|].
    rewrite (Hun m Hm). discriminate.
  - intros msg' Hmsg. apply existsb_matched. now apply Hall.
  - destruct (existsb (fun m => matched_by m msg) (strings matching)) eqn:E; auto.
    apply existsb_matched in E as [m [Hm Hs]]. rewrite (Hun m Hm) in Hs. discriminate.
  - intros r. apply count_filter_le.
Qed.

(** X20: in a strict context in which every recorded warning is matched, the
    check raises exactly when some pattern that is not optional has matched no
    warning, and its message lists these patterns, all of them, in the order
    and with the repetitions of [matching]. *)
Theorem expected_warnings_reports_unmatched_patterns
  (matching : list (option string)) (w : list string) :
  (forall m msg, In (Some m) matching -> In msg w -> re_search m msg <> None) ->
  (forall msg, In msg w -> exists m, In (Some m) matching /\ re_search m msg = Some true) ->
  snd (exit_check re_search true matching w)
  = match filter (fun m => negb (is_optional m) && negb (existsb (matches re_search m) w))
            (strings matching) with
    | [] => Returns tt
    | m :: remaining => Raises (ValueError_no_warning (m :: remaining))
    end.
Proof.
  intros Hc Hall. apply exit_check_strict_matched; auto.
  intros msg Hmsg. apply existsb_matched. now apply Hall.
Qed.

(** X21: when SKIMAGE_TEST_STRICT_WARNINGS is ['false'] in any letter case, the
    context never complains, whatever was recorded, as long as the patterns
    compile; [int] is not called on the variable. *)
Theorem expected_warnings_lenient_accepts
  (v : string) (matching : list (option string)) (w : list string) :
  lower v = "false"%string ->
  (forall m msg, In (Some m) matching -> In msg w -> re_search m msg <> None) ->
  expected_warnings re_search py_int (Some v) (MatchingList matching) w = Returns tt.
Proof.
  intros Hv Hc.
  assert (Hs : strict_flag py_int (Some v) = Returns false).
  { unfold strict_flag. cbv zeta. rewrite Hv. reflexivity. }
  unfold expected_warnings. rewrite Hs.
  unfold exit_check. cbn [snd].
  rewrite remove_Nones_filter, strings_filter by auto.
  rewrite scan_warnings_lenient; auto.
  - intros m msg Hm Hmsg. apply Hc; auto. now apply In_strings.
  - intros r. apply count_filter_le.
Qed.

(** X22: the check removes the entries [None] from the caller's list, and only
    them, whatever its outcome; the outcome is the one for the list without
    these entries. *)
Theorem expected_warnings_drops_none_entries
  (strict_warnings : bool) (matching : list (option string)) (w : list string) :
  fst (exit_check re_search strict_warnings matching w)
  = filter (fun o => negb (is_None o)) matching /\
  exit_check re_search strict_warnings (filter (fun o => negb (is_None o)) matching) w
  = exit_check re_search strict_warnings matching w.
Proof.
  split; [apply exit_check_patterns|].
  unfold exit_check. rewrite !remove_Nones_filter by auto.
  now rewrite filter_idem.
Qed.

(** X23: a pattern that ends with the alternative [|\A\Z] is optional: a strict
    context whose patterns all end so accepts a body that raises no warning. *)
Theorem expected_warnings_optional_patterns_may_stay_silent
  (matching : list (option string)) :
  (forall m, In (Some m) matching -> exists p, m = (p ++ "|\A\Z")%string) ->
  snd (exit_check re_search true matching []) = Returns tt.
Proof.
  intros Hopt. unfold exit_check. cbn [snd scan_warnings].
  rewrite remove_Nones_filter, strings_filter by auto.
  assert (E : filter (fun m => negb (is_optional m)) (strings matching) = []).
  { destruct (filter _ (strings matching)) as [|m rest] eqn:E; auto. exfalso.
    assert (Hin : In m (m :: rest)) by now left.
    rewrite <- E in Hin. apply filter_In in Hin as [Hm Hf].
    apply In_strings in Hm. destruct (Hopt m Hm) as [p ->].
    apply negb_true_iff in Hf. unfold is_optional in Hf.
    change ("|\A\Z"%string) with (String (Ascii.ascii_of_nat 124) "\A\Z") in Hf.
    rewrite split_append in Hf. rewrite existsb_app in Hf.
    apply orb_false_iff in Hf as [_ Hf]. discriminate Hf. }
  now rewrite E.
Qed.
End WarningsExit.

Lemma expected_warnings_strict_accepts_iff_witness :
  snd (exit_check literal_search true [Some "deprecated"; None; Some "slow|\A\Z"]%string
         ["this function is deprecated"]%string) = Returns tt <->
  (forall msg, In msg ["this function is deprecated"]%string ->
     exists m, In (Some m) [Some "deprecated"; None; Some "slow|\A\Z"]%string /\
               literal_search m msg = Some true) /\
  (forall m, In (Some m) [Some "deprecated"; None; Some "slow|\A\Z"]%string ->
     is_optional m = false ->
     exists msg, In msg ["this function is deprecated"]%string /\
                 literal_search m msg = Some true).
Proof.
  apply (expected_warnings_strict_accepts_iff literal_search
           [Some "deprecated"; None; Some "slow|\A\Z"]%string
           ["this function is deprecated"]%string).
  intros m msg _ _. discriminate.
Defined.

Lemma expected_warnings_first_unexpected_warning_witness :
  snd (exit_check literal_search true [Some "deprecated"; Some "precision"]%string
         (["this is deprecated"%string] ++ "overflow"%string :: ["loss of precision"%string]))
  = Raises (ValueError_unexpected "overflow").
Proof.
  apply (expected_warnings_first_unexpected_warning literal_search
           [Some "deprecated"; Some "precision"]%string
           ["this is deprecated"]%string ["loss of precision"]%string "overflow"%string).
  - intros m msg' _ _. discriminate.
  - intros msg' [<-|[]]. exists "deprecated"%string. split; [now left|reflexivity].
  - intros m [E|[E|[]]]; injection E as <-; reflexivity.
Defined.

Lemma expected_warnings_reports_unmatched_patterns_witness :
  snd (exit_check literal_search true
         [Some "precision"; Some "deprecated"; Some "slow|\A\Z"; Some "precision"]%string
         ["this is deprecated"]%string)
  = Raises (ValueError_no_warning ["precision"; "precision"]%string).
Proof.
  apply (expected_warnings_reports_unmatched_patterns literal_search
           [Some "precision"; Some "deprecated"; Some "slow|\A\Z"; Some "precision"]%string
           ["this is deprecated"]%string).
  - intros m msg _ _. discriminate.
  - intros msg [<-|[]]. exists "deprecated"%string. split; [right; now left|reflexivity].
Defined.

Lemma expected_warnings_lenient_accepts_witness :
  expected_warnings literal_search int_digits (Some "False"%string)
    (MatchingList [Some "deprecated"]%string) ["overflow"]%string = Returns tt.
Proof.
  apply (expected_warnings_lenient_accepts literal_search int_digits "False"%string
           [Some "deprecated"]%string ["overflow"]%string).
  - reflexivity.
  - intros m msg _ _. discriminate.
Defined.

Lemma expected_warnings_optional_patterns_may_stay_silent_witness :
  snd (exit_check literal_search true [Some "slow|\A\Z"; None; Some "a|b|\A\Z"]%string [])
  = Returns tt.
Proof.
  apply (expected_warnings_optional_patterns_may_stay_silent literal_search
           [Some "slow|\A\Z"; None; Some "a|b|\A\Z"]%string).
  intros m [E|[E|[E|[]]]]; try discriminate E; injection E as <-.
  - now exists "slow"%string.
  - now exists "a|b"%string.
Defined.

(** * manual_segmentation.py *)

(** ** The callbacks *)

Lemma list_pop_app {A} (l : list A) (x : A) : list_pop (l ++ [x]) = Returns (l, x).
Proof. unfold list_pop. now rewrite rev_unit, rev_involutive. Qed.

Lemma nonempty_last {A} (l : list A) : l <> [] -> exists l' x, l = l' ++ [x].
Proof.
  intros H. destruct (exists_last H) as [l' [x E]]. now exists l', x.
Qed.

Lemma length_one {A} (l : list A) : length l = 1 -> exists x, l = [x].
Proof.
  destruct l as [|x [|y l]]; simpl; intros H; try discriminate. now exists x.
Qed.

Lemma artist_remove_shown (ax0 : mpl_axes) (a : nat) :
  In a (artists ax0) ->
  artist_remove ax0 a
  = Returns (mk_axes (filter (fun b => negb (b =? a)) (artists ax0)) (next_artist ax0)).
Proof.
  intros Hin. unfold artist_remove.
  assert (E : existsb (Nat.eqb a) (artists ax0) = true).
  { apply existsb_exists. exists a. split; auto. apply Nat.eqb_refl. }
  now rewrite E.
Qed.

Lemma In_filter_neq (a b : nat) (l : list nat) :
  In b (filter (fun c => negb (c =? a)) l) <-> In b l /\ b <> a.
Proof.
  rewrite filter_In. split; intros [H1 H2]; split; auto.
  - apply negb_true_iff, Nat.eqb_neq in H2. exact H2.
  - apply negb_true_iff, Nat.eqb_neq. exact H2.
Qed.

Lemma session_start_ok : session_ok session_start.
Proof.
  constructor; simpl.
  - reflexivity.
  - reflexivity.
  - intros v [].
  - intros a. tauto.
  - constructor.
  - intros a [].
Qed.

Lemma undo_ok (s : session) :
  session_ok s -> exists s', _undo s = Returns s' /\ session_ok s' /\
    list_of_vertex_lists s' = removelast (list_of_vertex_lists s) /\
    temp_list s' = temp_list s /\
    preview_polygon_drawn s' = preview_polygon_drawn s.
Proof.
  intros [Hd Hp Hv Hs Ho Hf]. unfold _undo.
  destruct (list_of_vertex_lists s) as [|v0 vl0] eqn:El.
  - exists s. split; [reflexivity|]. split; [|auto].
    constructor; auto. now rewrite El. now rewrite El.
  - destruct (nonempty_last (v0 :: vl0)) as [vl [v E]]; [discriminate|].
    rewrite E in *. clear E v0 vl0.
    destruct (nonempty_last (polygons_drawn s)) as [pd [h Epd]].
    { intros E. rewrite E in Hd. rewrite length_app in Hd. simpl in Hd. lia. }
    rewrite Epd in *. rewrite !list_pop_app. cbn [obind fst snd].
    assert (Hin : In h (artists (ax s))).
    { apply Hs. left. apply in_app_iff. right. now left. }
    rewrite (artist_remove_shown _ _ Hin). cbn [obind].
    eexists. split; [reflexivity|]. split; [|cbn; split; [|auto]].
    + assert (Hnd := Ho). rewrite <- app_assoc in Hnd. simpl in Hnd.
      apply NoDup_remove in Hnd as [Hnd Hnot].
      constructor; cbn.
      * rewrite !length_app in Hd. simpl in Hd. lia.
      * exact Hp.
      * intros v' Hv'. apply Hv. apply in_app_iff. now left.
      * intros a. rewrite In_filter_neq, Hs, in_app_iff. simpl. split.
        -- intros [[[H1|[H1|[]]]|H1] H2]; auto; congruence.
        -- intros [H1|H1]; (split; [tauto|]); intros ->; apply Hnot, in_app_iff; auto.
      * exact Hnd.
      * intros a Ha. apply In_filter_neq in Ha as [Ha _]. now apply Hf.
    + rewrite removelast_app by discriminate. simpl. now rewrite app_nil_r.
Qed.

Lemma draw_polygon_fresh (ax0 : mpl_axes) (l : list nat) :
  (forall a, In a (artists ax0) -> a < next_artist ax0) ->
  (forall a, In a l -> In a (artists ax0)) ->
  ~ In (next_artist ax0) l.
Proof. intros Hf Hl Hin. apply Hl, Hf in Hin. lia. Qed.

Lemma left_click_ok (s : session) (event : mouse_event) :
  session_ok s ->
  inaxes event = Some Image_axes -> toolbar_active event = false ->
  button event = LEFT_CLICK ->
  exists s', _extend_polygon s event = Returns s' /\ session_ok s' /\
    list_of_vertex_lists s' = list_of_vertex_lists s /\
    temp_list s' = temp_list s ++ [(xdata event, ydata event)].
Proof.
  intros [Hd Hp Hv Hs Ho Hf] Hin Ht Hb. unfold _extend_polygon.
  rewrite Hin, Ht, Hb. cbn [Nat.eqb LEFT_CLICK].
  destruct (preview_polygon_drawn s) as [|p0 pv0] eqn:Ep.
  - cbn [obind fst snd _draw_polygon artists next_artist].
    eexists. split; [reflexivity|]. split; [|cbn; auto].
    constructor; cbn.
    + exact Hd.
    + now destruct (temp_list s).
    + exact Hv.
    + intros a. rewrite in_app_iff, Hs. simpl. tauto.
    + rewrite app_nil_r in Ho. apply NoDup_app; auto.
      * repeat constructor. intros [].
      * intros a Ha [<-|[]]. apply (draw_polygon_fresh (ax s) (polygons_drawn s)); auto.
        intros b Hb'. apply Hs. now left.
    + intros a Ha. apply in_app_iff in Ha as [Ha|[<-|[]]]; [apply Hf in Ha|]; lia.
  - assert (Hl : length (p0 :: pv0) = 1) by (rewrite Hp; now destruct (temp_list s)).
    apply length_one in Hl as [p Epv]. rewrite Epv in *. clear Epv p0 pv0.
    change [p] with ([] ++ [p]). rewrite list_pop_app. cbn [obind fst snd].
    assert (Hshown : In p (artists (ax s))) by (apply Hs; right; now left).
    rewrite (artist_remove_shown _ _ Hshown).
    cbn [obind fst snd _draw_polygon artists next_artist app].
    eexists. split; [reflexivity|]. split; [|cbn; auto].
    assert (Hnd := Ho). apply NoDup_remove in Hnd as [Hnd Hnot].
    rewrite app_nil_r in Hnd, Hnot.
    constructor; cbn.
    + exact Hd.
    + now destruct (temp_list s).
    + exact Hv.
    + intros a. rewrite in_app_iff, In_filter_neq, Hs. simpl. split.
      * intros [[[H1|[H1|[]]] H2]|[H1|[]]]; auto; congruence.
      * intros [H1|[H1|[]]]; auto; left; split; auto; intros ->; contradiction.
    + apply NoDup_app; auto.
      * repeat constructor. intros [].
      * intros a Ha [<-|[]]. apply (draw_polygon_fresh (ax s) (polygons_drawn s)); auto.
        intros b Hb'. apply Hs. now left.
    + intros a Ha. apply in_app_iff in Ha as [Ha|[<-|[]]]; [|lia].
      apply In_filter_neq in Ha as [Ha _]. apply Hf in Ha. lia.
Qed.

Lemma right_click_ok (s : session) (event : mouse_event) :
  session_ok s ->
  inaxes event = Some Image_axes -> toolbar_active event = false ->
  button event = RIGHT_CLICK ->
  temp_list s <> [] ->
  exists s', _extend_polygon s event = Returns s' /\ session_ok s' /\
    list_of_vertex_lists s' = list_of_vertex_lists s ++ [temp_list s] /\
    temp_list s' = [].
Proof.
  intros [Hd Hp Hv Hs Ho Hf] Hin Ht Hb Hne. unfold _extend_polygon.
  rewrite Hin, Ht, Hb. cbn [Nat.eqb LEFT_CLICK RIGHT_CLICK].
  destruct (temp_list s) as [|v0 tl0] eqn:Et; [congruence|].
  apply length_one in Hp as [p Epv]. rewrite Epv in *.
  change [p] with ([] ++ [p]). rewrite list_pop_app. cbn [obind fst snd].
  cbn [_draw_polygon fst snd].
  assert (Hshown : In p (artists (ax s))) by (apply Hs; right; now left).
  rewrite artist_remove_shown by (cbn; apply in_app_iff; now left).
  cbn [obind artists next_artist].
  eexists. split; [reflexivity|]. split; [|cbn; auto].
  assert (Hnd := Ho). apply NoDup_remove in Hnd as [Hnd Hnot].
  rewrite app_nil_r in Hnd, Hnot.
  assert (Hfresh : ~ In (next_artist (ax s)) (polygons_drawn s)).
  { apply (draw_polygon_fresh (ax s)); auto. intros b Hb'. apply Hs. now left. }
  constructor; cbn.
  - rewrite !length_app. simpl. lia.
  - reflexivity.
  - intros v Hin'. apply in_app_iff in Hin' as [Hin'|[<-|[]]]; [now apply Hv|discriminate].
  - intros a. rewrite In_filter_neq, !in_app_iff, Hs. simpl. split.
    + intros [[[H1|[H1|[]]]|[H1|[]]] H2]; auto; congruence.
    + intros [[H1|[H1|[]]]|[]].
      * split; auto. intros ->. contradiction.
      * split; auto. subst a. intros E. apply Hf in Hshown. lia.
  - rewrite app_nil_r. apply NoDup_app; auto.
    + repeat constructor. intros [].
    + intros a Ha [<-|[]]. contradiction.
  - intros a Ha. apply In_filter_neq in Ha as [Ha _].
    apply in_app_iff in Ha as [Ha|[<-|[]]]; [apply Hf in Ha|]; lia.
Qed.


Lemma extend_polygon_ok (s : session) (event : mouse_event) :
  session_ok s -> exists s', _extend_polygon s event = Returns s' /\ session_ok s'.
Proof.
  intros Hok.
  destruct (inaxes event) as [[|]|] eqn:Hin;
    try (exists s; split; [unfold _extend_polygon; now rewrite Hin|exact Hok]).
  destruct (toolbar_active event) eqn:Ht;
    try (exists s; split; [unfold _extend_polygon; now rewrite Hin, Ht|exact Hok]).
  destruct (button event =? LEFT_CLICK) eqn:Hl.
  - apply Nat.eqb_eq in Hl.
    destruct (left_click_ok s event Hok Hin Ht Hl) as [s' [E [Hok' _]]]. now exists s'.
  - destruct (button event =? RIGHT_CLICK) eqn:Hr.
    + destruct (temp_list s) as [|v0 tl0] eqn:Et.
      * exists s. split; [|exact Hok]. unfold _extend_polygon.
        now rewrite Hin, Ht, Hl, Hr, Et.
      * apply Nat.eqb_eq in Hr.
        destruct (right_click_ok s event Hok Hin Ht Hr) as [s' [E [Hok' _]]];
          [rewrite Et; discriminate|]. now exists s'.
    + exists s. split; [|exact Hok]. unfold _extend_polygon. now rewrite Hin, Ht, Hl, Hr.
Qed.

Lemma lasso_selection_ok (s : session) (vertices : list vertex) :
  session_ok s -> exists s', _on_lasso_selection s vertices = Returns s' /\ session_ok s' /\
    temp_list s' = temp_list s /\
    list_of_vertex_lists s'
    = if length vertices <? 3 then list_of_vertex_lists s
      else list_of_vertex_lists s ++ [vertices].
Proof.
  intros [Hd Hp Hv Hs Ho Hf]. unfold _on_lasso_selection.
  destruct (length vertices <? 3) eqn:E.
  - exists s. split; [reflexivity|]. split; [now constructor|]. split; reflexivity.
  - apply Nat.ltb_ge in E. cbn [_draw_polygon fst snd].
    eexists. split; [reflexivity|]. split; [|split; reflexivity].
    assert (Hfresh : ~ In (next_artist (ax s))
                       (polygons_drawn s ++ preview_polygon_drawn s)).
    { apply (draw_polygon_fresh (ax s)); auto. intros b Hb'. apply Hs.
      now apply in_app_iff in Hb'. }
    constructor; cbn.
    + rewrite !length_app. simpl. lia.
    + exact Hp.
    + intros v Hin'. apply in_app_iff in Hin' as [Hin'|[<-|[]]]; [now apply Hv|].
      intros ->. simpl in E. lia.
    + intros a. rewrite !in_app_iff, Hs. simpl. tauto.
    + rewrite <- app_assoc. simpl.
      apply NoDup_app.
      * now apply NoDup_app_remove_r in Ho.
      * constructor; [|now apply NoDup_app_remove_l in Ho].
        intros Hin'. apply Hfresh, in_app_iff. now right.
      * intros a Ha [<-|Ha'].
        -- apply Hfresh, in_app_iff. now left.
        -- apply NoDup_app_remove_r in Ho as Hpd.
           clear - Ho Ha Ha'. induction (polygons_drawn s) as [|x l IH]; [destruct Ha|].
           simpl in Ho. inversion Ho as [|? ? Hx Hl]; subst.
           destruct Ha as [->|Ha]; [apply Hx, in_app_iff; now right|now apply IH].
    + intros a Ha. apply in_app_iff in Ha as [Ha|[<-|[]]]; [apply Hf in Ha|]; lia.
Qed.

Lemma polygon_callbacks_ok (events : list gui_event) (s : session) :
  session_ok s ->
  exists s', ofoldM polygon_callbacks events s = Returns s' /\ session_ok s'.
Proof.
  revert s. induction events as [|e events IH]; intros s Hok.
  - exists s. split; [reflexivity|exact Hok].
  - simpl. destruct e as [|event|vertices]; simpl.
    + destruct (undo_ok s Hok) as [s1 [-> [Hok1 _]]]. simpl. now apply IH.
    + destruct (extend_polygon_ok s event Hok) as [s1 [-> Hok1]]. simpl. now apply IH.
    + now apply IH.
Qed.

(** X24: whatever the user does in the window of
    [manual_polygon_segmentation], no callback raises: [_undo] and the right
    click never pop an empty list and never remove an artist twice.  When the
    window closes there is one drawn polygon for each confirmed vertex list,
    no confirmed vertex list is empty, a preview is shown exactly while
    vertices are being selected, and the axes show the confirmed polygons and
    the preview and nothing else. *)
Theorem polygon_callbacks_never_raise (events : list gui_event) :
  exists s, ofoldM polygon_callbacks events session_start = Returns s /\ session_ok s.
Proof. apply polygon_callbacks_ok, session_start_ok. Qed.

Lemma lasso_callbacks_ok (events : list gui_event) (s : session) :
  session_ok s -> temp_list s = [] ->
  (forall vertices, In vertices (list_of_vertex_lists s) -> 3 <= length vertices) ->
  exists s', ofoldM lasso_callbacks events s = Returns s' /\ session_ok s' /\
    temp_list s' = [] /\
    forall vertices, In vertices (list_of_vertex_lists s') -> 3 <= length vertices.
Proof.
  revert s. induction events as [|e events IH]; intros s Hok Ht H3.
  - exists s. split; [reflexivity|]. auto.
  - simpl. destruct e as [|event|vertices]; simpl.
    + destruct (undo_ok s Hok) as [s1 [-> [Hok1 [El [Et _]]]]]. simpl.
      apply IH; auto; [congruence|].
      intros v Hv. apply H3. rewrite El in Hv.
      clear - Hv. induction (list_of_vertex_lists s) as [|x [|y l] IH]; simpl in *; auto.
      destruct Hv as [->|Hv]; auto.
    + now apply IH.
    + destruct (lasso_selection_ok s vertices Hok) as [s1 [-> [Hok1 [Et El]]]]. simpl.
      apply IH; auto; [congruence|].
      intros v Hv. rewrite El in Hv. destruct (length vertices <? 3) eqn:E; auto.
      apply in_app_iff in Hv as [Hv|[<-|[]]]; auto. now apply Nat.ltb_ge in E.
Qed.

(** X25: whatever the user does in the window of [manual_lasso_segmentation],
    no callback raises, and every selection that is kept has at least three
    vertices; [manual_polygon_segmentation] gives no such bound. *)
Theorem lasso_callbacks_keep_polygons_only (events : list gui_event) :
  exists s,
    ofoldM lasso_callbacks events session_start = Returns s /\
    session_ok s /\
    forall vertices, In vertices (list_of_vertex_lists s) -> 3 <= length vertices.
Proof.
  destruct (lasso_callbacks_ok events session_start session_start_ok eq_refl)
    as [s [E [Hok [_ H3]]]].
  - intros v [].
  - now exists s.
Qed.

Lemma undo_drawn (s s' : session) :
  session_ok s -> _undo s = Returns s' ->
  polygons_drawn s' = removelast (polygons_drawn s) /\
  next_artist (ax s') = next_artist (ax s) /\
  artists (ax s')
  = match list_of_vertex_lists s with
    | [] => artists (ax s)
    | _ :: _ => filter (fun a => negb (a =? last (polygons_drawn s) 0)) (artists (ax s))
    end.
Proof.
  intros [Hd Hp Hv Hs Ho Hf] E. unfold _undo in E.
  destruct (list_of_vertex_lists s) as [|v0 vl0] eqn:El.
  - injection E as <-. destruct (polygons_drawn s); [auto|discriminate Hd].
  - destruct (nonempty_last (v0 :: vl0)) as [vl [v Ev]]; [discriminate|].
    rewrite Ev in *. clear Ev v0 vl0.
    destruct (nonempty_last (polygons_drawn s)) as [pd [h Epd]].
    { intros E0. rewrite E0 in Hd. rewrite length_app in Hd. simpl in Hd. lia. }
    rewrite Epd in *. rewrite !list_pop_app in E. cbn [obind fst snd] in E.
    assert (Hin : In h (artists (ax s))).
    { apply Hs. left. apply in_app_iff. right. now left. }
    rewrite (artist_remove_shown _ _ Hin) in E. cbn [obind] in E.
    injection E as <-. cbn [polygons_drawn ax artists next_artist].
    rewrite removelast_app by discriminate. simpl. rewrite app_nil_r, last_last.
    destruct vl; auto.
Qed.

(** X26: [_undo] never raises between two events.  It discards the vertex
    list confirmed last and the polygon drawn for it, which it removes from
    the axes, the other artists staying in their order; it changes nothing
    when no vertex list is confirmed.  The vertices being selected and their
    preview stay. *)
Theorem undo_discards_last_confirmed (s : session) :
  session_ok s ->
  exists s',
    _undo s = Returns s' /\ session_ok s' /\
    list_of_vertex_lists s' = removelast (list_of_vertex_lists s) /\
    polygons_drawn s' = removelast (polygons_drawn s) /\
    temp_list s' = temp_list s /\
    preview_polygon_drawn s' = preview_polygon_drawn s /\
    next_artist (ax s') = next_artist (ax s) /\
    artists (ax s')
    = match list_of_vertex_lists s with
      | [] => artists (ax s)
      | _ :: _ => filter (fun a => negb (a =? last (polygons_drawn s) 0)) (artists (ax s))
      end /\
    (list_of_vertex_lists s <> [] ->
     In (last (polygons_drawn s) 0) (artists (ax s)) /\
     ~ In (last (polygons_drawn s) 0) (artists (ax s'))).
Proof.
  intros Hok.
  destruct (undo_ok s Hok) as [s' [E [Hok' [El [Et Ep]]]]].
  destruct (undo_drawn s s' Hok E) as [Hpd [Hn Ha]].
  exists s'. repeat (split; [assumption|]).
  intros Hne. destruct Hok as [Hd _ _ Hs _ _].
  destruct (list_of_vertex_lists s) as [|v0 vl0]; [congruence|].
  split.
  - apply Hs. left.
    destruct (nonempty_last (polygons_drawn s)) as [pd [h Epd]].
    { intros E0. rewrite E0 in Hd. discriminate Hd. }
    rewrite Epd, last_last. apply in_app_iff. right. now left.
  - rewrite Ha. intros Hin. apply filter_In in Hin as [_ Hin].
    now rewrite Nat.eqb_refl in Hin.
Qed.

(** The session after three left clicks, the right click that confirms the
    triangle and a fourth left click: undo removes the triangle, artist 3,
    and leaves the preview, artist 4. *)
Lemma undo_discards_last_confirmed_witness :
  session_ok session_triangle /\
  (exists s',
    _undo session_triangle = Returns s' /\ session_ok s' /\
    list_of_vertex_lists s' = removelast (list_of_vertex_lists session_triangle) /\
    polygons_drawn s' = removelast (polygons_drawn session_triangle) /\
    temp_list s' = temp_list session_triangle /\
    preview_polygon_drawn s' = preview_polygon_drawn session_triangle /\
    next_artist (ax s') = next_artist (ax session_triangle) /\
    artists (ax s')
    = match list_of_vertex_lists session_triangle with
      | [] => artists (ax session_triangle)
      | _ :: _ => filter (fun a => negb (a =? last (polygons_drawn session_triangle) 0))
                    (artists (ax session_triangle))
      end /\
    (list_of_vertex_lists session_triangle <> [] ->
     In (last (polygons_drawn session_triangle) 0) (artists (ax session_triangle)) /\
     ~ In (last (polygons_drawn session_triangle) 0) (artists (ax s')))) /\
  ofoldM polygon_callbacks
    [Button_press (mk_mouse_event (Some Image_axes) false LEFT_CLICK 0 0);
     Button_press (mk_mouse_event (Some Image_axes) false LEFT_CLICK 4 0);
     Button_press (mk_mouse_event (Some Image_axes) false LEFT_CLICK 0 3);
     Button_press (mk_mouse_event (Some Image_axes) false RIGHT_CLICK 0 0);
     Button_press (mk_mouse_event (Some Image_axes) false LEFT_CLICK 5 5)]
    session_start
  = Returns session_triangle /\
  _undo session_triangle
  = Returns (mk_session [] [] [(5, 5)%Q] [4] (mk_axes [4] 5)).
Proof.
  assert (Hok : session_ok session_triangle).
  { constructor; simpl.
    - reflexivity.
    - reflexivity.
    - intros v [<-|[]]. discriminate.
    - intros a. tauto.
    - repeat constructor; simpl; intuition discriminate.
    - intros a [<-|[<-|[]]]; lia. }
  split; [exact Hok|]. split.
  - apply (undo_discards_last_confirmed session_triangle Hok).
  - split; reflexivity.
Defined.

(** Left clicks on the image, one for each vertex. *)
Lemma left_clicks_ok (clicks : list mouse_event) (s : session) :
  session_ok s ->
  (forall event, In event clicks ->
     inaxes event = Some Image_axes /\ toolbar_active event = false /\
     button event = LEFT_CLICK) ->
  exists s',
    ofoldM polygon_callbacks (map Button_press clicks) s = Returns s' /\ session_ok s' /\
    list_of_vertex_lists s' = list_of_vertex_lists s /\
    temp_list s' = temp_list s ++ map (fun event => (xdata event, ydata event)) clicks.
Proof.
  revert s. induction clicks as [|event clicks IH]; intros s Hok Hc.
  - exists s. split; [reflexivity|]. split; [exact Hok|]. split; [reflexivity|].
    simpl. now rewrite app_nil_r.
  - destruct (Hc event (or_introl eq_refl)) as [Hin [Ht Hb]].
    destruct (left_click_ok s event Hok Hin Ht Hb) as [s1 [E1 [Hok1 [El1 Et1]]]].
    destruct (IH s1 Hok1) as [s' [E' [Hok' [El' Et']]]].
    { intros e He. apply Hc. now right. }
    exists s'. simpl. rewrite E1. simpl. split; [exact E'|]. split; [exact Hok'|].
    split; [congruence|]. rewrite Et', Et1, <- app_assoc. reflexivity.
Qed.

Lemma ofoldM_app {E A B} (f : B -> A -> outcome E B) (l1 l2 : list A) (b b1 : B) :
  ofoldM f l1 b = Returns b1 -> ofoldM f (l1 ++ l2) b = ofoldM f l2 b1.
Proof.
  revert b. induction l1 as [|x l1 IH]; intros b Hb; simpl in *.
  - now injection Hb as ->.
  - destruct (f b x) as [b'|e]; simpl in *; [now apply IH|discriminate].
Qed.

(** X27: left clicks on the image followed by a right click confirm one
    polygon: its vertices are the vertices selected before and the positions
    of the clicks, in their order; afterwards no vertex is selected.  One
    click is enough: the polygon may have fewer than three vertices. *)
Theorem clicks_confirm_polygon (s : session) (clicks : list mouse_event) (confirm : mouse_event) :
  session_ok s ->
  (forall event, In event clicks ->
     inaxes event = Some Image_axes /\ toolbar_active event = false /\
     button event = LEFT_CLICK) ->
  inaxes confirm = Some Image_axes -> toolbar_active confirm = false ->
  button confirm = RIGHT_CLICK ->
  temp_list s <> [] \/ clicks <> [] ->
  exists s',
    ofoldM polygon_callbacks (map Button_press clicks ++ [Button_press confirm]) s
    = Returns s' /\
    session_ok s' /\
    list_of_vertex_lists s'
    = list_of_vertex_lists s
      ++ [temp_list s ++ map (fun event => (xdata event, ydata event)) clicks] /\
    temp_list s' = [].
Proof.
  intros Hok Hc Hin Ht Hb Hne.
  destruct (left_clicks_ok clicks s Hok Hc) as [s1 [E1 [Hok1 [El1 Et1]]]].
  destruct (right_click_ok s1 confirm Hok1 Hin Ht Hb) as [s' [E' [Hok' [El' Et']]]].
  { rewrite Et1. intros E. apply app_eq_nil in E as [E1' E2'].
    destruct Hne as [Hne|Hne]; [contradiction|].
    destruct clicks; [contradiction|discriminate]. }
  exists s'. rewrite (ofoldM_app _ _ [Button_press confirm] _ _ E1). simpl. rewrite E'. simpl.
  split; [reflexivity|]. split; [exact Hok'|]. split; [|exact Et'].
  now rewrite El', El1, Et1.
Qed.

Lemma clicks_confirm_polygon_witness :
  exists s',
    ofoldM polygon_callbacks
      (map Button_press [mk_mouse_event (Some Image_axes) false LEFT_CLICK 2 5]
       ++ [Button_press (mk_mouse_event (Some Image_axes) false RIGHT_CLICK 0 0)])
      session_start
    = Returns s' /\
    session_ok s' /\
    list_of_vertex_lists s'
    = list_of_vertex_lists session_start
      ++ [temp_list session_start
          ++ map (fun event => (xdata event, ydata event))
               [mk_mouse_event (Some Image_axes) false LEFT_CLICK 2 5]] /\
    temp_list s' = [].
Proof.
  apply (clicks_confirm_polygon session_start
           [mk_mouse_event (Some Image_axes) false LEFT_CLICK 2 5]
           (mk_mouse_event (Some Image_axes) false RIGHT_CLICK 0 0)).
  - exact session_start_ok.
  - intros event [<-|[]]. repeat split.
  - reflexivity.
  - reflexivity.
  - reflexivity.
  - right. discriminate.
Defined.

(** ** The labels *)

Lemma existsb_pixel (r c : nat) (pixels : list (nat * nat)) :
  existsb (fun p => shape_eqb [r; c] [fst p; snd p]) pixels = true <-> In (r, c) pixels.
Proof.
  rewrite existsb_exists. split.
  - intros [[r' c'] [Hin E]]. apply shape_eqb_eq in E. simpl in E.
    injection E as -> ->. exact Hin.
  - intros Hin. exists (r, c). split; [exact Hin|]. apply shape_eqb_refl.
Qed.

Lemma enumerate_app {A} (l : list A) (x : A) (start : nat) :
  enumerate (l ++ [x]) start = enumerate l start ++ [(start + length l, x)].
Proof.
  revert start. induction l as [|y l IH]; intros start; simpl.
  - now rewrite Nat.add_0_r.
  - rewrite IH. replace (S start + length l) with (start + S (length l)) by lia. reflexivity.
Qed.

Lemma shape_fold_maximum (masks : list (ndarray Z)) (init : ndarray Z) :
  shape (fold_left (nd_zip Z.max) masks init) = shape init.
Proof.
  revert init. induction masks as [|m masks IH]; intros init; simpl; auto.
  now rewrite IH.
Qed.

(** [reduce(np.maximum, masks, init)] at one pixel. *)
Lemma item_fold_maximum (sh idx : list nat) (masks : list (ndarray Z)) (init : ndarray Z) :
  (forall m, In m masks -> shape m = sh) -> shape init = sh ->
  in_boundsb sh idx = true ->
  item (fold_left (nd_zip Z.max) masks init) idx
  = fold_left Z.max (map (fun m => item m idx) masks) (item init idx).
Proof.
  intros Hm Hi Hb. revert init Hi. induction masks as [|m masks IH]; intros init Hi; simpl; auto.
  rewrite IH.
  - f_equal. rewrite item_nd_zip by (now rewrite Hi).
    rewrite (Hm m (or_introl eq_refl)), (bcast_index_id _ _ Hb). reflexivity.
  - intros m' Hm'. apply Hm. now right.
  - exact Hi.
Qed.

Section LabelsFacts.
Variable polygon : list Q -> list Q -> list nat -> list (nat * nat).
Variables M N : nat.
Hypothesis clipped :
  forall pr pc p, In p (polygon pr pc [M; N]) -> fst p < M /\ snd p < N.

(** The pixels of the polygon with the given vertices. *)
Local Abbreviation pixels_of vertices := (polygon (map snd vertices) (map fst vertices) [M; N]).

Local Abbreviation mask_of vertices label :=
  (build [M; N]
     (fun idx => if existsb (fun p => shape_eqb idx [fst p; snd p]) (pixels_of vertices)
                 then label else 0%Z)).

Lemma mask_from_vertices_ok (vertices : list vertex) (label : Z) :
  _mask_from_vertices polygon vertices [M; N] label = Returns (mask_of vertices label).
Proof.
  unfold _mask_from_vertices, setitem_pixels. rewrite shape_build.
  assert (E : forallb (fun p => in_boundsb [M; N] [fst p; snd p]) (pixels_of vertices) = true).
  { apply forallb_forall. intros p Hp. destruct (clipped _ _ _ Hp) as [H1 H2].
    simpl. apply Nat.ltb_lt in H1. apply Nat.ltb_lt in H2. now rewrite H1, H2. }
  rewrite E. f_equal. apply build_ext. intros idx Hb.
  now rewrite item_build.
Qed.

Lemma masks_ok (vertex_lists : list (list vertex)) (start : nat) :
  omapM (fun iv => _mask_from_vertices polygon (snd iv) [M; N] (Z.of_nat (fst iv)))
    (enumerate vertex_lists start)
  = Returns (map (fun iv => mask_of (snd iv) (Z.of_nat (fst iv)))
               (enumerate vertex_lists start)).
Proof.
  revert start. induction vertex_lists as [|v l IH]; intros start; simpl; auto.
  rewrite mask_from_vertices_ok. simpl. now rewrite IH.
Qed.

(** The label of a pixel under [reduce(np.maximum, ...)]. *)
Lemma label_last_wins (r c : nat) (vertex_lists : list (list vertex)) :
  let value :=
    fold_left Z.max
      (map (fun iv => if existsb (fun p => shape_eqb [r; c] [fst p; snd p]) (pixels_of (snd iv))
                      then Z.of_nat (fst iv) else 0%Z)
         (enumerate vertex_lists 1)) 0%Z in
  (0 <= value <= Z.of_nat (length vertex_lists))%Z /\
  ((value = 0%Z /\
    forall i vertices, nth_error vertex_lists i = Some vertices ->
                       ~ In (r, c) (pixels_of vertices)) \/
   (exists i vertices,
      nth_error vertex_lists i = Some vertices /\ In (r, c) (pixels_of vertices) /\
      value = Z.of_nat (S i) /\
      forall j later, i < j -> nth_error vertex_lists j = Some later ->
                      ~ In (r, c) (pixels_of later))).
Proof.
  induction vertex_lists as [|v l IH] using rev_ind.
  - simpl. split; [lia|]. left. split; auto. intros [|i] v E; discriminate.
  - cbv zeta in IH |- *. rewrite enumerate_app, map_app, fold_left_app. cbn [map fold_left snd fst].
    set (value := fold_left Z.max _ 0%Z) in *.
    destruct IH as [Hrange IH]. rewrite length_app. cbn [length].
    destruct (existsb _ (pixels_of v)) eqn:E.
    + apply existsb_pixel in E. split; [lia|]. right.
      exists (length l), v. split; [|split; [exact E|split; [lia|]]].
      * rewrite nth_error_app2 by lia. now rewrite Nat.sub_diag.
      * intros j later Hj Hn. exfalso.
        assert (Hlt : j < length (l ++ [v])) by (apply nth_error_Some; congruence).
        rewrite length_app in Hlt. simpl in Hlt. lia.
    + assert (Hnot : ~ In (r, c) (pixels_of v)).
      { intros Hin. apply existsb_pixel in Hin. congruence. }
      split; [lia|]. replace (Z.max value 0) with value by lia.
      destruct IH as [[Hz Hnone] | [i [vs [Hn [Hin [Hv Hlater]]]]]].
      * left. split; [exact Hz|]. intros i vs Hn.
        destruct (Nat.lt_ge_cases i (length l)) as [Hlt|Hge].
        -- rewrite nth_error_app1 in Hn by exact Hlt. now apply (Hnone i).
        -- rewrite nth_error_app2 in Hn by exact Hge.
           destruct (i - length l) as [|k]; simpl in Hn; [|destruct k; discriminate].
           now injection Hn as <-.
      * right. exists i, vs.
        assert (Hi : i < length l) by (apply nth_error_Some; congruence).
        split; [now rewrite nth_error_app1|]. split; [exact Hin|]. split; [exact Hv|].
        intros j later Hj Hn'.
        destruct (Nat.lt_ge_cases j (length l)) as [Hlt|Hge].
        -- rewrite nth_error_app1 in Hn' by exact Hlt. now apply (Hlater j).
        -- rewrite nth_error_app2 in Hn' by exact Hge.
           destruct (j - length l) as [|k]; simpl in Hn'; [|destruct k; discriminate].
           now injection Hn' as <-.
Qed.

Lemma labels_of_maximum (channels : list nat) (vertex_lists : list (list vertex)) :
  exists out,
    labels_of polygon (M :: N :: channels) false vertex_lists = Returns out /\
    shape out = [M; N] /\
    forall r c, r < M -> c < N ->
      get out [r; c]
      = Some (fold_left Z.max
                (map (fun iv =>
                        if existsb (fun p => shape_eqb [r; c] [fst p; snd p]) (pixels_of (snd iv))
                        then Z.of_nat (fst iv) else 0%Z)
                   (enumerate vertex_lists 1)) 0%Z).
Proof.
  unfold labels_of. cbn [firstn]. rewrite masks_ok. cbn [obind].
  eexists. split; [reflexivity|]. split; [now rewrite shape_fold_maximum|].
  intros r c Hr Hc.
  assert (Hb : in_boundsb [M; N] [r; c] = true).
  { simpl. apply Nat.ltb_lt in Hr. apply Nat.ltb_lt in Hc. now rewrite Hr, Hc. }
  assert (Hsh : forall m, In m (map (fun iv => mask_of (snd iv) (Z.of_nat (fst iv)))
                                 (enumerate vertex_lists 1)) -> shape m = [M; N]).
  { intros m Hm. apply in_map_iff in Hm as [iv [<- _]]. reflexivity. }
  assert (Hget : forall a : ndarray Z, shape a = [M; N] ->
                   length (data a) = size (shape a) -> get a [r; c] = Some (item a [r; c])).
  { intros a Ha Hwf. apply get_Some_item; [exact Hwf|now rewrite Ha]. }
  assert (Hwf : forall ms init, wf init -> wf (fold_left (nd_zip Z.max) ms init)).
  { induction ms as [|m ms IHm]; intros init Hi; simpl; auto. apply IHm, wf_build. }
  rewrite Hget.
  - f_equal. rewrite (item_fold_maximum [M; N]); auto.
    rewrite item_build by exact Hb. rewrite map_map.
    f_equal. apply map_ext. intros iv. now rewrite item_build.
  - now rewrite shape_fold_maximum.
  - apply Hwf, wf_build.
Qed.
End LabelsFacts.

Lemma ndim_supported (M N : nat) (channels : list nat) :
  length channels <= 1 ->
  negb (existsb (Nat.eqb (length (M :: N :: channels))) [2; 3]) = false.
Proof.
  intros H. destruct channels as [|ch [|ch' l]]; simpl in *; auto. lia.
Qed.

(** X28: without [return_all], [manual_polygon_segmentation] returns an image
    of the first two dimensions of the input in which a pixel that no confirmed
    polygon covers is 0 and any other pixel carries the position, counted from
    1, of the last confirmed polygon that covers it: where polygons overlap
    the later one wins. *)
Theorem polygon_segmentation_last_polygon_wins
  (polygon : list Q -> list Q -> list nat -> list (nat * nat))
  (M N : nat) (channels : list nat) (events : list gui_event) :
  length channels <= 1 ->
  (forall pr pc p, In p (polygon pr pc [M; N]) -> fst p < M /\ snd p < N) ->
  exists s out,
    ofoldM polygon_callbacks events session_start = Returns s /\
    manual_polygon_segmentation polygon (M :: N :: channels) false events = Returns out /\
    shape out = [M; N] /\
    forall r c, r < M -> c < N ->
      exists v,
        get out [r; c] = Some v /\
        ((v = 0%Z /\
          forall i vertices,
            nth_error (list_of_vertex_lists s) i = Some vertices ->
            ~ In (r, c) (polygon (map snd vertices) (map fst vertices) [M; N])) \/
         (exists i vertices,
            nth_error (list_of_vertex_lists s) i = Some vertices /\
            In (r, c) (polygon (map snd vertices) (map fst vertices) [M; N]) /\
            v = Z.of_nat (S i) /\
            forall j later, i < j ->
              nth_error (list_of_vertex_lists s) j = Some later ->
              ~ In (r, c) (polygon (map snd later) (map fst later) [M; N]))).
Proof.
  intros Hch Hclip.
  destruct (polygon_callbacks_ok events session_start session_start_ok) as [s [Es _]].
  destruct (labels_of_maximum polygon M N Hclip channels (list_of_vertex_lists s))
    as [out [Eo [Hsh Hget]]].
  exists s, out. split; [exact Es|]. split; [|split; [exact Hsh|]].
  - unfold manual_polygon_segmentation. rewrite (ndim_supported M N channels Hch).
    rewrite Es. exact Eo.
  - intros r c Hr Hc. eexists. split; [apply (Hget r c Hr Hc)|].
    apply (label_last_wins polygon M N r c (list_of_vertex_lists s)).
Qed.

Lemma bounding_box_clipped (M N : nat) (pr pc : list Q) (p : nat * nat) :
  In p (bounding_box pr pc [M; N]) -> fst p < M /\ snd p < N.
Proof.
  unfold bounding_box. intros Hp. apply filter_In in Hp as [Hp _].
  destruct p as [r c]. apply in_prod_iff in Hp as [Hr Hc].
  apply in_seq in Hr. apply in_seq in Hc. simpl in *. lia.
Qed.

Lemma polygon_segmentation_last_polygon_wins_witness :
  exists s out,
    ofoldM polygon_callbacks
      [Button_press (mk_mouse_event (Some Image_axes) false LEFT_CLICK 0 0);
       Button_press (mk_mouse_event (Some Image_axes) false LEFT_CLICK 1 1);
       Button_press (mk_mouse_event (Some Image_axes) false RIGHT_CLICK 0 0)]
      session_start = Returns s /\
    manual_polygon_segmentation bounding_box [2; 3; 3] false
      [Button_press (mk_mouse_event (Some Image_axes) false LEFT_CLICK 0 0);
       Button_press (mk_mouse_event (Some Image_axes) false LEFT_CLICK 1 1);
       Button_press (mk_mouse_event (Some Image_axes) false RIGHT_CLICK 0 0)]
    = Returns out /\
    shape out = [2; 3] /\
    forall r c, r < 2 -> c < 3 ->
      exists v,
        get out [r; c] = Some v /\
        ((v = 0%Z /\
          forall i vertices,
            nth_error (list_of_vertex_lists s) i = Some vertices ->
            ~ In (r, c) (bounding_box (map snd vertices) (map fst vertices) [2; 3])) \/
         (exists i vertices,
            nth_error (list_of_vertex_lists s) i = Some vertices /\
            In (r, c) (bounding_box (map snd vertices) (map fst vertices) [2; 3]) /\
            v = Z.of_nat (S i) /\
            forall j later, i < j ->
              nth_error (list_of_vertex_lists s) j = Some later ->
              ~ In (r, c) (bounding_box (map snd later) (map fst later) [2; 3]))).
Proof.
  apply (polygon_segmentation_last_polygon_wins bounding_box 2 3 [3]).
  - simpl. lia.
  - apply bounding_box_clipped.
Defined.

(** X30: when the window of [manual_lasso_segmentation] is closed with no
    selection kept, [return_all=True] raises ValueError, [np.stack] being given
    no array, and [return_all=False] returns the image of zeros. *)
Theorem lasso_segmentation_without_selection
  (polygon : list Q -> list Q -> list nat -> list (nat * nat))
  (M N : nat) (channels : list nat) (events : list gui_event) (s : session) :
  length channels <= 1 ->
  ofoldM lasso_callbacks events session_start = Returns s ->
  list_of_vertex_lists s = [] ->
  manual_lasso_segmentation polygon (M :: N :: channels) true events = Raises ValueError_stack /\
  manual_lasso_segmentation polygon (M :: N :: channels) false events
  = Returns (build [M; N] (fun _ => 0%Z)).
Proof.
  intros Hch Es El. unfold manual_lasso_segmentation.
  rewrite (ndim_supported M N channels Hch), Es. cbn [obind].
  unfold labels_of. rewrite El. split; reflexivity.
Qed.

Lemma lasso_segmentation_without_selection_witness :
  manual_lasso_segmentation bounding_box [2; 3] true
    [Lasso_selected [(0, 0); (1, 1)]%Q; Undo_clicked] = Raises ValueError_stack /\
  manual_lasso_segmentation bounding_box [2; 3] false
    [Lasso_selected [(0, 0); (1, 1)]%Q; Undo_clicked]
  = Returns (build [2; 3] (fun _ => 0%Z)).
Proof.
  apply (lasso_segmentation_without_selection bounding_box 2 3 []
           [Lasso_selected [(0, 0); (1, 1)]%Q; Undo_clicked] session_start).
  - simpl. lia.
  - reflexivity.
  - reflexivity.
Defined.

Lemma nth_error_enumerate {A} (l : list A) (start i : nat) :
  nth_error (enumerate l start) i = option_map (fun x => (start + i, x)) (nth_error l i).
Proof.
  revert start i. induction l as [|x l IH]; intros start [|i]; simpl; auto.
  - now rewrite Nat.add_0_r.
  - rewrite IH. destruct (nth_error l i); simpl; auto. do 2 f_equal. lia.
Qed.

Lemma length_enumerate {A} (l : list A) (start : nat) : length (enumerate l start) = length l.
Proof. revert start. induction l as [|x l IH]; intros start; simpl; auto. Qed.

(** The buffer of a stack of arrays of one size. *)
Lemma nth_error_concat_data (k : nat) (arrays : list (ndarray Z)) (i j : nat) (a : ndarray Z) :
  (forall b, In b arrays -> length (data b) = k) ->
  nth_error arrays i = Some a -> j < k ->
  nth_error (concat (map (@data Z) arrays)) (i * k + j) = nth_error (data a) j.
Proof.
  revert i. induction arrays as [|b arrays IH]; intros [|i] Hk Ha Hj; simpl in Ha;
    try discriminate.
  - injection Ha as ->. simpl. apply nth_error_app1. rewrite (Hk a); auto. now left.
  - simpl. rewrite nth_error_app2 by (rewrite (Hk b (or_introl eq_refl)); lia).
    rewrite (Hk b (or_introl eq_refl)).
    replace (k + i * k + j - k) with (i * k + j) by lia.
    apply IH; auto. intros b' Hb'. apply Hk. now right.
Qed.

(** X29: with [return_all], [manual_polygon_segmentation] returns one image
    for each confirmed polygon, in the order of confirmation: image [i] is
    [i + 1] on the pixels of polygon [i] and 0 elsewhere, overlaps included. *)
Theorem polygon_segmentation_return_all
  (polygon : list Q -> list Q -> list nat -> list (nat * nat))
  (M N : nat) (channels : list nat) (events : list gui_event) (s : session) :
  length channels <= 1 ->
  (forall pr pc p, In p (polygon pr pc [M; N]) -> fst p < M /\ snd p < N) ->
  ofoldM polygon_callbacks events session_start = Returns s ->
  list_of_vertex_lists s <> [] ->
  exists out,
    manual_polygon_segmentation polygon (M :: N :: channels) true events = Returns out /\
    shape out = [length (list_of_vertex_lists s); M; N] /\
    forall i vertices r c,
      nth_error (list_of_vertex_lists s) i = Some vertices -> r < M -> c < N ->
      (In (r, c) (polygon (map snd vertices) (map fst vertices) [M; N]) ->
       get out [i; r; c] = Some (Z.of_nat (S i))) /\
      (~ In (r, c) (polygon (map snd vertices) (map fst vertices) [M; N]) ->
       get out [i; r; c] = Some 0%Z).
Proof.
  intros Hch Hclip Es Hne. unfold manual_polygon_segmentation.
  rewrite (ndim_supported M N channels Hch), Es. cbn [obind].
  unfold labels_of. cbn [firstn]. rewrite (masks_ok polygon M N Hclip). cbn [obind].
  match goal with |- context [map ?f (enumerate _ 1)] => set (mask := f) end.
  remember (map mask (enumerate (list_of_vertex_lists s) 1)) as masks eqn:Em.
  assert (Hshape : forall b, In b masks -> shape b = [M; N]).
  { intros b Hb. rewrite Em in Hb. apply in_map_iff in Hb as [iv [<- _]]. reflexivity. }
  assert (Hlen : length masks = length (list_of_vertex_lists s)).
  { rewrite Em. now rewrite length_map, length_enumerate. }
  destruct masks as [|a rest].
  { destruct (list_of_vertex_lists s); [congruence|discriminate]. }
  unfold np_stack.
  assert (Hall : forallb (fun b => shape_eqb (shape b) (shape a)) (a :: rest) = true).
  { apply forallb_forall. intros b Hb. rewrite (Hshape b Hb), (Hshape a (or_introl eq_refl)).
    apply shape_eqb_refl. }
  rewrite Hall. eexists. split; [reflexivity|].
  rewrite (Hshape a (or_introl eq_refl)), Hlen. split; [reflexivity|].
  intros i vertices r c Hn Hr Hc.
  assert (Hm : nth_error (a :: rest) i = Some (mask (S i, vertices))).
  { rewrite Em. rewrite nth_error_map, nth_error_enumerate.
    unfold vertex in *. rewrite Hn. reflexivity. }
  assert (Hi : i < length (list_of_vertex_lists s)) by (apply nth_error_Some; congruence).
  assert (Hb : in_boundsb [M; N] [r; c] = true).
  { simpl. apply Nat.ltb_lt in Hr. apply Nat.ltb_lt in Hc. now rewrite Hr, Hc. }
  assert (Hget : get (mk_ndarray [length (list_of_vertex_lists s); M; N]
                        (concat (map (@data Z) (a :: rest)))) [i; r; c]
                 = get (mask (S i, vertices)) [r; c]).
  { unfold get. rewrite (Hshape _ (nth_error_In _ _ Hm)). cbn [shape]. rewrite Hb.
    assert (Hb3 : in_boundsb [length (list_of_vertex_lists s); M; N] [i; r; c] = true).
    { cbn [in_boundsb]. apply Nat.ltb_lt in Hi. rewrite Hi. exact Hb. }
    rewrite Hb3. cbn [data ravel].
    apply (nth_error_concat_data (size [M; N])); auto.
    - intros b Hb'. rewrite Em in Hb'. apply in_map_iff in Hb' as [iv [<- _]].
      unfold mask, build. cbn [data]. now rewrite length_map, length_indices.
    - apply (ravel_lt [M; N] [r; c] Hb). }
  rewrite Hget. unfold mask. rewrite get_build by exact Hb. cbn [fst snd].
  split; intros Hin.
  - apply existsb_pixel in Hin. now rewrite Hin.
  - destruct (existsb _ _) eqn:E; auto. apply existsb_pixel in E. contradiction.
Qed.

Lemma polygon_segmentation_return_all_witness :
  exists out,
    manual_polygon_segmentation bounding_box [2; 3] true
      [Button_press (mk_mouse_event (Some Image_axes) false LEFT_CLICK 0 0);
       Button_press (mk_mouse_event (Some Image_axes) false RIGHT_CLICK 0 0)]
    = Returns out /\
    shape out = [length [[(0, 0)%Q]]; 2; 3] /\
    forall i vertices r c,
      nth_error [[(0, 0)%Q]] i = Some vertices -> r < 2 -> c < 3 ->
      (In (r, c) (bounding_box (map snd vertices) (map fst vertices) [2; 3]) ->
       get out [i; r; c] = Some (Z.of_nat (S i))) /\
      (~ In (r, c) (bounding_box (map snd vertices) (map fst vertices) [2; 3]) ->
       get out [i; r; c] = Some 0%Z).
Proof.
  apply (polygon_segmentation_return_all bounding_box 2 3 []
           [Button_press (mk_mouse_event (Some Image_axes) false LEFT_CLICK 0 0);
            Button_press (mk_mouse_event (Some Image_axes) false RIGHT_CLICK 0 0)]
           (mk_session [[(0, 0)%Q]] [1] [] [] (mk_axes [1] 2))).
  - simpl. lia.
  - apply bounding_box_clipped.
  - reflexivity.
  - discriminate.
Defined.
